(** * Vanguard: the data aggregation and derived-state layer

    A shallow embedding of the TypeScript sources of the dashboard
    (the root component, the [useMastery], [useVault] and
    [useAchievements] hooks and the achievements endpoint of the local
    API server), followed by the properties established about them.

    Conventions of the embedding:
    - JavaScript numbers that hold identifiers, minutes and counters are
      integers ([Z]); numbers that hold percentages are [JsNum] values;
    - arrays are lists, [Map] and plain objects used as dictionaries are
      [gmap]s, [any]-typed payloads are [Json] values;
    - a computation that may throw returns a [Res]. *)

From Stdlib Require Import ZArith QArith String Ascii List Permutation Sorted Lia.
From stdpp Require Import base option list sorting gmap strings pretty.

Local Open Scope string_scope.
Local Open Scope list_scope.
Local Open Scope Z_scope.

(** ** The JavaScript runtime, as far as the sources use it *)

(** Exceptions. *)
Inductive JsError : Type :=
  | SyntaxError
  | TypeError
  | NetworkError (message : string).

Inductive Res (A : Type) : Type :=
  | Ok (a : A)
  | Throw (e : JsError).
Arguments Ok {A} a.
Arguments Throw {A} e.

#[global] Instance res_ret : MRet Res := λ A a, Ok a.
#[global] Instance res_bind : MBind Res := λ A B k r,
  match r with
  | Ok a => k a
  | Throw e => Throw e
  end.

(** [try { body } catch (e) { handler }] *)
Definition try_catch {A : Type} (body : Res A) (handler : JsError → Res A) : Res A :=
  match body with
  | Ok a => Ok a
  | Throw e => handler e
  end.

(** [Array.prototype.findIndex]; [None] stands for the result [-1]. *)
Fixpoint findIndex {A : Type} (p : A → bool) (l : list A) : option nat :=
  match l with
  | [] => None
  | x :: l' => if p x then Some O else S <$> findIndex p l'
  end.

(** [Array.prototype.includes] on an array of numbers. *)
Definition includes (l : list Z) (x : Z) : bool :=
  existsb (Z.eqb x) l.

(** [Array.prototype.sort] with a comparator, as a stable insertion sort:
    [cmp a b] is the sign of the comparator's result ([Gt] when the
    comparator is positive, i.e. [a] has to come after [b]).  The
    language fixes the result only for consistent comparators; all
    comparators of the sources are. *)
Section Sort.
Context {A : Type} (cmp : A → A → comparison).

Fixpoint sort_insert (x : A) (l : list A) : list A :=
  match l with
  | [] => [x]
  | y :: l' =>
      match cmp x y with
      | Gt => y :: sort_insert x l'
      | _ => x :: l
      end
  end.

Definition sort (l : list A) : list A := foldr sort_insert [] l.

(** [a] may stand before [b]: the comparator is not positive. *)
Definition before (a b : A) : Prop := cmp a b ≠ Gt.
End Sort.

(** The sign of a difference of two integers, [a - b]. *)
Definition sign (z : Z) : comparison := z ?= 0.

(** *** Numbers

    A number is [NaN], an infinity or a finite value.  A finite double
    is kept as the rational it denotes; the operations the sources apply
    to non-integers are comparison and the sign of a difference, which
    rounding does not change.  The two zeros are not distinguished. *)
Inductive JsNum : Type :=
  | NaN
  | PInf
  | NInf
  | Fin (q : Q).

Definition num_of_Z (z : Z) : JsNum := Fin (inject_Z z).

(** ToBoolean on a number: [NaN] and zero are falsy. *)
Definition num_truthy (n : JsNum) : bool :=
  match n with
  | NaN => false
  | Fin q => negb (Qeq_bool q 0)
  | _ => true
  end.

(** [n || 0] *)
Definition num_or0 (n : JsNum) : JsNum := if num_truthy n then n else Fin 0.

(** [a - b] *)
Definition num_sub (a b : JsNum) : JsNum :=
  match a, b with
  | NaN, _ | _, NaN => NaN
  | PInf, PInf | NInf, NInf => NaN
  | PInf, _ | _, NInf => PInf
  | NInf, _ | _, PInf => NInf
  | Fin x, Fin y => Fin (x - y)
  end.

(** What [Array.prototype.sort] makes of a comparator's result: positive,
    negative, or zero; [NaN] counts as zero. *)
Definition num_sign (n : JsNum) : comparison :=
  match n with
  | NaN => Eq
  | PInf => Gt
  | NInf => Lt
  | Fin q => (q ?= 0)%Q
  end.

(** [a === b] on numbers. *)
Definition num_eqb (a b : JsNum) : bool :=
  match a, b with
  | PInf, PInf | NInf, NInf => true
  | Fin x, Fin y => Qeq_bool x y
  | _, _ => false
  end.

(** *** Values of type [any] *)
#[local] Set Warnings "-register-all".

Inductive Json : Type :=
  | JUndefined
  | JNull
  | JBool (b : bool)
  | JNum (n : JsNum)
  | JStr (s : string)
  | JArr (items : list Json)
  | JObj (fields : list (string * Json)).

Definition nullish (v : Json) : bool :=
  match v with
  | JUndefined | JNull => true
  | _ => false
  end.

(** ToBoolean *)
Definition truthy (v : Json) : bool :=
  match v with
  | JUndefined | JNull => false
  | JBool b => b
  | JNum n => num_truthy n
  | JStr s => negb (String.eqb s "")
  | JArr _ | JObj _ => true
  end.

(** [a || b] *)
Definition js_or (a b : Json) : Json := if truthy a then a else b.

(** [a === b].  Two compound values are never the same reference here:
    every object or array at hand comes out of its own parse or literal. *)
Definition strict_eq (a b : Json) : bool :=
  match a, b with
  | JUndefined, JUndefined | JNull, JNull => true
  | JBool x, JBool y => Bool.eqb x y
  | JNum x, JNum y => num_eqb x y
  | JStr x, JStr y => String.eqb x y
  | _, _ => false
  end.

(** The own property [k] of an object; in a parsed object the last of
    several equal keys holds the value. *)
Fixpoint assoc (k : string) (fields : list (string * Json)) : option Json :=
  match fields with
  | [] => None
  | (k', v) :: rest =>
      match assoc k rest with
      | Some w => Some w
      | None => if String.eqb k k' then Some v else None
      end
  end.

(** The code of a character, and the decimal digits. *)
Definition code (c : ascii) : Z := Z.of_N (N_of_ascii c).

Definition is_digit (c : ascii) : bool := (48 <=? code c) && (code c <=? 57).

Definition digits_val (d : list ascii) : Z :=
  foldl (λ acc c, 10 * acc + (code c - 48)) 0 d.

(** The array index a property key denotes, if it is the canonical
    decimal form of one. *)
Definition array_index (k : string) : option nat :=
  let d := list_ascii_of_string k in
  match d with
  | [] => None
  | c :: rest =>
      if forallb is_digit d && (negb (code c =? 48) || (length rest =? 0)%nat)
      then Some (Z.to_nat (digits_val d))
      else None
  end.

(** Property read on a value that is neither [undefined] nor [null]:
    an own property of an object, the length or an element of an array,
    the length or a character of a string.  Inherited methods are not
    values of the model. *)
Definition prop (k : string) (v : Json) : Json :=
  match v with
  | JObj fields => default JUndefined (assoc k fields)
  | JArr items =>
      if String.eqb k "length" then JNum (num_of_Z (Z.of_nat (length items)))
      else default JUndefined (i ← array_index k; items !! i)
  | JStr s =>
      if String.eqb k "length" then JNum (num_of_Z (Z.of_nat (String.length s)))
      else default JUndefined
             (i ← array_index k; c ← String.get i s; Some (JStr (String c EmptyString)))
  | _ => JUndefined
  end.

(** [v.k] *)
Definition dot (k : string) (v : Json) : Res Json :=
  if nullish v then Throw TypeError else Ok (prop k v).

(** [v?.k] *)
Definition qdot (k : string) (v : Json) : Json :=
  if nullish v then JUndefined else prop k v.

(** *** Strings

    Strings are sequences of bytes; case mapping and white space are
    those of ASCII. *)
Definition is_space (c : ascii) : bool :=
  ((9 <=? code c) && (code c <=? 13)) || (code c =? 32).

Definition lower (c : ascii) : ascii :=
  if (65 <=? code c) && (code c <=? 90)
  then ascii_of_N (Z.to_N (code c + 32)) else c.

Fixpoint toLowerCase (s : string) : string :=
  match s with
  | EmptyString => EmptyString
  | String c s' => String (lower c) (toLowerCase s')
  end.

(** [s.startsWith(p)] *)
Definition startsWith (p s : string) : bool := String.prefix p s.

(** [s.includes(t)] *)
Fixpoint str_includes (t s : string) : bool :=
  String.prefix t s ||
  match s with
  | EmptyString => false
  | String _ s' => str_includes t s'
  end.

Fixpoint skip_spaces (s : list ascii) : list ascii :=
  match s with
  | c :: s' => if is_space c then skip_spaces s' else s
  | [] => []
  end.

Fixpoint span_digits (s : list ascii) : list ascii * list ascii :=
  match s with
  | c :: s' =>
      if is_digit c then let '(d, r) := span_digits s' in (c :: d, r)
      else ([], s)
  | [] => ([], [])
  end.

Definition pow10 (e : Z) : Q :=
  if 0 <=? e then inject_Z (10 ^ e) else (1 / inject_Z (10 ^ (- e)))%Q.

(** An exponent part [e±ddd] in front of [s], if there is a complete
    one: its value and what follows it. *)
Definition exponent_part (s : list ascii) : option (Z * list ascii) :=
  match s with
  | c :: s1 =>
      if (code c =? 101) || (code c =? 69) then
        let '(sgn, s2) :=
          match s1 with
          | c' :: t =>
              if code c' =? 43 then (1, t)
              else if code c' =? 45 then (-1, t)
              else (1, s1)
          | [] => (1, s1)
          end in
        let '(d, r) := span_digits s2 in
        match d with
        | [] => None
        | _ => Some (sgn * digits_val d, r)
        end
      else None
  | [] => None
  end.

(** The longest prefix of [s] that is an unsigned decimal literal of
    [parseFloat]'s grammar ([ddd], [ddd.], [ddd.ddd], [.ddd], each with an
    optional exponent), with its value. *)
Definition unsigned_decimal (s : list ascii) : option Q :=
  let '(ip, r1) := span_digits s in
  let '(fp, r2) :=
    match r1 with
    | c :: t =>
        if code c =? 46 then
          let '(f, r) := span_digits t in
          match ip, f with
          | [], [] => ([], r1)
          | _, _ => (f, r)
          end
        else ([], r1)
    | [] => ([], r1)
    end in
  match ip, fp with
  | [], [] => None
  | _, _ =>
      let e := match exponent_part r2 with Some (e, _) => e | None => 0 end in
      Some (Qred (inject_Z (digits_val (ip ++ fp)) * pow10 (e - Z.of_nat (length fp))))
  end.

Definition infinity_literal : list ascii := list_ascii_of_string "Infinity".

Fixpoint has_prefix (p s : list ascii) : bool :=
  match p, s with
  | [], _ => true
  | a :: p', b :: s' => Ascii.eqb a b && has_prefix p' s'
  | _ :: _, [] => false
  end.

Definition parse_unsigned (s : list ascii) : option JsNum :=
  if has_prefix infinity_literal s then Some PInf
  else Fin <$> unsigned_decimal s.

Definition num_neg (n : JsNum) : JsNum :=
  match n with
  | NaN => NaN
  | PInf => NInf
  | NInf => PInf
  | Fin q => Fin (Qred (- q))
  end.

(** [parseFloat(s)] on a string. *)
Definition parseFloat (s : string) : JsNum :=
  let t := skip_spaces (list_ascii_of_string s) in
  default NaN
    match t with
    | c :: t' =>
        if code c =? 43 then parse_unsigned t'
        else if code c =? 45 then num_neg <$> parse_unsigned t'
        else parse_unsigned t
    | [] => None
    end.

(** [parseFloat(v)] on any value: the argument is converted to a string
    first.  A number prints and reads back as itself; [true], [false],
    [null], [undefined] and an object print as words; an array prints
    its elements separated by commas, so that only its first element
    can contribute digits. *)
Fixpoint parseFloat_any (v : Json) : JsNum :=
  match v with
  | JStr s => parseFloat s
  | JNum n => n
  | JArr (x :: _) =>
      match x with
      | JUndefined | JNull => NaN
      | _ => parseFloat_any x
      end
  | _ => NaN
  end.

(** *** [parseInt] and [JSON.parse] *)

Definition hex_digit (c : ascii) : option Z :=
  let n := code c in
  if (48 <=? n) && (n <=? 57) then Some (n - 48)
  else if (97 <=? n) && (n <=? 102) then Some (n - 87)
  else if (65 <=? n) && (n <=? 70) then Some (n - 55)
  else None.

Fixpoint span_hex (s : list ascii) (acc : Z) (count : nat) : Z * nat :=
  match s with
  | c :: s' =>
      match hex_digit c with
      | Some d => span_hex s' (16 * acc + d) (S count)
      | None => (acc, count)
      end
  | [] => (acc, count)
  end.

(** [parseInt(s)] without a radix: decimal, or hexadecimal after [0x];
    [None] stands for [NaN]. *)
Definition parseInt (s : string) : option Z :=
  let t := skip_spaces (list_ascii_of_string s) in
  let '(sgn, u) :=
    match t with
    | c :: t' =>
        if code c =? 43 then (1, t')
        else if code c =? 45 then (-1, t')
        else (1, t)
    | [] => (1, t)
    end in
  match u with
  | z :: x :: h =>
      if (code z =? 48) && ((code x =? 120) || (code x =? 88)) then
        let '(v, n) := span_hex h 0 0 in
        match n with O => None | S _ => Some (sgn * v) end
      else
        match fst (span_digits u) with
        | [] => None
        | d => Some (sgn * digits_val d)
        end
  | _ =>
      match fst (span_digits u) with
      | [] => None
      | d => Some (sgn * digits_val d)
      end
  end.

(** The property key a number denotes, [String(n)]. *)
Definition number_key (n : option Z) : string :=
  match n with
  | Some z => pretty z
  | None => "NaN"
  end.

Module JSON.

(** White space of the JSON grammar: tab, line feed, carriage return
    and space. *)
Definition is_ws (c : ascii) : bool :=
  (code c =? 9) || (code c =? 10) || (code c =? 13) || (code c =? 32).

Fixpoint skip_ws (s : list ascii) : list ascii :=
  match s with
  | c :: s' => if is_ws c then skip_ws s' else s
  | [] => []
  end.

(** A code unit of a [\u] escape as bytes (UTF-8). *)
Definition encode (u : Z) : list ascii :=
  let byte (z : Z) := ascii_of_N (Z.to_N z) in
  if u <? 128 then [byte u]
  else if u <? 2048 then [byte (192 + u / 64); byte (128 + u mod 64)]
  else [byte (224 + u / 4096); byte (128 + (u / 64) mod 64); byte (128 + u mod 64)].

Definition escape (c : ascii) : option ascii :=
  let n := code c in
  if (n =? 34) || (n =? 92) || (n =? 47) then Some c
  else if n =? 98 then Some (ascii_of_N 8)
  else if n =? 102 then Some (ascii_of_N 12)
  else if n =? 110 then Some (ascii_of_N 10)
  else if n =? 114 then Some (ascii_of_N 13)
  else if n =? 116 then Some (ascii_of_N 9)
  else None.

(** The characters of a string literal after its opening quote, up to
    the closing one. *)
Fixpoint string_chars (fuel : nat) (s acc : list ascii) : option (list ascii * list ascii) :=
  match fuel with
  | O => None
  | S fuel' =>
      match s with
      | [] => None
      | c :: r =>
          if code c =? 34 then Some (acc, r)
          else if code c <? 32 then None
          else if code c =? 92 then
            match r with
            | e :: r' =>
                if code e =? 117 then
                  match r' with
                  | h1 :: h2 :: h3 :: h4 :: r'' =>
                      match hex_digit h1, hex_digit h2, hex_digit h3, hex_digit h4 with
                      | Some a, Some b, Some c', Some d =>
                          string_chars fuel' r''
                            (acc ++ encode (((a * 16 + b) * 16 + c') * 16 + d))
                      | _, _, _, _ => None
                      end
                  | _ => None
                  end
                else
                  match escape e with
                  | Some x => string_chars fuel' r' (acc ++ [x])
                  | None => None
                  end
            | [] => None
            end
          else string_chars fuel' r (acc ++ [c])
      end
  end.

(** A number of the JSON grammar in front of [s]. *)
Definition number (s : list ascii) : option (JsNum * list ascii) :=
  let '(neg, s1) :=
    match s with
    | c :: t => if code c =? 45 then (true, t) else (false, s)
    | [] => (false, s)
    end in
  let '(ip, r1) :=
    match s1 with
    | c :: t => if code c =? 48 then ([c], t) else span_digits s1
    | [] => ([], s1)
    end in
  match ip with
  | [] => None
  | _ =>
      let '(fp, r2) :=
        match r1 with
        | c :: t =>
            if code c =? 46 then
              match span_digits t with
              | ([], _) => ([], r1)
              | (f, r) => (f, r)
              end
            else ([], r1)
        | [] => ([], r1)
        end in
      let '(e, r3) :=
        match exponent_part r2 with
        | Some (e, r) => (e, r)
        | None => (0, r2)
        end in
      let q := (inject_Z (digits_val (ip ++ fp)) * pow10 (e - Z.of_nat (length fp)))%Q in
      Some (Fin (Qred (if neg then (- q)%Q else q)), r3)
  end.

Definition literal (word : string) (v : Json) (s : list ascii) : option (Json * list ascii) :=
  let w := list_ascii_of_string word in
  if has_prefix w s then Some (v, drop (length w) s) else None.

(** The elements of an array after the first has been found to start
    at [s], and the members of an object likewise; [value] parses one
    value. *)
Fixpoint elements (value : list ascii → option (Json * list ascii))
    (fuel : nat) (s : list ascii) (acc : list Json) : option (list Json * list ascii) :=
  match fuel with
  | O => None
  | S fuel' =>
      match value s with
      | Some (v, r) =>
          match skip_ws r with
          | c :: r' =>
              if code c =? 44 then elements value fuel' (skip_ws r') (acc ++ [v])
              else if code c =? 93 then Some (acc ++ [v], r')
              else None
          | [] => None
          end
      | None => None
      end
  end.

Fixpoint members (value : list ascii → option (Json * list ascii))
    (fuel : nat) (s : list ascii) (acc : list (string * Json))
    : option (list (string * Json) * list ascii) :=
  match fuel with
  | O => None
  | S fuel' =>
      match s with
      | q :: r0 =>
          if code q =? 34 then
            match string_chars (length r0) r0 [] with
            | Some (k, r1) =>
                match skip_ws r1 with
                | c :: r2 =>
                    if code c =? 58 then
                      match value (skip_ws r2) with
                      | Some (v, r3) =>
                          let acc' := acc ++ [(string_of_list_ascii k, v)] in
                          match skip_ws r3 with
                          | d :: r4 =>
                              if code d =? 44 then members value fuel' (skip_ws r4) acc'
                              else if code d =? 125 then Some (acc', r4)
                              else None
                          | [] => None
                          end
                      | None => None
                      end
                    else None
                | [] => None
                end
            | None => None
            end
          else None
      | [] => None
      end
  end.

(** One value in front of [s], which starts with no white space.  The
    fuel bounds the nesting and the number of elements; the length of
    the text is enough of it. *)
Fixpoint value (fuel : nat) (s : list ascii) : option (Json * list ascii) :=
  match fuel with
  | O => None
  | S fuel' =>
      match s with
      | [] => None
      | c :: r =>
          if code c =? 34 then
            match string_chars (length r) r [] with
            | Some (chars, r') => Some (JStr (string_of_list_ascii chars), r')
            | None => None
            end
          else if code c =? 91 then
            match skip_ws r with
            | d :: r' =>
                if code d =? 93 then Some (JArr [], r')
                else
                  match elements (value fuel') fuel' (d :: r') [] with
                  | Some (items, r'') => Some (JArr items, r'')
                  | None => None
                  end
            | [] => None
            end
          else if code c =? 123 then
            match skip_ws r with
            | d :: r' =>
                if code d =? 125 then Some (JObj [], r')
                else
                  match members (value fuel') fuel' (d :: r') [] with
                  | Some (fields, r'') => Some (JObj fields, r'')
                  | None => None
                  end
            | [] => None
            end
          else if code c =? 116 then literal "true" (JBool true) s
          else if code c =? 102 then literal "false" (JBool false) s
          else if code c =? 110 then literal "null" JNull s
          else
            match number s with
            | Some (n, r') => Some (JNum n, r')
            | None => None
            end
      end
  end.

(** [JSON.parse(text)]: the value, or a [SyntaxError]. *)
Definition parse (text : string) : Res Json :=
  let s := list_ascii_of_string text in
  match value (S (length s)) (skip_ws s) with
  | Some (v, r) =>
      match skip_ws r with
      | [] => Ok v
      | _ => Throw SyntaxError
      end
  | None => Throw SyntaxError
  end.

End JSON.

(** A text between double quotes, for writing JSON texts down. *)
Definition quoted (s : string) : string :=
  String (ascii_of_N 34) s +:+ String (ascii_of_N 34) EmptyString.

(** ** The game list (src/App.tsx, query ['games', STEAM_ID]) *)

(** The [Game] interface of src/types.ts, with the fields the sources
    read and write.  [playtime_2weeks] is absent from an owned game that
    was not played recently. *)
Record Game : Type := mkGame {
  appid : Z;
  name : string;
  playtime_forever : Z;
  img_icon_url : string;
  playtime_2weeks : option Z
}.

#[global] Instance Game_eq_dec : EqDecision Game.
Proof. solve_decision. Defined.

Definition set_name (n : string) (g : Game) : Game :=
  mkGame (appid g) n (playtime_forever g) (img_icon_url g) (playtime_2weeks g).

Definition set_playtime_forever (p : Z) (g : Game) : Game :=
  mkGame (appid g) (name g) p (img_icon_url g) (playtime_2weeks g).

Definition set_playtime_2weeks (p : option Z) (g : Game) : Game :=
  mkGame (appid g) (name g) (playtime_forever g) (img_icon_url g) p.

(** The identifier and the display name the aggregation hard-codes. *)
Definition SPACEWAR : Z := 480.
Definition SPACEWAR_NAME : string := "ELDEN RING COOP".

(** [new Map(games.map(g => [g.appid, g]))]: a later entry replaces an
    earlier one with the same key. *)
Definition recentGamesMap (recent : list Game) : gmap Z Game :=
  foldl (λ m g, <[appid g := g]> m) ∅ recent.

(** [x || 0] on an optional number. *)
Definition or0 (x : option Z) : Z := default 0 x.

(** The two statements on the owned entry of the pseudo-game when the
    recent list has it too. *)
Definition sync_spacewar (r g : Game) : Game :=
  set_playtime_2weeks (playtime_2weeks r)
    (set_playtime_forever (Z.max (playtime_forever g) (playtime_forever r)) g).

(** The callback of the final [map]. *)
Definition rename_spacewar (g : Game) : Game :=
  if bool_decide (appid g = SPACEWAR) then set_name SPACEWAR_NAME g else g.

(** The body of the query function after both responses have arrived:
    [owned] is [gamesRes.data.response?.games || []] and [recent] is
    [recentRes.data.response?.games || []]. *)
Definition games_queryFn (owned recent : list Game) : list Game :=
  let recentSpacewar := recentGamesMap recent !! SPACEWAR in
  let ownedSpacewarIndex :=
    findIndex (λ g, bool_decide (appid g = SPACEWAR)) owned in
  let rawGames :=
    match ownedSpacewarIndex with
    | Some i =>
        match recentSpacewar with
        | Some r => alter (sync_spacewar r) i owned
        | None => owned
        end
    | None =>
        owned ++
        [ mkGame SPACEWAR "Spacewar"
            (or0 (playtime_forever <$> recentSpacewar))
            ""
            (Some (or0 (recentSpacewar ≫= playtime_2weeks))) ]
    end in
  rename_spacewar <$> rawGames.

(** ** The vault view (src/App.tsx, [filteredAndSortedGames]) *)

(** [search.filter || 'all'] *)
Inductive VaultFilter : Type :=
  | FilterAll
  | FilterMastered
  | FilterBlacklisted
  | FilterActive
  | FilterHunter.

(** [search.sort || 'playtime'] *)
Inductive VaultSort : Type :=
  | SortPlaytime
  | SortName
  | SortRecency.

(** The text filter, the first statement of the memo. *)
Definition textFilter (searchQuery : string) (games : list Game) : list Game :=
  List.filter
    (λ g, str_includes (toLowerCase searchQuery) (toLowerCase (name g))) games.

(** The [if / else if] chain on [vaultFilter]. *)
Definition statusFilter (vaultFilter : VaultFilter)
    (masteredAppIds blacklist hunterTargets : list Z)
    (result : list Game) : list Game :=
  match vaultFilter with
  | FilterMastered => List.filter (λ g, includes masteredAppIds (appid g)) result
  | FilterBlacklisted => List.filter (λ g, includes blacklist (appid g)) result
  | FilterActive => List.filter (λ g, 0 <? or0 (playtime_2weeks g)) result
  | FilterHunter => List.filter (λ g, includes hunterTargets (appid g)) result
  | FilterAll => result
  end.

Section VaultView.
(** The sign of [a.localeCompare(b)]; the collation is the host's. *)
Variable localeCompare : string → string → comparison.

Definition vaultCompare (vaultSortBy : VaultSort) (a b : Game) : comparison :=
  match vaultSortBy with
  | SortName => localeCompare (name a) (name b)
  | SortRecency => sign (or0 (playtime_2weeks b) - or0 (playtime_2weeks a))
  | SortPlaytime => sign (playtime_forever b - playtime_forever a)
  end.

Definition filteredAndSortedGames (games : list Game) (searchQuery : string)
    (vaultFilter : VaultFilter) (vaultSortBy : VaultSort)
    (masteredAppIds blacklist hunterTargets : list Z) : list Game :=
  let result := textFilter searchQuery games in
  let result := statusFilter vaultFilter masteredAppIds blacklist hunterTargets result in
  sort (vaultCompare vaultSortBy) result.
End VaultView.

(** ** The vault hook ([useVault], its status filter) *)

(** [searchParams.filter || 'all']; the hook's filter has no hunter
    value, [hunter] being a search parameter of its own there. *)
Inductive HookFilter : Type :=
  | HookAll
  | HookMastered
  | HookBlacklisted
  | HookActive.

(** The statements under [// Filter: Tab/Status]. *)
Definition useVault_statusFilter (vaultFilter : HookFilter)
    (masteredAppIds blacklist : list Z) (result : list Game) : list Game :=
  match vaultFilter with
  | HookMastered => List.filter (λ g, includes masteredAppIds (appid g)) result
  | HookBlacklisted => List.filter (λ g, includes blacklist (appid g)) result
  | HookActive => List.filter (λ g, 0 <? or0 (playtime_2weeks g)) result
  | HookAll => result
  end.

(** ** The mastery hook (src/hooks/useMastery.ts) *)

(** [achieved / total === 1] for two array lengths. *)
Definition ratio (achieved total : nat) : Q :=
  (inject_Z (Z.of_nat achieved) / inject_Z (Z.of_nat total))%Q.

(** The body of the [try] after the response has arrived: whether the
    game is to be pushed.  [data] is [res.data].  When
    [playerstats.achievements] is not an array, either the guard on
    [length] is false or [filter] is not a function; the [catch] swallows
    the error, so nothing is pushed either way. *)
Definition fullyAchieved (data : Json) : Res bool :=
  achievements ← dot "achievements" data;
  let playerstats := qdot "playerstats" achievements in
  match qdot "achievements" playerstats with
  | JArr items =>
      if negb (strict_eq (qdot "success" playerstats) (JBool false))
         && (0 <? Z.of_nat (length items))
      then
        flags ← mapM (λ a, v ← dot "achieved" a; mret (strict_eq v (JNum (Fin 1)))) items;
        let total := length items in
        let achieved := length (List.filter id flags) in
        mret ((0 <? Z.of_nat total) && Qeq_bool (ratio achieved total) 1)
      else mret false
  | _ => mret false
  end.

Section Mastery.
(** [axios.get(`${apiBase}/achievements/${steamId}/${appid}`)]: the
    response body, or the rejection. *)
Variable resolve : Z → Res Json.

(** The body of the [try]: the request and the test on its response. *)
Definition tryMastered (id : Z) : Res bool :=
  data ← resolve id; fullyAchieved data.

(** One iteration of the loop over [checkList]; the [catch] is empty. *)
Definition checkGame (mastered : list Z) (game : Game) : list Z :=
  match tryMastered (appid game) with
  | Ok true =>
      if includes mastered (appid game) then mastered
      else mastered ++ [appid game]
  | _ => mastered
  end.

Definition byPlaytime (a b : Game) : comparison :=
  sign (playtime_forever b - playtime_forever a).

Definition checkList (games : list Game) : list Game :=
  take 20 (sort byPlaytime games).

(** One run of the effect: the next value of the [masteredAppIds]
    state, given the value the run started from.  The run returns
    before touching the state when there is nothing to check. *)
Definition verifyMastery (games : list Game) (steamId : string)
    (masteredAppIds : list Z) : list Z :=
  if (length games =? 0)%nat || String.eqb steamId "" then masteredAppIds
  else foldl checkGame masteredAppIds (checkList games).
End Mastery.

(** ** Persisted state ([localStorage]) and its loaders *)

(** [localStorage]: texts by key.  [getItem] is the lookup, [null] being
    [None]; [key(i)] for [i] below [length] enumerates the entries in the
    order of [map_to_list].  Its type is [gmap string string]. *)

(** [getItem(key) || fallback], and the truthiness of [getItem(key)]. *)
Definition getItemOr (st : gmap string string) (key fallback : string) : string :=
  match st !! key with
  | Some s => if String.eqb s "" then fallback else s
  | None => fallback
  end.

Definition hasItem (st : gmap string string) (key : string) : bool :=
  match st !! key with
  | Some s => negb (String.eqb s "")
  | None => false
  end.

(** The initializer of the [blacklist] state of the root component:
    [saved ? JSON.parse(saved) : []]. *)
Definition blacklistInitializer (st : gmap string string) : Res Json :=
  if hasItem st "vanguard-blacklist"
  then JSON.parse (getItemOr st "vanguard-blacklist" "")
  else Ok (JArr []).

(** [getStoredLinks] of the achievements hook. *)
Definition getStoredLinks (st : gmap string string) (id : Z) : Res Json :=
  try_catch
    (JSON.parse (getItemOr st ("vanguard-videos-" +:+ pretty id) "{}"))
    (λ _, Ok (JObj [])).

Fixpoint str_drop (n : nat) (s : string) : string :=
  match n, s with
  | O, _ => s
  | S n', String _ s' => str_drop n' s'
  | S _, EmptyString => EmptyString
  end.

Definition META_PREFIX : string := "vanguard-meta-".

(** A [for] loop whose body may throw. *)
Fixpoint foldlM {A B : Type} (f : B → A → Res B) (b : B) (l : list A) : Res B :=
  match l with
  | [] => Ok b
  | x :: l' =>
      match f b x with
      | Ok b' => foldlM f b' l'
      | Throw e => Throw e
      end
  end.

(** One turn of the loop of the [gameMetadata] initializer; the object
    is keyed by the text of the number [parseInt] returns. *)
Definition loadMetadataEntry (meta : gmap string Json) (entry : string * string)
    : Res (gmap string Json) :=
  let '(key, value) := entry in
  if startsWith META_PREFIX key then
    let appId := parseInt (str_drop (String.length META_PREFIX) key) in
    try_catch
      (v ← JSON.parse value; mret (<[number_key appId := v]> meta))
      (λ _, Ok meta)
  else Ok meta.

Definition gameMetadataInitializer (st : gmap string string) : Res (gmap string Json) :=
  foldlM loadMetadataEntry ∅ (map_to_list st).

(** ** The library scan ([scanLibrary] of the root component) *)

(** [`vanguard-meta-${gameId}`] *)
Definition metaKey (gameId : Z) : string := META_PREFIX +:+ pretty gameId.

(** [Set.prototype.add], on a set kept in insertion order. *)
Definition sameValueZero (a b : Json) : bool :=
  match a, b with
  | JNum NaN, JNum NaN => true
  | _, _ => strict_eq a b
  end.

Definition set_add (v : Json) (s : list Json) : list Json :=
  if existsb (sameValueZero v) s then s else s ++ [v].

(** [meta.genres?.forEach(g => newGenres.add(g.description))]: the set
    as the statement leaves it, and whether it threw. *)
Fixpoint addEach (items : list Json) (s : list Json) : list Json * Res () :=
  match items with
  | [] => (s, Ok ())
  | g :: rest =>
      match dot "description" g with
      | Ok d => addEach rest (set_add d s)
      | Throw e => (s, Throw e)
      end
  end.

Definition addGenres (meta : Json) (s : list Json) : list Json * Res () :=
  match dot "genres" meta with
  | Throw e => (s, Throw e)
  | Ok genres =>
      if nullish genres then (s, Ok ())
      else
        match genres with
        | JArr items => addEach items s
        | _ => (s, Throw TypeError)
        end
  end.

(** A scan that has started and not yet ended. *)
Record Job : Type := mkJob {
  targetGames : list Game;
  cursor : nat;
  newGenres : list Json;
  snapshot : gmap string Json
}.

(** The state of the component the scan reads and writes, with the
    scans under way. *)
Record World : Type := mkWorld {
  isScanning : bool;
  availableGenres : list Json;
  gameMetadata : gmap string Json;
  localStorage : gmap string string;
  running : list Job
}.

Section Scan.
(** [axios.get(`${API_BASE}/store/${gameId}`)]: the response body or the
    rejection; and [JSON.stringify]. *)
Variable fetchStore : Z → Res Json.
Variable stringify : Json → string.

(** [processGame] when the entry is cached at the call: nothing is
    awaited, and an exception rejects the promise. *)
Definition processCached (st : gmap string string) (gameId : Z) (s : list Json) : list Json * Res () :=
  match JSON.parse (getItemOr st (metaKey gameId) "") with
  | Ok meta => addGenres meta s
  | Throw e => (s, Throw e)
  end.

(** [processGame] otherwise, once the request has settled: the [try]
    block and its [catch]. *)
Definition processFetched (gameId : Z) (acc : gmap string string * list Json)
    : gmap string string * list Json :=
  let '(st, s) := acc in
  match fetchStore gameId with
  | Ok meta => (<[metaKey gameId := stringify meta]> st, fst (addGenres meta s))
  | Throw _ => (st, s)
  end.

(** One turn of the loop over the chunks: every call of [processGame]
    runs up to its first [await] against the storage as it is, then the
    requests settle.  The result is the storage, the set, and whether
    [Promise.all] rejected. *)
Definition processChunk (chunk : list Game) (st : gmap string string) (s : list Json)
    : gmap string string * list Json * Res () :=
  let hits := List.filter (λ g, hasItem st (metaKey (appid g))) chunk in
  let misses := List.filter (λ g, negb (hasItem st (metaKey (appid g)))) chunk in
  let '(s1, outcome) :=
    foldl (λ (acc : list Json * Res ()) g,
             let '(s', o) := processCached st (appid g) (fst acc) in
             (s', match snd acc with Ok _ => o | Throw e => Throw e end))
          (s, Ok ()) hits in
  let '(st2, s2) := foldl (λ acc g, processFetched (appid g) acc) (st, s1) misses in
  (st2, s2, outcome).

(** The statements after the loop, up to [setIsScanning(false)]. *)
Definition refreshEntry (st : gmap string string) (meta : gmap string Json) (g : Game)
    : Res (gmap string Json) :=
  if hasItem st (metaKey (appid g)) then
    v ← JSON.parse (getItemOr st (metaKey (appid g)) "");
    mret (<[pretty (appid g) := v]> meta)
  else Ok meta.

(** A call of [scanLibrary], up to its loop: the guard on the flag, the
    flag, the copy of the genre set and the targets.  The function the
    scan button holds is the one of the latest render, so the flag it
    reads is the state at the call. *)
Definition scanLibrary_start (games : list Game) (w : World) : World :=
  if isScanning w then w
  else
    let unprofiledGames :=
      List.filter (λ g, negb (hasItem (localStorage w) (metaKey (appid g)))) games in
    let targetGames := take 50 unprofiledGames in
    mkWorld true (availableGenres w) (gameMetadata w) (localStorage w)
      (running w ++ [mkJob targetGames 0 (availableGenres w) (gameMetadata w)]).

(** What happens when scan [j] goes on: one turn of its loop, or, the
    loop being over, the statements after it; and the games
    [processGame] is called with.  A scan that throws is over, with the
    flag as it was. *)
Definition scanLibrary_resume (j : nat) (w : World) : World * list Z :=
  match running w !! j with
  | None => (w, [])
  | Some job =>
      if (cursor job <? length (targetGames job))%nat then
        let chunk := take 5 (drop (cursor job) (targetGames job)) in
        let '(st, s, outcome) := processChunk chunk (localStorage w) (newGenres job) in
        match outcome with
        | Ok _ =>
            (mkWorld (isScanning w) (availableGenres w) (gameMetadata w) st
               (<[j := mkJob (targetGames job) (cursor job + 5) s (snapshot job)]> (running w)),
             appid <$> chunk)
        | Throw _ =>
            (mkWorld (isScanning w) (availableGenres w) (gameMetadata w) st
               (delete j (running w)),
             appid <$> chunk)
        end
      else
        let st := <["vanguard-genres" := stringify (JArr (newGenres job))]> (localStorage w) in
        match foldlM (refreshEntry st) (snapshot job) (targetGames job) with
        | Ok meta =>
            (mkWorld false (newGenres job) meta st (delete j (running w)), [])
        | Throw _ =>
            (mkWorld (isScanning w) (newGenres job) (gameMetadata w) st
               (delete j (running w)), [])
        end
  end.

Inductive Event : Type :=
  | Invoke (games : list Game)
  | Resume (j : nat).

Definition step (w : World) (e : Event) : World * list Z :=
  match e with
  | Invoke games => (scanLibrary_start games w, [])
  | Resume j => scanLibrary_resume j w
  end.

(** The worlds the component can be in: it starts with no scan under
    way and the flag down. *)
Inductive reachable : World → Prop :=
  | reachable_init (genres : list Json) (meta : gmap string Json) (st : gmap string string) :
      reachable (mkWorld false genres meta st [])
  | reachable_step (w : World) (e : Event) :
      reachable w → reachable (fst (step w e)).
End Scan.

(** ** Vocabulary of the specification *)

(** [recentPlaytimeMinutes]: the two-week playtime, 0 when the upstream
    entry has none. *)
Definition recentPlaytimeMinutes (g : Game) : Z := default 0 (playtime_2weeks g).

(** What a status filter value is to keep. *)
Definition keeps (masteredSet blacklist hunterSet : list Z)
    (f : VaultFilter) (g : Game) : Prop :=
  match f with
  | FilterAll => True
  | FilterMastered => appid g ∈ masteredSet
  | FilterBlacklisted => appid g ∈ blacklist
  | FilterActive => 0 < recentPlaytimeMinutes g
  | FilterHunter => appid g ∈ hunterSet
  end.

#[global] Instance keeps_dec m b h f g : Decision (keeps m b h f g).
Proof. destruct f; simpl; apply _. Defined.

(** The hook's filter values among those of the specification. *)
Definition hookFilter (f : HookFilter) : VaultFilter :=
  match f with
  | HookAll => FilterAll
  | HookMastered => FilterMastered
  | HookBlacklisted => FilterBlacklisted
  | HookActive => FilterActive
  end.

(** The player-achievement array of a resolver response that does not
    report a failure. *)
Definition achievementsOf (data : Json) : option (list Json) :=
  let playerstats := qdot "playerstats" (qdot "achievements" data) in
  if strict_eq (qdot "success" playerstats) (JBool false) then None
  else
    match qdot "achievements" playerstats with
    | JArr items => Some items
    | _ => None
    end.

(** An achievement record that is unlocked: [achieved] is the number 1. *)
Definition unlocked (a : Json) : Prop :=
  strict_eq (qdot "achieved" a) (JNum (Fin 1)) = true.

#[global] Instance unlocked_dec a : Decision (unlocked a).
Proof. unfold unlocked. apply _. Defined.

Definition achievedCount (items : list Json) : nat := length (filter unlocked items).

(** The playtime order of the candidate ranking. *)
Definition morePlayed (a b : Game) : Prop := playtime_forever b ≤ playtime_forever a.

(** ** The classifier inline in the root component of src/App.tsx

    The earlier form of the check, kept in that file: fifteen targets
    and one game of a fixed identifier, and two lists that every run
    starts empty. *)

Definition ELDEN_RING : Z := 1245620.

(** The body of the [try] after the response has arrived: whether the
    game is pushed to [mastered], and whether to [hunters]. *)
Definition classify (data : Json) : Res (bool * bool) :=
  achievements ← dot "achievements" data;
  let playerstats := qdot "playerstats" achievements in
  match qdot "achievements" playerstats with
  | JArr items =>
      if negb (strict_eq (qdot "success" playerstats) (JBool false))
         && (0 <? Z.of_nat (length items))
      then
        flags ← mapM (λ a, v ← dot "achieved" a; mret (strict_eq v (JNum (Fin 1)))) items;
        let total := length items in
        let achieved := length (List.filter id flags) in
        if 0 <? Z.of_nat total then
          let r := ratio achieved total in
          mret (Qeq_bool r 1, Qle_bool (1 # 2) r && negb (Qle_bool 1 r))
        else mret (false, false)
      else mret (false, false)
  | _ => mret (false, false)
  end.

Section InlineMastery.
Variable resolve : Z → Res Json.

Definition tryClassify (id : Z) : Res (bool * bool) :=
  data ← resolve id; classify data.

Definition classifyGame (lists : list Z * list Z) (game : Game) : list Z * list Z :=
  match tryClassify (appid game) with
  | Ok (m, h) =>
      (if m : bool then lists.1 ++ [appid game] else lists.1,
       if h : bool then lists.2 ++ [appid game] else lists.2)
  | Throw _ => lists
  end.

Definition inlineTargets (games : list Game) : list Game :=
  let targets := take 15 (sort byPlaytime games) in
  if existsb (λ g, appid g =? ELDEN_RING) targets then targets
  else
    match List.find (λ g, appid g =? ELDEN_RING) games with
    | Some elden => targets ++ [elden]
    | None => targets
    end.

(** One run of the effect: the next [masteredAppIds] and
    [hunterTargets], or [None] when the run returns before setting them. *)
Definition inlineVerifyMastery (games : list Game) : option (list Z * list Z) :=
  if (length games =? 0)%nat then None
  else Some (foldl classifyGame ([], []) (inlineTargets games)).
End InlineMastery.

(** ** The achievements endpoint of the API server
       ([GET /api/achievements/:steamid/:appid]) *)

(** An element of the result of [Promise.allSettled] over the three
    upstream requests: the response body [value.data] of a fulfilled
    request, or the [reason] of a rejected one (an axios error, with
    [response.data] and [message]). *)
Inductive Settled : Type :=
  | Fulfilled (data : Json)
  | Rejected (reason : Json).

Definition emptyPlayerstats : Json :=
  JObj [("playerstats", JObj [("achievements", JArr []); ("success", JBool false)])].

Definition emptySchema : Json :=
  JObj [("game", JObj [("availableGameStats", JObj [("achievements", JArr [])])])].

Definition emptyGlobalStats : Json :=
  JObj [("achievementpercentages", JObj [("achievements", JArr [])])].

Definition privatePlayerstats : Json :=
  JObj [("playerstats", JObj [("success", JBool false); ("error", JStr "Private Profile")])].

(** [r.status === 'fulfilled' ? r.value.data : fallback] *)
Definition fragment (r : Settled) (fallback : Json) : Json :=
  match r with
  | Fulfilled data => data
  | Rejected _ => fallback
  end.

(** The body the handler sends, given the three settled requests. *)
Definition achievementsEndpoint
    (achResponse schemaResponse globalStatsResponse : Settled) : Json :=
  let privateProfile :=
    match achResponse with
    | Rejected reason =>
        let errorReason :=
          js_or (qdot "data" (qdot "response" reason)) (qdot "message" reason) in
        strict_eq (qdot "error" (qdot "playerstats" errorReason))
                  (JStr "Profile is not public")
    | Fulfilled _ => false
    end in
  if privateProfile then
    JObj [ ("achievements", privatePlayerstats);
           ("schema", fragment schemaResponse emptySchema);
           ("globalStats", fragment globalStatsResponse emptyGlobalStats) ]
  else
    JObj [ ("achievements", fragment achResponse emptyPlayerstats);
           ("schema", fragment schemaResponse emptySchema);
           ("globalStats", fragment globalStatsResponse emptyGlobalStats) ].

(** ** The achievements hook ([useAchievements]) *)

(** The hook's state after a fetch. *)
Record AchievementsState (A : Type) : Type := mkState {
  achievements : list A;
  error : option Json;
  loading : bool
}.
Arguments mkState {A} _ _ _.
Arguments achievements {A} _.
Arguments error {A} _.
Arguments loading {A} _.

(** The first test on the response, [res.data?.achievements?.playerstats?.error]:
    the error the hook reports, if it takes that branch. *)
Definition responseError (data : Json) : option Json :=
  let e := qdot "error" (qdot "playerstats" (qdot "achievements" data)) in
  if truthy e then Some e else None.

(** The records the merge reads: a player achievement, a schema entry
    and a global-statistics entry.  The percentage is kept as the value
    the response holds, the merge inspecting its type. *)
Record PlayerAchievement : Type := mkPlayer {
  apiname : string;
  achieved : Z;
  unlocktime : Z
}.

Record SchemaAchievement : Type := mkSchema {
  schema_name : string;
  displayName : option string;
  description : option string;
  icon : option string;
  icongray : option string
}.

Record GlobalAchievement : Type := mkGlobal {
  global_name : string;
  global_percent : Json
}.

(** [AchievementWithLink], the merged record. *)
Record AchievementWithLink : Type := mkMerged {
  m_apiname : string;
  m_achieved : Z;
  m_unlocktime : Z;
  m_name : string;
  m_description : option string;
  m_icon : option string;
  m_icongray : option string;
  percent : JsNum;
  videoUrl : Json
}.

(** [typeof global?.percent === 'number' ? global.percent
     : parseFloat(global?.percent || '0')] *)
Definition mergedPercent (global : option GlobalAchievement) : JsNum :=
  let p := match global with Some ga => global_percent ga | None => JUndefined end in
  match p with
  | JNum n => n
  | _ => parseFloat_any (js_or p (JStr "0"))
  end.

(** [schema?.displayName || pa.apiname] *)
Definition mergedName (schema : option SchemaAchievement) (pa : PlayerAchievement) : string :=
  match schema ≫= displayName with
  | Some n => if String.eqb n "" then apiname pa else n
  | None => apiname pa
  end.

(** The callback of [playerAchievements.map]; reading a property of
    [storedLinks] throws when the stored value is [null]. *)
Definition mergeOne (schemaAchievements : list SchemaAchievement)
    (globalStats : list GlobalAchievement) (storedLinks : Json)
    (pa : PlayerAchievement) : Res AchievementWithLink :=
  let schema := List.find (λ sa, String.eqb (schema_name sa) (apiname pa)) schemaAchievements in
  let global := List.find (λ ga, String.eqb (global_name ga) (apiname pa)) globalStats in
  link ← dot (apiname pa) storedLinks;
  mret (mkMerged (apiname pa) (achieved pa) (unlocktime pa)
          (mergedName schema pa)
          (schema ≫= description) (schema ≫= icon) (schema ≫= icongray)
          (mergedPercent global)
          (js_or link (JStr ""))).

(** The comparator of [merged.sort]. *)
Definition achievementCompare (a b : AchievementWithLink) : comparison :=
  if bool_decide (m_achieved a ≠ m_achieved b)
  then sign (m_achieved a - m_achieved b)
  else num_sign (num_sub (num_or0 (percent b)) (num_or0 (percent a))).

(** Merge and sort, the part of [fetchAchievements] after the arrays
    have been read off the response. *)
Definition mergeAchievements (playerAchievements : list PlayerAchievement)
    (schemaAchievements : list SchemaAchievement)
    (globalStats : list GlobalAchievement) (storedLinks : Json)
    : Res (list AchievementWithLink) :=
  merged ← mapM (mergeOne schemaAchievements globalStats storedLinks) playerAchievements;
  mret (sort achievementCompare merged).

(** The state the hook ends in: the error branch, the merged list, or
    the [catch]. *)
Definition fetchAchievements (data : Json)
    (playerAchievements : list PlayerAchievement)
    (schemaAchievements : list SchemaAchievement)
    (globalStats : list GlobalAchievement) (storedLinks : Json)
    (previous : list AchievementWithLink)
    : AchievementsState AchievementWithLink :=
  match responseError data with
  | Some e => mkState [] (Some e) false
  | None =>
      match mergeAchievements playerAchievements schemaAchievements globalStats storedLinks with
      | Ok merged => mkState merged None false
      | Throw _ => mkState previous (Some (JStr "Failed to load achievements")) false
      end
  end.

(** The order of the numbers that are not [NaN]. *)
Definition num_le (a b : JsNum) : Prop :=
  match a, b with
  | NaN, _ | _, NaN => False
  | NInf, _ | _, PInf => True
  | Fin x, Fin y => (x <= y)%Q
  | _, _ => False
  end.

(** [globalCompletionPercent] as the ordering reads it: the [percent]
    field, a [NaN] counting as 0. *)
Definition percentKey (a : AchievementWithLink) : JsNum := num_or0 (percent a).

(** The order the specification asks of the achievement list: achieved
    state ascending, then completion percentage descending. *)
Definition lockedFirst (a b : AchievementWithLink) : Prop :=
  m_achieved a < m_achieved b
  ∨ (m_achieved a = m_achieved b ∧ num_le (percentKey b) (percentKey a)).

(** A merged record with nothing but the two sort keys. *)
Definition record (achieved : Z) (percent : Z) : AchievementWithLink :=
  mkMerged "" achieved 0 "" None None None (num_of_Z percent) (JStr "").

(** A game lacks a cached facet entry: the storage has no text, or an
    empty one, under its key. *)
Definition uncached (st : gmap string string) (g : Game) : Prop :=
  st !! metaKey (appid g) = None ∨ st !! metaKey (appid g) = Some "".

#[global] Instance uncached_dec st g : Decision (uncached st g).
Proof. unfold uncached. apply _. Defined.

(** The games a scan has called [processGame] with so far. *)
Definition processedBy (job : Job) : list Z :=
  appid <$> take (cursor job) (targetGames job).

(** The reconciliation rule as the specification words it, for every
    game of both lists. *)
Definition reconciled_everywhere (owned recent : list Game) : Prop :=
  ∀ o r, o ∈ owned → r ∈ recent → appid o = appid r →
    ∃ g, g ∈ games_queryFn owned recent ∧ appid g = appid o ∧
         playtime_forever g = Z.max (playtime_forever o) (playtime_forever r) ∧
         playtime_2weeks g = playtime_2weeks r.

(** While a scan is under way the flag is up, there is one scan, and
    its targets are at most fifty. *)
Definition scan_invariant (w : World) : Prop :=
  (running w ≠ [] → isScanning w = true)
  ∧ (length (running w) ≤ 1)%nat
  ∧ ∀ job, job ∈ running w → (length (targetGames job) ≤ 50)%nat.

(** ** Sample values *)

(** A response of the achievements endpoint for a public profile, with
    one achievement per given achieved flag. *)
Definition sampleResponse (flags : list Z) : Json :=
  JObj [("achievements",
    JObj [("playerstats",
      JObj [ ("success", JBool true);
             ("achievements",
               JArr ((λ a, JObj [("apiname", JStr "ACH"); ("achieved", JNum (num_of_Z a))])
                       <$> flags)) ])])].

(** Game 7 has both of its achievements, game 8 one of two, and the
    request for any other game fails. *)
Definition sampleResolve (id : Z) : Res Json :=
  if id =? 7 then Ok (sampleResponse [1; 1])
  else if id =? 8 then Ok (sampleResponse [1; 0])
  else Throw (NetworkError "Network Error").

Definition sampleGames : list Game :=
  [mkGame 8 "H" 50 "" None; mkGame 7 "G" 100 "" None; mkGame 9 "I" 10 "" None].

(** A storage with a corrupt blacklist and one cached facet entry, a
    store endpoint that knows one game, and a stand-in for
    [JSON.stringify] that writes the empty object. *)
Definition sampleStorage : gmap string string :=
  <["vanguard-blacklist" := "{"]> (<[metaKey 7 := "{}"]> ∅).

Definition sampleStore (id : Z) : Res Json :=
  if id =? 8 then Ok (JObj [("genres", JArr [JObj [("id", JStr "1"); ("description", JStr "Action")]])])
  else Throw (NetworkError "Network Error").

Definition sampleStringify (v : Json) : string := "{}".

Definition idleWorld : World := mkWorld false [] ∅ sampleStorage [].

Definition busyWorld : World := scanLibrary_start sampleGames idleWorld.


(** ** The root component, continued *)

(** The [stats] memo.  [toLocaleString] formats the hours with the
    host's locale. *)
Record Stats : Type := mkStats {
  totalHours : string;
  gameCount : nat;
  favoriteGame : string;
  favoriteAppId : option Z
}.

Definition totalPlaytime (games : list Game) : Z :=
  foldl (λ acc g, acc + playtime_forever g) 0 games.

Definition topGame (games : list Game) : option Game :=
  head (sort byPlaytime games).

Section Stats.
Variable toLocaleString : Q → string.

Definition stats (games : list Game) : Stats :=
  mkStats (toLocaleString (inject_Z (totalPlaytime games) / 60))
          (length games)
          (match topGame games with Some g => name g | None => "N/A" end)
          (appid <$> topGame games).
End Stats.

(** [JSON.stringify] on an array of integers. *)
Definition stringifyIds (ids : list Z) : string :=
  "[" +:+ String.concat "," (pretty <$> ids) +:+ "]".

(** The updater of [toggleBlacklist], and the updater with its write to
    the storage. *)
Definition toggleBlacklist (appid : Z) (prev : list Z) : list Z :=
  if includes prev appid then List.filter (λ id, negb (id =? appid)) prev
  else prev ++ [appid].

Definition toggleBlacklist_update (appid : Z) (state : list Z * gmap string string)
    : list Z * gmap string string :=
  let next := toggleBlacklist appid state.1 in
  (next, <["vanguard-blacklist" := stringifyIds next]> state.2).

(** [games.filter(g => !blacklist.includes(g.appid))] *)
Definition pool (games : list Game) (blacklist : list Z) : list Game :=
  List.filter (λ g, negb (includes blacklist (appid g))) games.

Section Discover.
(** [Math.floor(Math.random() * n)] as drawn at the call, and the
    outcome of [sort] under the random comparator
    [() => 0.5 - Math.random()], whose order the language leaves to the
    implementation. *)
Variable randomBelow : nat → Z.
Variable shuffled : list Game → list Game.

(** The next value of the [randomGame] state; [None] is [null]. *)
Definition generateRandomGame (games : list Game) (blacklist : list Z)
    (randomGame : option Game) : option Game :=
  let pool := pool games blacklist in
  if (length pool =? 0)%nat then randomGame
  else
    let i := randomBelow (length pool) in
    if i <? 0 then None else pool !! Z.to_nat i.

(** The next value of the [discoveryQueue] state. *)
Definition generateDiscoveryQueue (games : list Game) (blacklist : list Z) : list Game :=
  take 5 (shuffled (pool games blacklist)).
End Discover.

(** ** The vault hook, continued ([useVault]) *)

(** [Array.prototype.some], [every] and [filter] with a callback that
    may throw: the callback is called in order, up to the first element
    that decides. *)
Fixpoint some {A : Type} (p : A → Res bool) (l : list A) : Res bool :=
  match l with
  | [] => Ok false
  | x :: l' =>
      match p x with
      | Ok true => Ok true
      | Ok false => some p l'
      | Throw e => Throw e
      end
  end.

Fixpoint every {A : Type} (p : A → Res bool) (l : list A) : Res bool :=
  match l with
  | [] => Ok true
  | x :: l' =>
      match p x with
      | Ok true => every p l'
      | Ok false => Ok false
      | Throw e => Throw e
      end
  end.

Fixpoint filterM {A : Type} (p : A → Res bool) (l : list A) : Res (list A) :=
  match l with
  | [] => Ok []
  | x :: l' =>
      match p x with
      | Ok b =>
          match filterM p l' with
          | Ok r => Ok (if b then x :: r else r)
          | Throw e => Throw e
          end
      | Throw e => Throw e
      end
  end.

(** [meta.genres.some((mg: any) => mg.description === sg)]; a value
    that is no array has no [some] to call. *)
Definition hasGenre (genres : Json) (sg : string) : Res bool :=
  match genres with
  | JArr items =>
      some (λ mg, d ← dot "description" mg; mret (strict_eq d (JStr sg))) items
  | _ => Throw TypeError
  end.

(** The callback of the genre filter. *)
Definition genreCallback (selectedGenres : list string)
    (gameMetadata : gmap string Json) (g : Game) : Res bool :=
  let meta := default JUndefined (gameMetadata !! pretty (appid g)) in
  if negb (truthy meta) then Ok false
  else
    let genres := prop "genres" meta in
    if negb (truthy genres) then Ok false
    else every (hasGenre genres) selectedGenres.

(** The statement under [// Filter: Genres]. *)
Definition genreFilter (selectedGenres : list string)
    (gameMetadata : gmap string Json) (result : list Game) : Res (list Game) :=
  if (0 <? length selectedGenres)%nat
  then filterM (genreCallback selectedGenres gameMetadata) result
  else Ok result.

(** [vaultGrouping] *)
Inductive VaultGrouping : Type :=
  | GroupNone
  | GroupAlpha
  | GroupStatus.

Definition upper (c : ascii) : ascii :=
  if (97 <=? code c) && (code c <=? 122)
  then ascii_of_N (Z.to_N (code c - 32)) else c.

(** [g.name.charAt(0).toUpperCase().match(/[A-Z]/) ? ... : '#'] *)
Definition letterOf (g : Game) : string :=
  match name g with
  | String c _ =>
      let u := upper c in
      if (65 <=? code u) && (code u <=? 90) then String u EmptyString else "#"
  | EmptyString => "#"
  end.

Definition statusOf (masteredAppIds : list Z) (g : Game) : string :=
  if includes masteredAppIds (appid g) then "Mastered"
  else if 600 <? playtime_forever g then "Veteran"
  else if 60 <? playtime_forever g then "Deploying"
  else "Unplayed".

(** [if (!groups[k]) groups[k] = []; groups[k].push(g)] on an object
    whose keys are kept in the order they were added. *)
Fixpoint push (k : string) (g : Game) (groups : list (string * list Game))
    : list (string * list Game) :=
  match groups with
  | [] => [(k, [g])]
  | (k', gs) :: rest =>
      if String.eqb k k' then (k', gs ++ [g]) :: rest
      else (k', gs) :: push k g rest
  end.

Definition groupedGames (vaultGrouping : VaultGrouping) (masteredAppIds : list Z)
    (filteredAndSortedGames : list Game) : list (string * list Game) :=
  match vaultGrouping with
  | GroupNone => [("All", filteredAndSortedGames)]
  | GroupAlpha =>
      foldl (λ groups g, push (letterOf g) g groups) [] filteredAndSortedGames
  | GroupStatus =>
      foldl (λ groups g, push (statusOf masteredAppIds g) g groups) []
        filteredAndSortedGames
  end.

(** ** The API server, continued *)

(** A reply, and what a middleware does with a request: it sends a
    reply or hands over to the next handler. *)
Record Reply : Type := mkReply {
  status : Z;
  body : Json
}.

Inductive Outcome : Type :=
  | Sent (r : Reply)
  | Next.

(** [POST /api/config]: the server's key after the request.  The
    handler assigns the key before it logs and answers, and a body that
    cannot be destructured throws before the assignment. *)
Definition postConfig (reqBody : Json) (STEAM_API_KEY : Json) : Json :=
  match dot "apiKey" reqBody with
  | Throw _ => STEAM_API_KEY
  | Ok apiKey => if negb (truthy apiKey) then STEAM_API_KEY else apiKey
  end.

(** The middleware in front of every upstream endpoint. *)
Definition checkApiKey (STEAM_API_KEY : Json) : Outcome :=
  if negb (truthy STEAM_API_KEY)
  then Sent (mkReply 401 (JObj [("error", JStr "Steam API Key not configured")]))
  else Next.

(** [GET /api/health] *)
Definition health (PORT : Json) (STEAM_API_KEY : Json) : Reply :=
  mkReply 200 (JObj [ ("status", JStr "active"); ("port", PORT);
                      ("config", JBool (truthy STEAM_API_KEY)) ]).

(** The requests, as far as the key goes: the configuration request is
    the only one that assigns it. *)
Inductive Request : Type :=
  | PostConfig (reqBody : Json)
  | OtherRequest.

Definition serve (STEAM_API_KEY : Json) (req : Request) : Json :=
  match req with
  | PostConfig reqBody => postConfig reqBody STEAM_API_KEY
  | OtherRequest => STEAM_API_KEY
  end.

(** [GET /api/store/:appid]: the body sent, given the settled upstream
    request ([response.data] or the rejection). *)
Definition storeDefault : Json :=
  JObj [("genres", JArr []); ("categories", JArr []); ("metacritic", JNull)].

Definition storeEndpoint (upstream : Res Json) (appid : string) : Json :=
  let sent : Res Json :=
    responseData ← upstream;
    data ← dot appid responseData;
    success ← dot "success" data;
    if truthy success then
      gameData ← dot "data" data;
      genres ← dot "genres" gameData;
      categories ← dot "categories" gameData;
      metacritic ← dot "metacritic" gameData;
      release_date ← dot "release_date" gameData;
      mret (JObj [ ("genres", js_or genres (JArr []));
                   ("categories", js_or categories (JArr []));
                   ("metacritic", js_or metacritic JNull);
                   ("release_date", js_or release_date JNull) ])
    else mret storeDefault in
  match sent with
  | Ok v => v
  | Throw _ => storeDefault
  end.

(** A cached profile whose [genres], if it has any, is an array without
    [null] entries, as the store endpoint passes it on from upstream. *)
Definition wellFormedProfile (meta : Json) : Prop :=
  truthy meta = true → truthy (prop "genres" meta) = true →
  ∃ items, prop "genres" meta = JArr items ∧ Forall (λ mg, nullish mg = false) items.

(** The game has a cached profile that lists every selected genre. *)
Definition hasGenres (selectedGenres : list string)
    (gameMetadata : gmap string Json) (g : Game) : Prop :=
  ∃ meta items,
    gameMetadata !! pretty (appid g) = Some meta
    ∧ truthy meta = true
    ∧ prop "genres" meta = JArr items
    ∧ ∀ sg, sg ∈ selectedGenres →
        ∃ mg, mg ∈ items ∧ prop "description" mg = JStr sg.

(** A metadata cache with the profile of game 7, which has one genre. *)
Definition sampleMetadata : gmap string Json :=
  {[ "7" := JObj [("genres", JArr [JObj [("id", JStr "1"); ("description", JStr "Action")]])] ]}.

(** The component after a sequence of events. *)
Definition run (fetchStore : Z → Res Json) (stringify : Json → string)
    (w : World) (events : list Event) : World :=
  foldl (λ w e, (step fetchStore stringify w e).1) w events.

(** Every scan under way has all the genres the component shows. *)
Definition genres_invariant (w : World) : Prop :=
  ∀ job, job ∈ running w → availableGenres w `prefix_of` newGenres job.

(** A scan under way on game 8, whose cached profile does not parse. *)
Definition brokenWorld : World :=
  mkWorld true [] ∅ (<[metaKey 8 := "{"]> ∅)
    [mkJob [mkGame 8 "H" 50 "" None] 0 [] ∅].

(** Equality of numbers as values of the model is decidable. *)
#[global] Instance Q_eq_dec : EqDecision Q.
Proof. solve_decision. Defined.

#[global] Instance JsNum_eq_dec : EqDecision JsNum.
Proof. solve_decision. Defined.

(** ** The mastery hook over a session

    The effect of the hook runs at the renders where [games], [steamId]
    or [apiBase] changed.  A pass reads the [masteredAppIds] of the
    render it was started in and sets the state when it ends; nothing
    cancels a pass that is under way when the next one starts. *)
Record MasteryPass : Type := mkPass {
  pass_games : list Game;
  pass_start : list Z
}.

Record MasteryHook : Type := mkMasteryHook {
  hook_masteredAppIds : list Z;
  hook_isValidating : bool;
  hook_passes : list MasteryPass
}.

Inductive HookEvent : Type :=
  | EffectRuns (games : list Game)
  | PassEnds (j : nat).

Section MasterySession.
Variable resolve : Z → Res Json.
Variable steamId : string.

(** The effect runs (the guard, [setIsValidating(true)], the copy of the
    list), or pass [j] reaches its last two statements. *)
Definition hookStep (h : MasteryHook) (e : HookEvent) : MasteryHook :=
  match e with
  | EffectRuns games =>
      if (length games =? 0)%nat || String.eqb steamId "" then h
      else
        mkMasteryHook (hook_masteredAppIds h) true
          (hook_passes h ++ [mkPass games (hook_masteredAppIds h)])
  | PassEnds j =>
      match hook_passes h !! j with
      | Some pass =>
          mkMasteryHook
            (verifyMastery resolve (pass_games pass) steamId (pass_start pass))
            false (delete j (hook_passes h))
      | None => h
      end
  end.

Definition session (h : MasteryHook) (events : list HookEvent) : MasteryHook :=
  foldl hookStep h events.

(** Passes that run one after the other: each ends before the next
    starts. *)
Definition successivePasses (gamesOfPass : list (list Game)) : list HookEvent :=
  gamesOfPass ≫= λ games, [EffectRuns games; PassEnds 0].
End MasterySession.

(** ** The response of the achievements endpoint, as the hook reads it *)

(** The three arrays, lines 131 to 133 of the hook:
    [res.data.achievements?.playerstats?.achievements || []] and its two
    siblings. *)
Definition responseArrays (data : Json) : Res (Json * Json * Json) :=
  achievements ← dot "achievements" data;
  schema ← dot "schema" data;
  globalStats ← dot "globalStats" data;
  mret (js_or (qdot "achievements" (qdot "playerstats" achievements)) (JArr []),
        js_or (qdot "achievements" (qdot "availableGameStats" (qdot "game" schema)))
          (JArr []),
        js_or (qdot "achievements" (qdot "achievementpercentages" globalStats))
          (JArr [])).

(** The typed records stand for entries of these shapes: an object
    with a text, an integer or an optional text under the names the
    merge reads. *)
Definition asText (v : Json) : option string :=
  match v with
  | JStr s => Some s
  | _ => None
  end.

Definition asOptionalText (v : Json) : option (option string) :=
  match v with
  | JUndefined => Some None
  | JStr s => Some (Some s)
  | _ => None
  end.

Definition asInteger (v : Json) : option Z :=
  match v with
  | JNum (Fin q) => if Pos.eqb (Qden q) 1 then Some (Qnum q) else None
  | _ => None
  end.

Definition asPlayer (v : Json) : option PlayerAchievement :=
  match v with
  | JObj _ =>
      n ← asText (prop "apiname" v);
      a ← asInteger (prop "achieved" v);
      u ← asInteger (prop "unlocktime" v);
      Some (mkPlayer n a u)
  | _ => None
  end.

Definition asSchema (v : Json) : option SchemaAchievement :=
  match v with
  | JObj _ =>
      n ← asText (prop "name" v);
      d ← asOptionalText (prop "displayName" v);
      t ← asOptionalText (prop "description" v);
      i ← asOptionalText (prop "icon" v);
      g ← asOptionalText (prop "icongray" v);
      Some (mkSchema n d t i g)
  | _ => None
  end.

Definition asGlobal (v : Json) : option GlobalAchievement :=
  match v with
  | JObj _ =>
      n ← asText (prop "name" v);
      Some (mkGlobal n (prop "percent" v))
  | _ => None
  end.

(** A response whose three arrays are arrays of such entries, and the
    records they stand for. *)
Definition wellFormedResponse (data : Json) (playerAchievements : list PlayerAchievement)
    (schemaAchievements : list SchemaAchievement)
    (globalStats : list GlobalAchievement) : Prop :=
  ∃ ps ss gs,
    responseArrays data = Ok (JArr ps, JArr ss, JArr gs)
    ∧ mapM asPlayer ps = Some playerAchievements
    ∧ mapM asSchema ss = Some schemaAchievements
    ∧ mapM asGlobal gs = Some globalStats.





(** The response of the example of the specification: an unlocked
    achievement of 80 percent, a locked one of 50 and a locked one of
    90, the game having no schema. *)
Definition orderResponse : Json :=
  let player (n : string) (a : Z) :=
    JObj [ ("apiname", JStr n); ("achieved", JNum (num_of_Z a));
           ("unlocktime", JNum (num_of_Z 0)) ] in
  let global (n : string) (p : Z) :=
    JObj [("name", JStr n); ("percent", JNum (num_of_Z p))] in
  JObj [ ("achievements",
          JObj [("playerstats",
            JObj [ ("success", JBool true);
                   ("achievements", JArr [player "A" 1; player "B" 0; player "C" 0]) ])]);
         ("globalStats",
          JObj [("achievementpercentages",
            JObj [("achievements", JArr [global "A" 80; global "B" 50; global "C" 90])])]) ].

Definition orderPlayers : list PlayerAchievement :=
  [mkPlayer "A" 1 0; mkPlayer "B" 0 0; mkPlayer "C" 0 0].

Definition orderGlobals : list GlobalAchievement :=
  [ mkGlobal "A" (JNum (num_of_Z 80)); mkGlobal "B" (JNum (num_of_Z 50));
    mkGlobal "C" (JNum (num_of_Z 90)) ].

(** ** The store route, with its middleware *)

(** [app.get('/api/store/:appid', checkApiKey, handler)]: the reply of
    the middleware while no key is configured, of the handler
    otherwise. *)
Definition storeRoute (STEAM_API_KEY : Json) (upstream : Res Json) (appid : string) : Reply :=
  match checkApiKey STEAM_API_KEY with
  | Sent r => r
  | Next => mkReply 200 (storeEndpoint upstream appid)
  end.

(** A text of ASCII characters only. *)
Definition isAscii (s : string) : Prop :=
  Forall (λ c, code c < 128) (list_ascii_of_string s).
(* ================================================================== *)
(** * Properties *)

(** ** The runtime model on sample inputs *)

Example parseFloat_ex1 : parseFloat "45.25" = Fin (181 # 4). Proof. reflexivity. Qed.
Example parseFloat_ex2 : parseFloat "abc" = NaN. Proof. reflexivity. Qed.
Example parseFloat_ex3 : parseFloat "  -1.5e2xyz" = Fin (-150 # 1). Proof. reflexivity. Qed.
Example parseFloat_ex4 : parseFloat ".5" = Fin (1 # 2). Proof. reflexivity. Qed.
Example parseFloat_ex5 : parseFloat "." = NaN. Proof. reflexivity. Qed.
Example parseFloat_ex6 : parseFloat "5.e1" = Fin (50 # 1). Proof. reflexivity. Qed.
Example parseFloat_ex7 : parseFloat "1e" = Fin (1 # 1). Proof. reflexivity. Qed.
Example parseFloat_ex8 : parseFloat "0" = Fin 0. Proof. reflexivity. Qed.
Example parseFloat_ex9 : parseFloat "-Infinityx" = NInf. Proof. reflexivity. Qed.
Example parseFloat_ex10 : parseFloat "12abc" = Fin (12 # 1). Proof. reflexivity. Qed.
Example toLowerCase_ex : toLowerCase "ELDEN Ring 2" = "elden ring 2". Proof. reflexivity. Qed.
Example includes_ex : str_includes "ring" "elden ring" = true. Proof. reflexivity. Qed.
Example includes_ex2 : str_includes "" "" = true. Proof. reflexivity. Qed.
Example includes_ex3 : str_includes "rinx" "elden ring" = false. Proof. reflexivity. Qed.
Example prop_ex1 : prop "1" (JArr [JNull; JBool true]) = JBool true. Proof. reflexivity. Qed.
Example prop_ex2 : prop "01" (JArr [JNull; JBool true]) = JUndefined. Proof. reflexivity. Qed.
Example prop_ex3 : prop "length" (JStr "abc") = JNum (Fin 3). Proof. reflexivity. Qed.
Example prop_ex4 : prop "a" (JObj [("a", JNull); ("b", JBool true); ("a", JBool false)]) = JBool false.
Proof. reflexivity. Qed.
Example parse_ex1 : JSON.parse "[1, 2,3]" = Ok (JArr [JNum (Fin 1); JNum (Fin 2); JNum (Fin 3)]).
Proof. reflexivity. Qed.
Example parse_ex2 : JSON.parse "{" = Throw SyntaxError. Proof. reflexivity. Qed.
Example parse_ex3 :
  JSON.parse ("{" +:+ quoted "genres" +:+ ": [{" +:+ quoted "id" +:+ ": " +:+ quoted "1" +:+ ", "
              +:+ quoted "description" +:+ ": " +:+ quoted "Action" +:+ "}], "
              +:+ quoted "metacritic" +:+ ": null}")
  = Ok (JObj [("genres", JArr [JObj [("id", JStr "1"); ("description", JStr "Action")]]);
              ("metacritic", JNull)]).
Proof. reflexivity. Qed.
Example parse_ex4 : JSON.parse "" = Throw SyntaxError. Proof. reflexivity. Qed.
Example parse_ex5 : JSON.parse " -12.5e1 " = Ok (JNum (Fin (-125 # 1))). Proof. reflexivity. Qed.
Example parse_ex6 : JSON.parse "01" = Throw SyntaxError. Proof. reflexivity. Qed.
Example parse_ex7 : JSON.parse "[1,]" = Throw SyntaxError. Proof. reflexivity. Qed.
Example parse_ex8 : JSON.parse "[[[[]]],{}]" = Ok (JArr [JArr [JArr [JArr []]]; JObj []]). Proof. reflexivity. Qed.
Example parse_ex9 : JSON.parse "1." = Throw SyntaxError. Proof. reflexivity. Qed.
Example parse_ex10 : JSON.parse "[440,570]x" = Throw SyntaxError. Proof. reflexivity. Qed.
Example parse_ex11 : JSON.parse "undefined" = Throw SyntaxError. Proof. reflexivity. Qed.
Example parseInt_ex1 : parseInt "440" = Some 440. Proof. reflexivity. Qed.
Example parseInt_ex2 : parseInt "12abc" = Some 12. Proof. reflexivity. Qed.
Example parseInt_ex3 : parseInt "abc" = None. Proof. reflexivity. Qed.
Example parseInt_ex4 : parseInt "0x1F" = Some 31. Proof. reflexivity. Qed.
Example number_key_ex : number_key (Some 440) = "440". Proof. reflexivity. Qed.

(** ** Array helpers *)

Lemma findIndex_None {A : Type} (p : A → bool) (l : list A) :
  findIndex p l = None ↔ ∀ x, x ∈ l → p x = false.
Proof.
  induction l as [|x l IH]; simpl.
  - split; [intros _ y Hy; inversion Hy | done].
  - destruct (p x) eqn:Hpx.
    + split; [done|]. intros H. specialize (H x (list_elem_of_here _ _)). congruence.
    + rewrite fmap_None, IH. split.
      * intros H y Hy. apply elem_of_cons in Hy as [->|Hy]; auto.
      * intros H y Hy. apply H. by apply list_elem_of_further.
Qed.

Lemma findIndex_Some {A : Type} (p : A → bool) (l : list A) (i : nat) :
  findIndex p l = Some i →
  ∃ x, l !! i = Some x ∧ p x = true ∧ ∀ y, y ∈ take i l → p y = false.
Proof.
  revert i. induction l as [|x l IH]; intros i; simpl; [done|].
  destruct (p x) eqn:Hpx.
  - intros [= <-]. exists x. split_and!; [done..|]. intros y Hy. inversion Hy.
  - intros Hi. apply fmap_Some in Hi as (j & Hj & ->).
    destruct (IH _ Hj) as (y & Hy & Hpy & Hbefore).
    exists y. split_and!; [done..|].
    intros z Hz. simpl in Hz. apply elem_of_cons in Hz as [->|Hz]; auto.
Qed.

Lemma filter_none {A : Type} (P : A → Prop) `{!∀ x, Decision (P x)} (l : list A) :
  (∀ x, x ∈ l → ¬ P x) → filter P l = [].
Proof.
  induction l as [|x l IH]; intros Hall; [done|].
  rewrite filter_cons_False by (apply Hall; left).
  apply IH. intros y Hy. apply Hall. by right.
Qed.

(** ** The game list *)

Example games_queryFn_ex1 :
  games_queryFn [mkGame 10 "A" 5 "" None] [mkGame 10 "A" 9 "" (Some 3)]
  = [mkGame 10 "A" 5 "" None; mkGame 480 "ELDEN RING COOP" 0 "" (Some 0)].
Proof. vm_compute. reflexivity. Qed.
Example games_queryFn_ex2 :
  games_queryFn [mkGame 480 "Spacewar" 5 "i" None] [mkGame 480 "Spacewar" 9 "" (Some 3)]
  = [mkGame 480 "ELDEN RING COOP" 9 "i" (Some 3)].
Proof. vm_compute. reflexivity. Qed.

Lemma recentGamesMap_lookup (recent : list Game) (k : Z) :
  recentGamesMap recent !! k = last (filter (λ g, appid g = k) recent).
Proof.
  unfold recentGamesMap.
  induction recent as [|x l IH] using rev_ind; [done|].
  rewrite foldl_app, filter_app. simpl.
  destruct (decide (appid x = k)) as [Heq|Hne].
  - rewrite Heq, lookup_insert_eq.
    rewrite filter_cons_True by done. rewrite filter_nil. by rewrite last_snoc.
  - rewrite lookup_insert_ne by done.
    rewrite filter_cons_False by done. rewrite filter_nil, app_nil_r. exact IH.
Qed.

Lemma recentGamesMap_None (recent : list Game) (k : Z) :
  recentGamesMap recent !! k = None ↔ ∀ r, r ∈ recent → appid r ≠ k.
Proof.
  rewrite recentGamesMap_lookup, last_None. split.
  - intros Hnil r Hr Hk.
    assert (r ∈ filter (λ g, appid g = k) recent) as Hin
      by (apply list_elem_of_filter; done).
    rewrite Hnil in Hin. inversion Hin.
  - intros H. by apply filter_none.
Qed.

Lemma recentGamesMap_Some (recent : list Game) (k : Z) (r : Game) :
  recentGamesMap recent !! k = Some r → r ∈ recent ∧ appid r = k.
Proof.
  rewrite recentGamesMap_lookup. intros Hlast.
  apply last_Some_elem_of in Hlast.
  by apply list_elem_of_filter in Hlast as [? ?].
Qed.

Lemma rename_spacewar_appid g : appid (rename_spacewar g) = appid g.
Proof. unfold rename_spacewar. by case_bool_decide. Qed.

Lemma rename_spacewar_other g : appid g ≠ SPACEWAR → rename_spacewar g = g.
Proof. unfold rename_spacewar. by case_bool_decide. Qed.

Lemma rename_spacewar_others (l : list Game) :
  (∀ g, g ∈ l → appid g ≠ SPACEWAR) → rename_spacewar <$> l = l.
Proof.
  induction l as [|x l IH]; intros H; simpl; [done|].
  rewrite rename_spacewar_other by (apply H; left).
  f_equal. apply IH. intros g Hg. apply H. by right.
Qed.

Lemma filter_spacewar_others (l : list Game) :
  (∀ g, g ∈ l → appid g ≠ SPACEWAR) →
  filter (λ g, appid g = SPACEWAR) l = [].
Proof.
  intros H. by apply filter_none.
Qed.

(** When the owned list has no entry for the pseudo-game, the result is
    the owned list followed by one synthesized entry. *)
Lemma games_queryFn_absent (owned recent : list Game) :
  (∀ o, o ∈ owned → appid o ≠ SPACEWAR) →
  games_queryFn owned recent =
    owned ++
    [ mkGame SPACEWAR SPACEWAR_NAME
        (or0 (playtime_forever <$> recentGamesMap recent !! SPACEWAR)) ""
        (Some (or0 (recentGamesMap recent !! SPACEWAR ≫= playtime_2weeks))) ].
Proof.
  intros Habs. unfold games_queryFn.
  assert (findIndex (λ g, bool_decide (appid g = SPACEWAR)) owned = None) as ->.
  { apply findIndex_None. intros x Hx. apply bool_decide_eq_false. by apply Habs. }
  rewrite fmap_app.
  rewrite rename_spacewar_others by done. reflexivity.
Qed.

(** When the owned list has an entry for the pseudo-game, only the first
    such entry is touched. *)
Lemma games_queryFn_present (owned recent : list Game) (i : nat) :
  findIndex (λ g, bool_decide (appid g = SPACEWAR)) owned = Some i →
  games_queryFn owned recent =
    rename_spacewar <$>
      match recentGamesMap recent !! SPACEWAR with
      | Some r => alter (sync_spacewar r) i owned
      | None => owned
      end.
Proof. intros Hi. unfold games_queryFn. rewrite Hi. reflexivity. Qed.

Lemma NoDup_appid_index (l : list Game) (i j : nat) (x y : Game) :
  NoDup (appid <$> l) → l !! i = Some x → l !! j = Some y →
  appid x = appid y → i = j.
Proof.
  intros Hnd Hi Hj Hxy.
  eapply NoDup_lookup; [exact Hnd| |].
  - rewrite list_lookup_fmap, Hi. reflexivity.
  - rewrite list_lookup_fmap, Hj. simpl. by rewrite Hxy.
Qed.

Lemma NoDup_appid_unique (l : list Game) (x y : Game) :
  NoDup (appid <$> l) → x ∈ l → y ∈ l → appid x = appid y → x = y.
Proof.
  intros Hnd Hx Hy Hxy.
  apply list_elem_of_lookup in Hx as [i Hi].
  apply list_elem_of_lookup in Hy as [j Hj].
  assert (i = j) as -> by eauto using NoDup_appid_index.
  congruence.
Qed.

Lemma recentGamesMap_unique (recent : list Game) (r : Game) :
  NoDup (appid <$> recent) → r ∈ recent →
  recentGamesMap recent !! appid r = Some r.
Proof.
  intros Hnd Hr.
  destruct (recentGamesMap recent !! appid r) as [r'|] eqn:Hlk.
  - apply recentGamesMap_Some in Hlk as [Hr' Heq].
    f_equal. eauto using NoDup_appid_unique.
  - rewrite recentGamesMap_None in Hlk. by destruct (Hlk r Hr).
Qed.

Lemma filter_appid_fmap_rename (id : Z) (l : list Game) :
  filter (λ g, appid g = id) (rename_spacewar <$> l) =
  rename_spacewar <$> filter (λ g, appid g = id) l.
Proof.
  induction l as [|x l IH]; [done|]. rewrite fmap_cons.
  destruct (decide (appid x = id)) as [Hx|Hx].
  - rewrite !filter_cons_True by (by rewrite ?rename_spacewar_appid).
    by rewrite fmap_cons, IH.
  - rewrite !filter_cons_False by (by rewrite ?rename_spacewar_appid). exact IH.
Qed.

Lemma filter_appid_alter (id : Z) (f : Game → Game) (i : nat) (l : list Game) :
  (∀ g, appid (f g) = appid g) →
  (∀ g, l !! i = Some g → appid g ≠ id) →
  filter (λ g, appid g = id) (alter f i l) = filter (λ g, appid g = id) l.
Proof.
  intros Hf. revert i. induction l as [|x l IH]; intros i Hi; [done|].
  destruct i as [|i]; simpl.
  - specialize (Hi x eq_refl).
    rewrite !filter_cons_False by (by rewrite ?Hf). done.
  - destruct (decide (appid x = id)).
    + rewrite !filter_cons_True by done. f_equal. apply IH. intros g Hg. by apply Hi.
    + rewrite !filter_cons_False by done. apply IH. intros g Hg. by apply Hi.
Qed.

(** Every game other than the pseudo-game is passed through as the
    owned-games response has it. *)
Lemma games_queryFn_others (owned recent : list Game) (id : Z) :
  id ≠ SPACEWAR →
  filter (λ g, appid g = id) (games_queryFn owned recent) =
  filter (λ g, appid g = id) owned.
Proof.
  intros Hid.
  assert (∀ l : list Game, rename_spacewar <$> filter (λ g, appid g = id) l
               = filter (λ g, appid g = id) l) as Hren.
  { intros l. apply rename_spacewar_others. intros g Hg.
    apply list_elem_of_filter in Hg as [-> _]. done. }
  destruct (findIndex (λ g, bool_decide (appid g = SPACEWAR)) owned) as [i|] eqn:Hi.
  - rewrite (games_queryFn_present _ _ _ Hi), filter_appid_fmap_rename, Hren.
    destruct (recentGamesMap recent !! SPACEWAR) as [r|]; [|done].
    apply filter_appid_alter; [done|].
    intros g Hg. apply findIndex_Some in Hi as (x & Hx & Hpx & _).
    rewrite Hx in Hg. injection Hg as <-. apply bool_decide_eq_true in Hpx. congruence.
  - rewrite games_queryFn_absent.
    + rewrite filter_app, filter_cons_False by (simpl; congruence).
      by rewrite filter_nil, app_nil_r.
    + intros o Ho. rewrite findIndex_None in Hi. specialize (Hi o Ho).
      by apply bool_decide_eq_false in Hi.
Qed.

Lemma filter_appid_alter_unique (f : Game → Game) (l : list Game) (i : nat) (o : Game) :
  (∀ g, appid (f g) = appid g) →
  NoDup (appid <$> l) → l !! i = Some o →
  filter (λ g, appid g = appid o) (alter f i l) = [f o].
Proof.
  intros Hf. revert i. induction l as [|x l IH]; intros i Hnd Hi; [done|].
  rewrite fmap_cons in Hnd. apply NoDup_cons in Hnd as [Hx Hnd].
  destruct i as [|i]; simpl in *.
  - injection Hi as ->. rewrite filter_cons_True by apply Hf.
    f_equal. apply filter_none. intros y Hy Heq. apply Hx.
    rewrite <- Heq. by apply list_elem_of_fmap_2.
  - rewrite filter_cons_False; [by apply IH|].
    intros Heq. apply Hx. rewrite Heq.
    apply list_elem_of_fmap_2. by eapply list_elem_of_lookup_2.
Qed.

(** C1, counterexample: a game with identifier 10 that is owned with 5
    minutes and recently played with 9 minutes in total and 3 in the last
    two weeks keeps its owned values; the maximum rule does not apply
    to it. *)
Lemma reconciliation_not_general :
  games_queryFn [mkGame 10 "A" 5 "" None] [mkGame 10 "A" 9 "" (Some 3)]
    = [mkGame 10 "A" 5 "" None; mkGame 480 "ELDEN RING COOP" 0 "" (Some 0)]
  ∧ ¬ reconciled_everywhere [mkGame 10 "A" 5 "" None] [mkGame 10 "A" 9 "" (Some 3)].
Proof.
  split; [by vm_compute|].
  intros H.
  destruct (H (mkGame 10 "A" 5 "" None) (mkGame 10 "A" 9 "" (Some 3)))
    as (g & Hg & _ & Hpf & _); [by left | by left | done |].
  vm_compute in Hg.
  apply elem_of_cons in Hg as [->|Hg]; [simpl in Hpf; lia|].
  apply list_elem_of_singleton in Hg as ->. simpl in Hpf. lia.
Qed.

(** C1, as amended: the reconciliation applies to the pseudo-game 480
    alone.  When both lists (each keyed by game identifier) have an entry
    for it, the one aggregated entry for 480 carries the maximum of the
    two totals and the recent entry's two-week playtime; the entries of
    every other identifier are exactly the owned ones, unchanged. *)
Theorem reconciliation_spacewar_only (owned recent : list Game) (o r : Game) :
  NoDup (appid <$> owned) → NoDup (appid <$> recent) →
  o ∈ owned → r ∈ recent → appid o = SPACEWAR → appid r = SPACEWAR →
  filter (λ g, appid g = SPACEWAR) (games_queryFn owned recent)
    = [ mkGame SPACEWAR SPACEWAR_NAME
          (Z.max (playtime_forever o) (playtime_forever r))
          (img_icon_url o) (playtime_2weeks r) ]
  ∧ ∀ id, id ≠ SPACEWAR →
      filter (λ g, appid g = id) (games_queryFn owned recent)
      = filter (λ g, appid g = id) owned.
Proof.
  intros Hndo Hndr Ho Hr Hoid Hrid. split; [|intros; by apply games_queryFn_others].
  destruct (findIndex (λ g, bool_decide (appid g = SPACEWAR)) owned) as [i|] eqn:Hi.
  - rewrite (games_queryFn_present _ _ _ Hi).
    pose proof (recentGamesMap_unique _ _ Hndr Hr) as Hlk.
    rewrite Hrid in Hlk. rewrite Hlk.
    apply findIndex_Some in Hi as (x & Hx & Hpx & _).
    apply bool_decide_eq_true in Hpx.
    assert (x = o) as ->.
    { apply (NoDup_appid_unique owned); [done| |done|congruence].
      by eapply list_elem_of_lookup_2. }
    rewrite filter_appid_fmap_rename, <- Hoid.
    rewrite (filter_appid_alter_unique (sync_spacewar r) owned i o); [|done..].
    simpl. unfold rename_spacewar. simpl. rewrite Hoid.
    rewrite bool_decide_eq_true_2 by done.
    unfold set_name, sync_spacewar, set_playtime_2weeks, set_playtime_forever. simpl.
    by rewrite Hoid.
  - rewrite findIndex_None in Hi. specialize (Hi o Ho).
    apply bool_decide_eq_false in Hi. done.
Qed.

Lemma reconciliation_spacewar_only_witness :
  filter (λ g, appid g = SPACEWAR)
    (games_queryFn [mkGame 480 "Spacewar" 5 "i" None; mkGame 10 "A" 5 "" None]
                   [mkGame 10 "A" 9 "" (Some 3); mkGame 480 "Spacewar" 9 "" (Some 3)])
  = [mkGame 480 "ELDEN RING COOP" 9 "i" (Some 3)].
Proof.
  refine (proj1 (reconciliation_spacewar_only
    [mkGame 480 "Spacewar" 5 "i" None; mkGame 10 "A" 5 "" None]
    [mkGame 10 "A" 9 "" (Some 3); mkGame 480 "Spacewar" 9 "" (Some 3)]
    (mkGame 480 "Spacewar" 5 "i" None) (mkGame 480 "Spacewar" 9 "" (Some 3))
    _ _ _ _ _ _)).
  - apply (bool_decide_unpack _). vm_compute. exact I.
  - apply (bool_decide_unpack _). vm_compute. exact I.
  - apply (bool_decide_unpack _). vm_compute. exact I.
  - apply (bool_decide_unpack _). vm_compute. exact I.
  - reflexivity.
  - reflexivity.
Defined.

(** C8: when the recently-played list has the pseudo-game 480 with a
    total playtime of 42 and the owned list does not have it, the
    aggregated list has exactly one entry for 480; its total playtime is
    42 and its name is the override. *)
Theorem spacewar_synthesized_from_recent (owned recent : list Game) :
  (∀ o, o ∈ owned → appid o ≠ SPACEWAR) →
  (∃ r, r ∈ recent ∧ appid r = SPACEWAR) →
  (∀ r, r ∈ recent → appid r = SPACEWAR → playtime_forever r = 42) →
  ∃ g, filter (λ g, appid g = SPACEWAR) (games_queryFn owned recent) = [g]
       ∧ playtime_forever g = 42 ∧ name g = SPACEWAR_NAME.
Proof.
  intros Habs (r0 & Hr0 & Hid0) H42.
  rewrite games_queryFn_absent by done.
  destruct (recentGamesMap recent !! SPACEWAR) as [r|] eqn:Hlk.
  - apply recentGamesMap_Some in Hlk as [Hr Hid].
    eexists. split.
    + rewrite filter_app, filter_spacewar_others by done.
      rewrite filter_cons_True by done. by rewrite filter_nil.
    + simpl. split; [by apply H42|reflexivity].
  - rewrite recentGamesMap_None in Hlk. by destruct (Hlk r0 Hr0).
Qed.

Lemma spacewar_synthesized_from_recent_witness :
  ∃ g, filter (λ g, appid g = SPACEWAR)
         (games_queryFn [mkGame 10 "A" 5 "" None]
                        [mkGame 480 "Spacewar" 42 "" (Some 7)]) = [g]
       ∧ playtime_forever g = 42 ∧ name g = SPACEWAR_NAME.
Proof.
  apply (spacewar_synthesized_from_recent
           [mkGame 10 "A" 5 "" None] [mkGame 480 "Spacewar" 42 "" (Some 7)]).
  - intros o Ho. apply list_elem_of_singleton in Ho as ->. by vm_compute.
  - exists (mkGame 480 "Spacewar" 42 "" (Some 7)). split; [by left|reflexivity].
  - intros r Hr _. apply list_elem_of_singleton in Hr as ->. reflexivity.
Defined.

(** C10: the aggregated list always has an entry with identifier 480
    named ['ELDEN RING COOP'].  When the owned list has none, one entry is
    appended whatever the recently-played list holds, and when that list
    has none either, the appended entry has a total playtime of 0 and a
    two-week playtime of 0. *)
Theorem spacewar_always_listed (owned recent : list Game) :
  (∃ g, g ∈ games_queryFn owned recent ∧ appid g = SPACEWAR ∧ name g = SPACEWAR_NAME)
  ∧ ((∀ o, o ∈ owned → appid o ≠ SPACEWAR) →
       (∃ g, games_queryFn owned recent = owned ++ [g]
             ∧ appid g = SPACEWAR ∧ name g = SPACEWAR_NAME)
       ∧ ((∀ r, r ∈ recent → appid r ≠ SPACEWAR) →
            games_queryFn owned recent =
              owned ++ [mkGame 480 "ELDEN RING COOP" 0 "" (Some 0)])).
Proof.
  split.
  - destruct (findIndex (λ g, bool_decide (appid g = SPACEWAR)) owned) as [i|] eqn:Hi.
    + rewrite (games_queryFn_present _ _ _ Hi).
      apply findIndex_Some in Hi as (x & Hx & Hpx & _).
      apply bool_decide_eq_true in Hpx.
      assert (∀ y, appid y = SPACEWAR →
                ∃ g, g = rename_spacewar y ∧ appid g = SPACEWAR ∧ name g = SPACEWAR_NAME)
        as Hren.
      { intros y Hy. eexists. split; [done|]. unfold rename_spacewar.
        by rewrite bool_decide_eq_true_2. }
      destruct (recentGamesMap recent !! SPACEWAR) as [r|].
      * destruct (Hren (sync_spacewar r x) Hpx) as (g & -> & Hg).
        eexists. split; [|exact Hg].
        apply list_elem_of_fmap_2, list_elem_of_lookup. exists i.
        by rewrite list_lookup_alter_eq, Hx.
      * destruct (Hren x Hpx) as (g & -> & Hg).
        eexists. split; [|exact Hg].
        apply list_elem_of_fmap_2. by eapply list_elem_of_lookup_2.
    + rewrite findIndex_None in Hi. rewrite games_queryFn_absent.
      * eexists. split; [apply elem_of_app; right; by left|done].
      * intros o Ho. specialize (Hi o Ho). by apply bool_decide_eq_false in Hi.
  - intros Habs. rewrite games_queryFn_absent by done. split.
    + eexists. split; [reflexivity|done].
    + intros Hrec. apply recentGamesMap_None in Hrec. by rewrite Hrec.
Qed.

Lemma spacewar_always_listed_witness :
  games_queryFn [mkGame 10 "A" 5 "" None] [mkGame 10 "A" 9 "" (Some 3)]
  = [mkGame 10 "A" 5 "" None] ++ [mkGame 480 "ELDEN RING COOP" 0 "" (Some 0)].
Proof.
  refine (proj2 (proj2 (spacewar_always_listed
            [mkGame 10 "A" 5 "" None] [mkGame 10 "A" 9 "" (Some 3)]) _) _).
  - intros o Ho. apply list_elem_of_singleton in Ho as ->. by vm_compute.
  - intros r Hr. apply list_elem_of_singleton in Hr as ->. by vm_compute.
Defined.

(** ** Sorting *)

Section SortFacts.
Context {A : Type} (cmp : A → A → comparison).

Lemma sort_insert_Permutation (x : A) (l : list A) :
  sort_insert cmp x l ≡ₚ x :: l.
Proof.
  induction l as [|y l IH]; simpl; [done|].
  destruct (cmp x y); try done.
  rewrite IH. apply Permutation_swap.
Qed.

Lemma sort_Permutation (l : list A) : sort cmp l ≡ₚ l.
Proof.
  induction l as [|x l IH]; simpl; [done|].
  by rewrite sort_insert_Permutation, IH.
Qed.

Lemma sort_length (l : list A) : length (sort cmp l) = length l.
Proof. apply Permutation_length, sort_Permutation. Qed.

Lemma sort_elem_of (x : A) (l : list A) : x ∈ sort cmp l ↔ x ∈ l.
Proof. by rewrite sort_Permutation. Qed.

Hypothesis before_total : ∀ a b, cmp a b = Gt → before cmp b a.
Hypothesis before_trans : ∀ a b c, before cmp a b → before cmp b c → before cmp a c.

Lemma sort_insert_sorted (x : A) (l : list A) :
  StronglySorted (before cmp) l → StronglySorted (before cmp) (sort_insert cmp x l).
Proof.
  induction 1 as [|y l Hsorted IH Hall]; simpl.
  - repeat constructor.
  - destruct (cmp x y) eqn:Hxy.
    + constructor; [by constructor|].
      assert (before cmp x y) as Hb by (unfold before; congruence).
      constructor; [done|]. eapply Forall_impl; [exact Hall|]. eauto.
    + constructor; [by constructor|].
      assert (before cmp x y) as Hb by (unfold before; congruence).
      constructor; [done|]. eapply Forall_impl; [exact Hall|]. eauto.
    + constructor; [done|].
      rewrite sort_insert_Permutation. constructor; [by apply before_total|done].
Qed.

Lemma sort_sorted (l : list A) : StronglySorted (before cmp) (sort cmp l).
Proof.
  induction l as [|x l IH]; simpl; [constructor|]. by apply sort_insert_sorted.
Qed.
End SortFacts.

(** ** The vault view *)

Lemma includes_elem_of (l : list Z) (x : Z) : includes l x = true ↔ x ∈ l.
Proof.
  unfold includes. rewrite existsb_exists. split.
  - intros (y & Hy & Heq). apply Z.eqb_eq in Heq as ->. by apply list_elem_of_In.
  - intros Hx. exists x. split; [by apply list_elem_of_In|apply Z.eqb_refl].
Qed.

Lemma filter_reflect {A : Type} (p : A → bool) (P : A → Prop)
    `{!∀ x, Decision (P x)} (l : list A) :
  (∀ x, p x = true ↔ P x) → List.filter p l = filter P l.
Proof.
  intros Hp. induction l as [|x l IH]; [done|]. simpl.
  destruct (p x) eqn:Hpx.
  - rewrite filter_cons_True by (by apply Hp). by rewrite IH.
  - rewrite filter_cons_False; [done|]. rewrite <- Hp. congruence.
Qed.

Lemma filter_True {A : Type} (l : list A) : filter (λ _, True) l = l.
Proof.
  induction l as [|x l IH]; [done|]. rewrite filter_cons_True by done. by rewrite IH.
Qed.

Lemma statusFilter_filter (f : VaultFilter) (mastered blacklist hunters : list Z)
    (result : list Game) :
  statusFilter f mastered blacklist hunters result
  = filter (keeps mastered blacklist hunters f) result.
Proof.
  destruct f; simpl.
  - symmetry. apply (filter_True result).
  - apply filter_reflect. intros g. apply includes_elem_of.
  - apply filter_reflect. intros g. apply includes_elem_of.
  - apply filter_reflect. intros g. apply Z.ltb_lt.
  - apply filter_reflect. intros g. apply includes_elem_of.
Qed.

(** C2: the status filter of the vault keeps, in their order, exactly
    the games its value names: every game for 'all', the games whose
    identifier is in the mastered list for 'mastered', in the blacklist
    for 'blacklisted', in the hunter list for 'hunter', and the games with
    a positive two-week playtime for 'active'.  The root component's
    filter has the five values; the [useVault] hook has the first four
    and does the same on them. *)
Theorem status_filter_keeps_exactly :
  (∀ (f : VaultFilter) (masteredSet blacklist hunterSet : list Z) (games : list Game),
     statusFilter f masteredSet blacklist hunterSet games
     = filter (keeps masteredSet blacklist hunterSet f) games)
  ∧ (∀ (f : HookFilter) (masteredSet blacklist hunterSet : list Z) (games : list Game),
       useVault_statusFilter f masteredSet blacklist games
       = filter (keeps masteredSet blacklist hunterSet (hookFilter f)) games).
Proof.
  split.
  - apply statusFilter_filter.
  - intros f m b h games. rewrite <- statusFilter_filter. by destruct f.
Qed.

(** The whole memo of the root component: a game is listed exactly when
    it is in the library, its name contains the query, and the status
    filter keeps it. *)
Lemma filteredAndSortedGames_elem_of (localeCompare : string → string → comparison)
    (games : list Game) (q : string) (f : VaultFilter) (s : VaultSort)
    (mastered blacklist hunters : list Z) (g : Game) :
  g ∈ filteredAndSortedGames localeCompare games q f s mastered blacklist hunters
  ↔ g ∈ games
    ∧ str_includes (toLowerCase q) (toLowerCase (name g)) = true
    ∧ keeps mastered blacklist hunters f g.
Proof.
  unfold filteredAndSortedGames, textFilter.
  rewrite sort_elem_of, statusFilter_filter, list_elem_of_filter.
  rewrite list_elem_of_In, filter_In, <- list_elem_of_In. tauto.
Qed.

(** ** The mastery hook *)

Lemma ratio_one (a t : nat) :
  (0 < t)%nat → Qeq_bool (ratio a t) 1 = true ↔ a = t.
Proof.
  intros Ht. rewrite Qeq_bool_iff. unfold ratio.
  assert (¬ (inject_Z (Z.of_nat t) == 0)%Q) as Hnz.
  { unfold Qeq. simpl. lia. }
  split.
  - intros Heq.
    assert (inject_Z (Z.of_nat a) == inject_Z (Z.of_nat t))%Q as Hat.
    { rewrite <- (Qmult_div_r (inject_Z (Z.of_nat a)) (inject_Z (Z.of_nat t))) by done.
      rewrite Heq. apply Qmult_1_r. }
    unfold Qeq in Hat. simpl in Hat. lia.
  - intros ->. unfold Qdiv. by apply Qmult_inv_r.
Qed.

Lemma qdot_prop (k : string) (v : Json) : nullish v = false → qdot k v = prop k v.
Proof. unfold qdot. by intros ->. Qed.

Lemma dot_prop (k : string) (v : Json) : nullish v = false → dot k v = Ok (prop k v).
Proof. unfold dot. by intros ->. Qed.

Lemma unlocked_prop (a : Json) :
  nullish a = false →
  strict_eq (prop "achieved" a) (JNum (Fin 1)) = bool_decide (unlocked a).
Proof.
  intros Ha. destruct (strict_eq _ _) eqn:Heq; symmetry.
  - apply bool_decide_eq_true_2. unfold unlocked. by rewrite qdot_prop.
  - apply bool_decide_eq_false_2. unfold unlocked. rewrite qdot_prop by done. congruence.
Qed.

Lemma mapM_achieved (items : list Json) :
  Forall (λ a, nullish a = false) items →
  mapM (M := Res) (λ a, v ← dot "achieved" a; mret (strict_eq v (JNum (Fin 1)))) items
  = Ok ((λ a, bool_decide (unlocked a)) <$> items).
Proof.
  induction 1 as [|a items Ha _ IH]; [done|].
  simpl. rewrite IH, dot_prop by done. simpl.
  unfold mret, res_ret. by rewrite unlocked_prop.
Qed.

Lemma filter_id_flags (items : list Json) :
  length (List.filter id ((λ a, bool_decide (unlocked a)) <$> items))
  = achievedCount items.
Proof.
  unfold achievedCount. induction items as [|a items IH]; [done|].
  rewrite fmap_cons. simpl. destruct (decide (unlocked a)) as [Hu|Hu].
  - rewrite bool_decide_eq_true_2, filter_cons_True by done. simpl. by rewrite IH.
  - rewrite bool_decide_eq_false_2, filter_cons_False by done. exact IH.
Qed.

(** The push condition on a well-formed response: some achievement, and
    all of them unlocked. *)
Lemma fullyAchieved_counts (data : Json) (items : list Json) :
  achievementsOf data = Some items →
  Forall (λ a, nullish a = false) items →
  fullyAchieved data
  = Ok (bool_decide ((0 < length items)%nat ∧ achievedCount items = length items)).
Proof.
  unfold achievementsOf, fullyAchieved. intros Hach Hwf.
  destruct (nullish data) eqn:Hnull.
  { destruct data; simpl in Hnull; try done; by vm_compute in Hach. }
  rewrite (qdot_prop "achievements" data) in Hach by done.
  rewrite dot_prop by done. simpl.
  destruct (strict_eq _ (JBool false)) eqn:Hsucc; [done|].
  destruct (qdot "achievements" _) eqn:Harr; try done.
  injection Hach as ->. simpl.
  destruct (decide (items = [])) as [->|Hne0]; [done|].
  assert ((0 < length items)%nat) as Hlen by (destruct items; [done|simpl; lia]).
  assert ((0 <? Z.of_nat (length items)) = true) as -> by (apply Z.ltb_lt; lia).
  rewrite mapM_achieved by done.
  unfold mbind, res_bind, mret, res_ret. f_equal.
  rewrite filter_id_flags. rewrite andb_true_l.
  destruct (decide (achievedCount items = length items)) as [Heq|Hne].
  - rewrite bool_decide_eq_true_2 by done. by apply ratio_one.
  - rewrite bool_decide_eq_false_2 by tauto.
    apply not_true_is_false. by rewrite ratio_one.
Qed.

(** Without a reported achievement array, or with an empty one, the
    push condition is false. *)
Lemma fullyAchieved_none (data : Json) :
  achievementsOf data = None ∨ achievementsOf data = Some [] →
  fullyAchieved data = Ok false ∨ ∃ e, fullyAchieved data = Throw e.
Proof.
  unfold achievementsOf, fullyAchieved.
  destruct (nullish data) eqn:Hnull.
  { right. unfold dot. rewrite Hnull. by eexists. }
  rewrite (qdot_prop "achievements" data), dot_prop by done. simpl.
  intros H. left.
  destruct (strict_eq _ (JBool false)) eqn:Hsucc; simpl.
  - by destruct (qdot "achievements" _).
  - destruct (qdot "achievements" _) as [| | | | |items|] eqn:Harr; try done.
    destruct H as [H|H]; [done|]. by injection H as ->.
Qed.

Lemma mapM_achieved_ok (items : list Json) (flags : list bool) :
  mapM (M := Res) (λ a, v ← dot "achieved" a; mret (strict_eq v (JNum (Fin 1)))) items
  = Ok flags →
  Forall (λ a, nullish a = false) items.
Proof.
  revert flags. induction items as [|a items IH]; intros flags H; [constructor|].
  simpl in H. destruct (nullish a) eqn:Ha.
  { unfold dot in H. by rewrite Ha in H. }
  constructor; [done|].
  destruct (mapM _ items) as [k|e] eqn:Hk; [by eapply IH|].
  by destruct (dot "achieved" a).
Qed.

(** What the response of a pushed game holds: some achievement, and
    every one of them unlocked. *)
Lemma fullyAchieved_true (data : Json) :
  fullyAchieved data = Ok true →
  ∃ items, achievementsOf data = Some items
           ∧ Forall (λ a, nullish a = false) items
           ∧ (0 < length items)%nat
           ∧ achievedCount items = length items.
Proof.
  intros Hok.
  assert (nullish data = false) as Hnull.
  { destruct (nullish data) eqn:Hn; [|done].
    unfold fullyAchieved, dot in Hok. by rewrite Hn in Hok. }
  assert (∃ items, achievementsOf data = Some items
                   ∧ Forall (λ a, nullish a = false) items) as (items & Hach & Hwf).
  { unfold fullyAchieved in Hok. unfold achievementsOf.
    rewrite (qdot_prop "achievements" data) by done.
    rewrite dot_prop in Hok by done. simpl in Hok.
    destruct (qdot "achievements" _) as [| | | | |items|]; try done.
    destruct (strict_eq _ (JBool false)); [done|]. simpl in Hok.
    destruct (0 <? _); [|done].
    destruct (mapM _ items) as [flags|e] eqn:Hflags; [|done].
    exists items. split; [done|]. by eapply mapM_achieved_ok. }
  exists items. rewrite (fullyAchieved_counts _ _ Hach Hwf) in Hok.
  injection Hok as Hok. apply bool_decide_eq_true_1 in Hok. by destruct Hok.
Qed.

Section MasteryFacts.
Variable resolve : Z → Res Json.

Lemma checkGame_keeps (mastered : list Z) (game : Game) (x : Z) :
  x ∈ mastered → x ∈ checkGame resolve mastered game.
Proof.
  intros Hx. unfold checkGame.
  destruct (tryMastered _ _) as [[|]|]; try done.
  destruct (includes mastered (appid game)); [done|].
  apply elem_of_app. by left.
Qed.

Lemma foldl_checkGame_keeps (l : list Game) (mastered : list Z) (x : Z) :
  x ∈ mastered → x ∈ foldl (checkGame resolve) mastered l.
Proof.
  revert mastered. induction l as [|g l IH]; intros mastered Hx; [done|].
  simpl. apply IH. by apply checkGame_keeps.
Qed.

Lemma checkGame_adds (mastered : list Z) (game : Game) :
  tryMastered resolve (appid game) = Ok true →
  appid game ∈ checkGame resolve mastered game.
Proof.
  intros Hok. unfold checkGame. rewrite Hok.
  destruct (includes mastered (appid game)) eqn:Hin.
  - by apply includes_elem_of.
  - apply elem_of_app. right. by left.
Qed.

Lemma foldl_checkGame_adds (l : list Game) (mastered : list Z) (game : Game) :
  game ∈ l → tryMastered resolve (appid game) = Ok true →
  appid game ∈ foldl (checkGame resolve) mastered l.
Proof.
  revert mastered. induction l as [|g l IH]; intros mastered Hin Hok.
  - inversion Hin.
  - simpl. apply elem_of_cons in Hin as [<-|Hin].
    + apply foldl_checkGame_keeps. by apply checkGame_adds.
    + by apply IH.
Qed.

Lemma checkGame_skips (mastered : list Z) (game : Game) (x : Z) :
  x ∈ checkGame resolve mastered game →
  x ∈ mastered ∨ (x = appid game ∧ tryMastered resolve x = Ok true).
Proof.
  unfold checkGame.
  destruct (tryMastered _ _) as [[|]|] eqn:Hres; try by left.
  destruct (includes mastered (appid game)); [by left|].
  intros Hx. apply elem_of_app in Hx as [Hx|Hx]; [by left|].
  apply list_elem_of_singleton in Hx as ->. by right.
Qed.

Lemma foldl_checkGame_skips (l : list Game) (mastered : list Z) (x : Z) :
  x ∈ foldl (checkGame resolve) mastered l →
  x ∈ mastered ∨
  ∃ game, game ∈ l ∧ appid game = x ∧ tryMastered resolve x = Ok true.
Proof.
  revert mastered. induction l as [|g l IH]; intros mastered Hx; [by left|].
  simpl in Hx. apply IH in Hx as [Hx|(game & Hg & Hid & Hok)].
  - apply checkGame_skips in Hx as [Hx|[-> Hok]]; [by left|].
    right. exists g. split; [by left|done].
  - right. exists game. split; [by right|done].
Qed.
End MasteryFacts.

Section MasterySessionFacts.
Variable resolve : Z → Res Json.
Variable steamId : string.

Lemma verifyMastery_keeps (games : list Game) (mastered : list Z) (id : Z) :
  id ∈ mastered → id ∈ verifyMastery resolve games steamId mastered.
Proof.
  intros Hid. unfold verifyMastery.
  destruct (_ || _); [done|]. by apply foldl_checkGame_keeps.
Qed.

(** A pass that starts with no other under way and ends before the next
    starts: the state it leaves is its result on the list of the state
    it started in. *)
Lemma session_pass (h : MasteryHook) (games : list Game) :
  hook_passes h = [] →
  let h' := session resolve steamId h [EffectRuns games; PassEnds 0%nat] in
  hook_passes h' = []
  ∧ hook_masteredAppIds h'
    = verifyMastery resolve games steamId (hook_masteredAppIds h).
Proof.
  intros Hidle. unfold session. simpl.
  pose proof (eq_refl (verifyMastery resolve games steamId (hook_masteredAppIds h))) as Hv.
  unfold verifyMastery at 2 in Hv.
  destruct ((length games =? 0)%nat || String.eqb steamId "") eqn:Hguard.
  - simpl. rewrite Hidle. simpl. rewrite Hidle. by split.
  - simpl. rewrite Hidle. simpl. by split.
Qed.

Lemma session_successive (gamesOfPass : list (list Game)) (h : MasteryHook) (id : Z) :
  hook_passes h = [] →
  id ∈ hook_masteredAppIds h →
  hook_passes (session resolve steamId h (successivePasses gamesOfPass)) = []
  ∧ id ∈ hook_masteredAppIds (session resolve steamId h (successivePasses gamesOfPass)).
Proof.
  revert h. induction gamesOfPass as [|games rest IH]; intros h Hidle Hid; [done|].
  change (successivePasses (games :: rest))
    with ([EffectRuns games; PassEnds 0%nat] ++ successivePasses rest).
  unfold session. rewrite foldl_app.
  destruct (session_pass h games Hidle) as [Hidle' Hstate].
  apply IH; [exact Hidle'|].
  unfold session in Hstate. rewrite Hstate. by apply verifyMastery_keeps.
Qed.
End MasterySessionFacts.

Lemma StronglySorted_mono {A : Type} (R S : A → A → Prop) (l : list A) :
  (∀ a b, R a b → S a b) → StronglySorted R l → StronglySorted S l.
Proof.
  intros HRS. induction 1 as [|x l _ IH Hall]; constructor; [done|].
  eapply Forall_impl; [exact Hall|]. auto.
Qed.

Lemma before_byPlaytime (a b : Game) : before byPlaytime a b ↔ morePlayed a b.
Proof.
  unfold before, byPlaytime, sign, morePlayed.
  destruct (Z.compare_spec (playtime_forever b - playtime_forever a) 0);
    split; intros; try done; lia.
Qed.

Lemma sort_byPlaytime_sorted (games : list Game) :
  StronglySorted morePlayed (sort byPlaytime games).
Proof.
  apply (StronglySorted_mono (before byPlaytime)); [apply before_byPlaytime|].
  apply sort_sorted.
  - intros a b Hgt. apply before_byPlaytime.
    unfold byPlaytime, sign in Hgt. apply Z.compare_gt_iff in Hgt.
    unfold morePlayed. lia.
  - intros a b c. rewrite !before_byPlaytime. unfold morePlayed. lia.
Qed.

(** The candidates are the twenty most played games (all of them when
    the library has fewer), most played first. *)
Lemma checkList_top20 (games : list Game) :
  length (checkList games) = Nat.min 20 (length games)
  ∧ StronglySorted morePlayed (checkList games)
  ∧ ∃ rest, games ≡ₚ checkList games ++ rest
            ∧ ∀ c r, c ∈ checkList games → r ∈ rest → morePlayed c r.
Proof.
  unfold checkList.
  pose proof (sort_byPlaytime_sorted games) as Hsorted.
  rewrite <- (take_drop 20 (sort byPlaytime games)) in Hsorted.
  split_and!.
  - by rewrite length_take, sort_length.
  - by eapply StronglySorted_app_1_l.
  - exists (drop 20 (sort byPlaytime games)). split.
    + by rewrite take_drop, sort_Permutation.
    + intros c r Hc Hr. by eapply StronglySorted_app_1_elem_of.
Qed.

(** *** The inline classifier of src/App.tsx *)

Lemma classify_none (data : Json) :
  achievementsOf data = None ∨ achievementsOf data = Some [] →
  classify data = Ok (false, false) ∨ ∃ e, classify data = Throw e.
Proof.
  unfold achievementsOf, classify.
  destruct (nullish data) eqn:Hnull.
  { right. unfold dot. rewrite Hnull. by eexists. }
  rewrite (qdot_prop "achievements" data), dot_prop by done. simpl.
  intros H. left.
  destruct (strict_eq _ (JBool false)) eqn:Hsucc; simpl.
  - by destruct (qdot "achievements" _).
  - destruct (qdot "achievements" _) as [| | | | |items|] eqn:Harr; try done.
    destruct H as [H|H]; [done|]. by injection H as ->.
Qed.

(** A game whose request fails, or whose response has no achievement,
    goes to neither list there. *)
Lemma inlineVerifyMastery_neither (resolve : Z → Res Json) (games : list Game)
    (mastered hunters : list Z) (id : Z) :
  inlineVerifyMastery resolve games = Some (mastered, hunters) →
  (∃ e, resolve id = Throw e)
  ∨ (∃ data, resolve id = Ok data
             ∧ (achievementsOf data = None ∨ achievementsOf data = Some [])) →
  (id ∉ mastered) ∧ (id ∉ hunters).
Proof.
  unfold inlineVerifyMastery. destruct (_ =? _)%nat; [done|].
  intros [= Hrun] Hfail.
  assert (∀ l lists, (id ∉ lists.1) ∧ (id ∉ lists.2) →
            (id ∉ (foldl (classifyGame resolve) lists l).1)
            ∧ (id ∉ (foldl (classifyGame resolve) lists l).2)) as Hfold.
  { induction l as [|g l IH]; intros lists Hlists; [done|]. simpl. apply IH.
    unfold classifyGame, tryClassify.
    destruct (decide (appid g = id)) as [->|Hne].
    - destruct Hfail as [[e ->]|(data & -> & Hnone)]; [done|]. simpl.
      destruct (classify_none _ Hnone) as [->|[e ->]]; done.
    - destruct (_ ≫= _) as [[m h]|]; [|done]. simpl.
      destruct Hlists as [Hm Hh].
      split; [destruct m|destruct h]; try done;
        rewrite elem_of_app, list_elem_of_singleton; intros [?|?]; done. }
  specialize (Hfold (inlineTargets games) ([], [])). rewrite Hrun in Hfold.
  apply Hfold. split; apply not_elem_of_nil.
Qed.

(** C4: the mastery hook checks exactly the twenty most played games.  A
    checked game whose response has some achievement and a ratio of
    unlocked to all of exactly 1 is in the mastered list after the pass,
    and a pass adds nothing else: an identifier in the list after the
    pass was in the list the pass started from, or is a checked game
    with such a response.  An identifier in the list a pass starts from
    is in it after the pass, so over passes of a session that run one
    after the other, each ending before the next starts, the list of
    the hook only grows, whatever the passes check; likewise for a
    second pass started from the result of the first, on any data.  An
    identifier that was not in the list is not added when its request
    fails or its response has no achievement.  The inline form of the
    check in the root component of src/App.tsx, which also keeps the
    hunter list, puts such a game in neither of its two lists. *)
Theorem mastery_classifier (resolve : Z → Res Json) (games : list Game)
    (steamId : string) (mastered0 : list Z) :
  (length (checkList games) = Nat.min 20 (length games)
   ∧ StronglySorted morePlayed (checkList games)
   ∧ ∃ rest, games ≡ₚ checkList games ++ rest
             ∧ ∀ c r, c ∈ checkList games → r ∈ rest → morePlayed c r)
  ∧ (steamId ≠ "" →
     ∀ g data items,
       g ∈ checkList games →
       resolve (appid g) = Ok data →
       achievementsOf data = Some items →
       Forall (λ a, nullish a = false) items →
       (0 < length items)%nat →
       (ratio (achievedCount items) (length items) == 1)%Q →
       appid g ∈ verifyMastery resolve games steamId mastered0)
  ∧ (∀ id,
       id ∈ verifyMastery resolve games steamId mastered0 →
       id ∈ mastered0
       ∨ ∃ g data items,
           g ∈ checkList games ∧ appid g = id
           ∧ resolve id = Ok data
           ∧ achievementsOf data = Some items
           ∧ (0 < length items)%nat
           ∧ (ratio (achievedCount items) (length items) == 1)%Q)
  ∧ (∀ id, id ∈ mastered0 → id ∈ verifyMastery resolve games steamId mastered0)
  ∧ (∀ (h : MasteryHook) (gamesOfPass : list (list Game)) (id : Z),
       hook_passes h = [] →
       id ∈ hook_masteredAppIds h →
       id ∈ hook_masteredAppIds
              (session resolve steamId h (successivePasses gamesOfPass)))
  ∧ (∀ (resolve2 : Z → Res Json) (games2 : list Game) (id : Z),
       id ∈ verifyMastery resolve games steamId mastered0 →
       id ∈ verifyMastery resolve2 games2 steamId
              (verifyMastery resolve games steamId mastered0))
  ∧ (∀ id,
       id ∉ mastered0 →
       (∃ e, resolve id = Throw e)
       ∨ (∃ data, resolve id = Ok data
                  ∧ (achievementsOf data = None ∨ achievementsOf data = Some [])) →
       id ∉ verifyMastery resolve games steamId mastered0)
  ∧ (∀ mastered hunters id,
       inlineVerifyMastery resolve games = Some (mastered, hunters) →
       (∃ e, resolve id = Throw e)
       ∨ (∃ data, resolve id = Ok data
                  ∧ (achievementsOf data = None ∨ achievementsOf data = Some [])) →
       (id ∉ mastered) ∧ (id ∉ hunters)).
Proof.
  split; [apply checkList_top20|]. split_and!.
  - intros Hsid g data items Hg Hres Hach Hwf Hlen Hratio.
    unfold verifyMastery.
    assert (games ≠ []) as Hne.
    { intros Hnil. rewrite Hnil in Hg. unfold checkList in Hg. simpl in Hg. inversion Hg. }
    assert (((length games =? 0)%nat || String.eqb steamId "") = false) as ->.
    { apply orb_false_intro.
      - apply Nat.eqb_neq. by destruct games.
      - by apply String.eqb_neq. }
    apply foldl_checkGame_adds; [done|].
    unfold tryMastered. rewrite Hres. simpl.
    rewrite (fullyAchieved_counts _ _ Hach Hwf). f_equal.
    apply bool_decide_eq_true_2. split; [done|].
    apply ratio_one; [done|]. by apply Qeq_bool_iff.
  - intros id Hin. unfold verifyMastery in Hin.
    destruct (_ || _); [by left|].
    apply foldl_checkGame_skips in Hin as [Hin|(g & Hg & Hid & Hok)]; [by left|].
    right. unfold tryMastered in Hok.
    destruct (resolve id) as [data|e] eqn:Hres; [|done]. simpl in Hok.
    destruct (fullyAchieved_true _ Hok) as (items & Hach & _ & Hlen & Hall).
    exists g, data, items. split_and!; try done.
    apply Qeq_bool_iff. by apply ratio_one.
  - intros id. apply verifyMastery_keeps.
  - intros h gamesOfPass id Hidle Hid.
    by apply session_successive.
  - intros resolve2 games2 id. apply verifyMastery_keeps.
  - intros id Hnot Hfail Hin. unfold verifyMastery in Hin.
    destruct (_ || _); [done|].
    apply foldl_checkGame_skips in Hin as [Hin|(g & _ & _ & Hok)]; [done|].
    unfold tryMastered in Hok.
    destruct Hfail as [[e He]|(data & Hd & Hnone)].
    + by rewrite He in Hok.
    + rewrite Hd in Hok. simpl in Hok.
      destruct (fullyAchieved_none _ Hnone) as [H|[e H]]; by rewrite H in Hok.
  - intros mastered hunters id. apply inlineVerifyMastery_neither.
Qed.

Lemma mastery_classifier_witness :
  7 ∈ verifyMastery sampleResolve sampleGames "76561198000000001" []
  ∧ ¬ 9 ∈ verifyMastery sampleResolve sampleGames "76561198000000001" [].
Proof.
  destruct (mastery_classifier sampleResolve sampleGames "76561198000000001" [])
    as (_ & Hadd & _ & _ & _ & _ & Hskip & _).
  split.
  - apply (Hadd ltac:(done) (mkGame 7 "G" 100 "" None) (sampleResponse [1; 1])
             [JObj [("apiname", JStr "ACH"); ("achieved", JNum (num_of_Z 1))];
              JObj [("apiname", JStr "ACH"); ("achieved", JNum (num_of_Z 1))]]).
    + apply (bool_decide_unpack _). vm_compute. exact I.
    + reflexivity.
    + reflexivity.
    + by repeat constructor.
    + simpl. lia.
    + by vm_compute.
  - apply Hskip.
    + apply not_elem_of_nil.
    + left. eexists. reflexivity.
Defined.

(** The mastered list does not grow over every two passes.  In the
    hook a pass reads the list of the render it was started in: with a
    second pass started while the first is awaiting its responses, over
    a subset of the candidates and on the same data, the first pass
    ends with game 7 in the list and the second, ending after it,
    leaves the list empty.  The inline form starts its lists empty at
    every pass, so there the same happens with one pass after the
    other. *)
Lemma mastery_not_monotone :
  let steamId := "76561198000000001" in
  let pass1 := sampleGames in
  let pass2 := [mkGame 8 "H" 50 "" None] in
  let started := [EffectRuns pass1; EffectRuns pass2] in
  let after1 :=
    hook_masteredAppIds
      (session sampleResolve steamId (mkMasteryHook [] false [])
         (started ++ [PassEnds 0%nat])) in
  let after2 :=
    hook_masteredAppIds
      (session sampleResolve steamId (mkMasteryHook [] false [])
         (started ++ [PassEnds 0%nat; PassEnds 0%nat])) in
  (checkList pass2 ⊆ checkList pass1
   ∧ after1 = [7] ∧ after2 = []
   ∧ ¬ (∀ id, id ∈ after1 → id ∈ after2))
  ∧ (inlineTargets pass2 ⊆ inlineTargets pass1
     ∧ inlineVerifyMastery sampleResolve pass1 = Some ([7], [8])
     ∧ inlineVerifyMastery sampleResolve pass2 = Some ([], [8])).
Proof.
  assert (∀ g, g ∈ [mkGame 8 "H" 50 "" None] → g ∈ checkList sampleGames) as Hsub.
  { intros g ->%list_elem_of_singleton.
    apply (bool_decide_unpack _). by vm_compute. }
  split; split_and!.
  - intros g Hg. vm_compute in Hg. by apply Hsub.
  - by vm_compute.
  - by vm_compute.
  - intros H. specialize (H 7). vm_compute in H.
    specialize (H ltac:(by left)). inversion H.
  - intros g Hg. vm_compute in Hg. apply Hsub in Hg.
    vm_compute in Hg. by vm_compute.
  - by vm_compute.
  - by vm_compute.
Qed.

(** *** The two forms of the check on the sample data *)

(** It starts both lists empty at every run: what an earlier run found
    is not carried into the next. *)
Example inlineVerifyMastery_fresh :
  inlineVerifyMastery sampleResolve sampleGames = Some ([7], [8])
  ∧ inlineVerifyMastery (λ _, Throw (NetworkError "Network Error")) sampleGames
    = Some ([], []).
Proof. by vm_compute. Qed.

(** The hook on the same data: a run that starts from the list the
    previous run ended with keeps what that run found. *)
Example verifyMastery_carries :
  verifyMastery sampleResolve sampleGames "76561198000000001" [] = [7]
  ∧ verifyMastery (λ _, Throw (NetworkError "Network Error")) sampleGames
      "76561198000000001" [7] = [7].
Proof. by vm_compute. Qed.

(** A run reads the list of the render it was started in.  Two runs
    started from the same list, the second while the first is still
    awaiting its responses, each end with their own result; the one that
    ends last is the state. *)
Example verifyMastery_same_start :
  verifyMastery sampleResolve sampleGames "76561198000000001" [] = [7]
  ∧ verifyMastery sampleResolve [mkGame 9 "I" 10 "" None] "76561198000000001" [] = [].
Proof. by vm_compute. Qed.

(** ** The achievements endpoint *)

(** C5: when the player-achievement request is rejected with a body
    whose [playerstats.error] is ['Profile is not public'], the endpoint
    answers with the private-profile tag and no achievement list, next
    to the schema and the global statistics of the requests that were
    fulfilled (the empty fragment for one that was not); on that answer
    the hook reports the tag and an empty list. *)
Theorem private_profile_short_circuit
    (reason : Json) (schemaResponse globalStatsResponse : Settled) :
  qdot "error" (qdot "playerstats" (qdot "data" (qdot "response" reason)))
    = JStr "Profile is not public" →
  let body := achievementsEndpoint (Rejected reason) schemaResponse globalStatsResponse in
  body = JObj [ ("achievements", privatePlayerstats);
                ("schema", fragment schemaResponse emptySchema);
                ("globalStats", fragment globalStatsResponse emptyGlobalStats) ]
  ∧ qdot "error" (qdot "playerstats" (qdot "achievements" body)) = JStr "Private Profile"
  ∧ qdot "success" (qdot "playerstats" (qdot "achievements" body)) = JBool false
  ∧ js_or (qdot "achievements" (qdot "playerstats" (qdot "achievements" body))) (JArr [])
    = JArr []
  ∧ (∀ data, schemaResponse = Fulfilled data → qdot "schema" body = data)
  ∧ (∀ data, globalStatsResponse = Fulfilled data → qdot "globalStats" body = data)
  ∧ ∀ pas schemas globals links previous,
      fetchAchievements body pas schemas globals links previous
      = mkState [] (Some (JStr "Private Profile")) false.
Proof.
  intros Herr body.
  assert (truthy (qdot "data" (qdot "response" reason)) = true) as Hdata.
  { destruct (qdot "data" (qdot "response" reason)); by vm_compute in Herr. }
  assert (body = JObj [ ("achievements", privatePlayerstats);
                        ("schema", fragment schemaResponse emptySchema);
                        ("globalStats", fragment globalStatsResponse emptyGlobalStats) ])
    as Hbody.
  { unfold body, achievementsEndpoint, js_or. rewrite Hdata, Herr. reflexivity. }
  rewrite Hbody. split_and!; try reflexivity.
  - by intros data ->.
  - by intros data ->.
Qed.

Lemma private_profile_short_circuit_witness :
  achievementsEndpoint
    (Rejected (JObj [ ("message", JStr "Request failed with status code 403");
                      ("response", JObj [ ("status", JNum (Fin 403));
                        ("data", JObj [("playerstats",
                           JObj [ ("error", JStr "Profile is not public");
                                  ("success", JBool false) ])]) ]) ]))
    (Fulfilled (JObj [("game", JObj [("gameName", JStr "G")])]))
    (Rejected (JObj [("message", JStr "timeout")]))
  = JObj [ ("achievements", privatePlayerstats);
           ("schema", JObj [("game", JObj [("gameName", JStr "G")])]);
           ("globalStats", emptyGlobalStats) ].
Proof.
  refine (proj1 (private_profile_short_circuit _ _ _ _)). reflexivity.
Defined.

(** ** The achievements hook *)

Lemma find_first {A : Type} (p : A → bool) (pre post : list A) (x : A) :
  (∀ y, y ∈ pre → p y = false) → p x = true →
  List.find p (pre ++ x :: post) = Some x.
Proof.
  intros Hpre Hx. induction pre as [|y pre IH]; simpl.
  - by rewrite Hx.
  - rewrite (Hpre y) by left. apply IH. intros z Hz. apply Hpre. by right.
Qed.

Lemma find_absent {A : Type} (p : A → bool) (l : list A) :
  (∀ y, y ∈ l → p y = false) → List.find p l = None.
Proof.
  intros Hl. induction l as [|y l IH]; simpl; [done|].
  rewrite (Hl y) by left. apply IH. intros z Hz. apply Hl. by right.
Qed.

(** The entry of the global statistics the merge pairs with an
    achievement: the first one of that name. *)
Lemma find_global (globals pre post : list GlobalAchievement)
    (ga : GlobalAchievement) (n : string) :
  globals = pre ++ ga :: post →
  (∀ g, g ∈ pre → global_name g ≠ n) → global_name ga = n →
  List.find (λ g, String.eqb (global_name g) n) globals = Some ga.
Proof.
  intros -> Hpre Hga. apply find_first.
  - intros y Hy. apply String.eqb_neq. by apply Hpre.
  - by apply String.eqb_eq.
Qed.

Lemma mergeOne_percent (schemas : list SchemaAchievement)
    (globals : list GlobalAchievement) (links : Json)
    (pa : PlayerAchievement) (m : AchievementWithLink) :
  mergeOne schemas globals links pa = Ok m →
  percent m
  = mergedPercent (List.find (λ g, String.eqb (global_name g) (apiname pa)) globals).
Proof.
  unfold mergeOne. destruct (dot (apiname pa) links); simpl; [|done].
  by intros [= <-].
Qed.

(** C6, counterexample: the global statistics give the text ["abc"] as
    the percentage of an achievement; the merged record holds [NaN], not
    0. *)
Lemma percent_of_text_is_NaN :
  ∃ m, mergeOne [] [mkGlobal "ACH_WIN" (JStr "abc")] (JObj []) (mkPlayer "ACH_WIN" 0 0) = Ok m
       ∧ percent m = NaN ∧ percent m ≠ Fin 0.
Proof. eexists. split; [reflexivity|]. split; [reflexivity|]. simpl. discriminate. Qed.

(** C6, as amended: the [percent] of a merged record is the number of
    the matching global-statistics entry when that entry holds a number,
    [parseFloat] of its text when it holds a non-empty text (which is
    [NaN] when the text does not begin with a number), and 0 when there is
    no matching entry or the entry holds no percentage, [null], [false]
    or the empty text. *)
Theorem merged_percent (schemas : list SchemaAchievement)
    (globals : list GlobalAchievement) (links : Json)
    (pa : PlayerAchievement) (m : AchievementWithLink) :
  mergeOne schemas globals links pa = Ok m →
  ((∀ g, g ∈ globals → global_name g ≠ apiname pa) → percent m = Fin 0)
  ∧ ∀ pre ga post,
      globals = pre ++ ga :: post →
      (∀ g, g ∈ pre → global_name g ≠ apiname pa) →
      global_name ga = apiname pa →
      (∀ n, global_percent ga = JNum n → percent m = n)
      ∧ (∀ s, global_percent ga = JStr s → s ≠ "" → percent m = parseFloat s)
      ∧ (global_percent ga = JUndefined ∨ global_percent ga = JNull
         ∨ global_percent ga = JBool false ∨ global_percent ga = JStr "" →
         percent m = Fin 0).
Proof.
  intros Hm. rewrite (mergeOne_percent _ _ _ _ _ Hm). split.
  - intros Hnone. rewrite find_absent; [reflexivity|].
    intros y Hy. apply String.eqb_neq. by apply Hnone.
  - intros pre ga post Hglobals Hpre Hga.
    rewrite (find_global _ _ _ _ _ Hglobals Hpre Hga). unfold mergedPercent.
    split_and!.
    + by intros n ->.
    + intros s -> Hs. unfold js_or. simpl.
      apply String.eqb_neq in Hs. by rewrite Hs.
    + intros [->|[->|[->| ->]]]; reflexivity.
Qed.

Lemma merged_percent_witness :
  (∃ m, mergeOne [] [mkGlobal "ACH_A" (JStr "1.5"); mkGlobal "ACH_WIN" (JStr "45.25")]
          (JObj []) (mkPlayer "ACH_WIN" 0 0) = Ok m
        ∧ percent m = parseFloat "45.25")
  ∧ (∃ m, mergeOne [] [mkGlobal "ACH_A" (JStr "1.5")] (JObj []) (mkPlayer "ACH_WIN" 0 0) = Ok m
          ∧ percent m = Fin 0).
Proof.
  split.
  - eexists. split; [reflexivity|].
    refine (proj1 (proj2 (proj2 (merged_percent [] _ (JObj []) (mkPlayer "ACH_WIN" 0 0) _ eq_refl)
              [mkGlobal "ACH_A" (JStr "1.5")] (mkGlobal "ACH_WIN" (JStr "45.25")) []
              eq_refl _ eq_refl)) "45.25" eq_refl _).
    + intros g Hg. apply list_elem_of_singleton in Hg as ->. by vm_compute.
    + by vm_compute.
  - eexists. split; [reflexivity|].
    refine (proj1 (merged_percent [] _ (JObj []) (mkPlayer "ACH_WIN" 0 0) _ eq_refl) _).
    intros g Hg. apply list_elem_of_singleton in Hg as ->. by vm_compute.
Defined.

Lemma num_or0_not_NaN (n : JsNum) : num_or0 n ≠ NaN.
Proof. unfold num_or0. destruct n; simpl; try done. by destruct (negb _). Qed.

Lemma Qsub_sign (x y : Q) : (x - y ?= 0)%Q ≠ Gt ↔ (x <= y)%Q.
Proof.
  rewrite <- Qle_alt. unfold Qle, Qminus, Qplus, Qopp. simpl. lia.
Qed.

Lemma num_sign_sub (a b : JsNum) :
  a ≠ NaN → b ≠ NaN → num_sign (num_sub a b) ≠ Gt ↔ num_le a b.
Proof.
  intros Ha Hb. destruct a as [| | |x], b as [| | |y]; simpl; try done.
  apply Qsub_sign.
Qed.

Lemma num_le_total (a b : JsNum) : a ≠ NaN → b ≠ NaN → num_le a b ∨ num_le b a.
Proof.
  intros Ha Hb. destruct a as [| | |x], b as [| | |y]; simpl; try done; try tauto.
  destruct (Qlt_le_dec x y) as [Hlt|Hle]; [left; by apply Qlt_le_weak|by right].
Qed.

Lemma num_le_trans (a b c : JsNum) : num_le a b → num_le b c → num_le a c.
Proof.
  destruct a as [| | |x], b as [| | |y], c as [| | |z]; simpl; try done.
  apply Qle_trans.
Qed.

Lemma before_achievementCompare (a b : AchievementWithLink) :
  before achievementCompare a b ↔ lockedFirst a b.
Proof.
  unfold before, achievementCompare, lockedFirst, percentKey.
  case_bool_decide as Hne.
  - unfold sign. destruct (Z.compare_spec (m_achieved a - m_achieved b) 0);
      split; intros; try done; try lia.
  - rewrite num_sign_sub by apply num_or0_not_NaN.
    split; [by right|]. intros [Hlt|[_ Hle]]; [lia|done].
Qed.

Lemma lockedFirst_total (a b : AchievementWithLink) : lockedFirst a b ∨ lockedFirst b a.
Proof.
  unfold lockedFirst.
  destruct (Z.lt_trichotomy (m_achieved a) (m_achieved b)) as [Hlt|[Heq|Hgt]];
    [by left; left| |by right; left].
  destruct (num_le_total (percentKey a) (percentKey b)) as [Hle|Hle];
    try apply num_or0_not_NaN; [right|left]; right; done.
Qed.

Lemma lockedFirst_trans (a b c : AchievementWithLink) :
  lockedFirst a b → lockedFirst b c → lockedFirst a c.
Proof.
  unfold lockedFirst. intros [Hab|[Hab Hkab]] [Hbc|[Hbc Hkbc]].
  - left; lia.
  - left; lia.
  - left; lia.
  - right. split; [lia|]. by eapply num_le_trans.
Qed.

Lemma sort_achievements_sorted (l : list AchievementWithLink) :
  StronglySorted lockedFirst (sort achievementCompare l).
Proof.
  apply (StronglySorted_mono (before achievementCompare));
    [apply before_achievementCompare|].
  apply sort_sorted.
  - intros a b Hgt. apply before_achievementCompare.
    destruct (lockedFirst_total a b) as [Hab|Hba]; [|done].
    apply before_achievementCompare in Hab. by destruct Hab.
  - intros a b c. rewrite !before_achievementCompare. apply lockedFirst_trans.
Qed.

(** C3: the list the achievements hook shows is the list of the merged
    records rearranged so that a record with a smaller achieved state
    stands before one with a larger (locked, 0, before unlocked, 1) and,
    among records of the same achieved state, one with a larger
    completion percentage before one with a smaller; the sort does this
    to every list of merged records.  An unlocked 80%, a locked 50% and
    a locked 90% record come out as the locked 90%, the locked 50% and
    the unlocked 80%, and so does the hook on the response that holds
    them. *)
Theorem achievements_locked_first :
  (∀ (pas : list PlayerAchievement) (schemas : list SchemaAchievement)
     (globals : list GlobalAchievement) (links : Json)
     (merged : list AchievementWithLink),
     mergeAchievements pas schemas globals links = Ok merged →
     (∃ unsorted,
        mapM (mergeOne schemas globals links) pas = Ok unsorted
        ∧ merged ≡ₚ unsorted)
     ∧ StronglySorted lockedFirst merged
     ∧ ∀ data previous,
         wellFormedResponse data pas schemas globals →
         responseError data = None →
         fetchAchievements data pas schemas globals links previous
         = mkState merged None false)
  ∧ (∀ l : list AchievementWithLink,
       sort achievementCompare l ≡ₚ l
       ∧ StronglySorted lockedFirst (sort achievementCompare l))
  ∧ sort achievementCompare [record 1 80; record 0 50; record 0 90]
    = [record 0 90; record 0 50; record 1 80]
  ∧ (wellFormedResponse orderResponse orderPlayers [] orderGlobals
     ∧ responseError orderResponse = None
     ∧ fetchAchievements orderResponse orderPlayers [] orderGlobals (JObj []) []
       = mkState
           [ mkMerged "C" 0 0 "C" None None None (num_of_Z 90) (JStr "");
             mkMerged "B" 0 0 "B" None None None (num_of_Z 50) (JStr "");
             mkMerged "A" 1 0 "A" None None None (num_of_Z 80) (JStr "") ]
           None false).
Proof.
  split_and!.
  - intros pas schemas globals links merged. unfold mergeAchievements.
    destruct (mapM _ pas) as [unsorted|] eqn:Hmap; simpl; [|done].
    intros [= <-]. split_and!.
    + exists unsorted. split; [done|apply sort_Permutation].
    + apply sort_achievements_sorted.
    + intros data previous _ Herr. unfold fetchAchievements, mergeAchievements.
      by rewrite Herr, Hmap.
  - intros l. split; [apply sort_Permutation|apply sort_achievements_sorted].
  - reflexivity.
  - eexists _, _, _. split_and!; reflexivity.
  - reflexivity.
  - reflexivity.
Qed.

(** What the hook stores is in that order. *)
Lemma mergeAchievements_sorted (pas : list PlayerAchievement)
    (schemas : list SchemaAchievement) (globals : list GlobalAchievement)
    (links : Json) (merged : list AchievementWithLink) :
  mergeAchievements pas schemas globals links = Ok merged →
  StronglySorted lockedFirst merged.
Proof.
  unfold mergeAchievements. destruct (mapM _ _) as [l|]; simpl; [|done].
  intros [= <-]. apply sort_achievements_sorted.
Qed.

(** ** Persisted state *)

Lemma hasItem_getItemOr (st : gmap string string) (key fallback : string) :
  hasItem st key = true → st !! key = Some (getItemOr st key fallback).
Proof.
  unfold hasItem, getItemOr. destruct (st !! key) as [s|]; [|done].
  by destruct (String.eqb s "").
Qed.

(** The blacklist initializer passes on what [JSON.parse] throws. *)
Lemma blacklistInitializer_throws (st : gmap string string) (saved : string) (e : JsError) :
  st !! "vanguard-blacklist" = Some saved → saved ≠ "" →
  JSON.parse saved = Throw e →
  blacklistInitializer st = Throw e.
Proof.
  intros Hsaved Hne Hparse. unfold blacklistInitializer, hasItem, getItemOr.
  rewrite Hsaved. apply String.eqb_neq in Hne. by rewrite Hne.
Qed.

(** C7, at the failing input: with the text ["{"] stored under
    ['vanguard-blacklist'], the initializer of the blacklist throws a
    [SyntaxError] instead of returning the empty list. *)
Theorem blacklist_corrupt_throws :
  blacklistInitializer (<["vanguard-blacklist" := "{"]> ∅) = Throw SyntaxError.
Proof. reflexivity. Qed.

(** The two sibling loaders catch it: the video links default to the
    empty object, *)
Lemma getStoredLinks_never_throws (st : gmap string string) (id : Z) :
  ∃ v, getStoredLinks st id = Ok v.
Proof.
  unfold getStoredLinks. destruct (JSON.parse _); simpl; by eexists.
Qed.

Lemma getStoredLinks_corrupt (st : gmap string string) (id : Z) (s : string) (e : JsError) :
  st !! ("vanguard-videos-" +:+ pretty id) = Some s →
  JSON.parse s = Throw e →
  getStoredLinks st id = Ok (JObj []).
Proof.
  intros Hs Hparse. unfold getStoredLinks, getItemOr. rewrite Hs.
  destruct (String.eqb s ""); [reflexivity|]. by rewrite Hparse.
Qed.

(** and a facet-cache entry that does not parse is left out. *)
Lemma loadMetadataEntry_never_throws (meta : gmap string Json) (entry : string * string) :
  ∃ meta', loadMetadataEntry meta entry = Ok meta'.
Proof.
  unfold loadMetadataEntry. destruct entry as [key value].
  destruct (startsWith _ _); [|by eexists].
  destruct (JSON.parse value); simpl; by eexists.
Qed.

Lemma loadMetadataEntry_corrupt (meta : gmap string Json) (key value : string) (e : JsError) :
  JSON.parse value = Throw e → loadMetadataEntry meta (key, value) = Ok meta.
Proof.
  intros Hparse. unfold loadMetadataEntry.
  destruct (startsWith _ _); [|done]. by rewrite Hparse.
Qed.

Lemma foldlM_never_throws {A B : Type} (f : B → A → Res B) (l : list A) (b : B) :
  (∀ b x, ∃ b', f b x = Ok b') → ∃ b', foldlM f b l = Ok b'.
Proof.
  intros Hf. revert b. induction l as [|x l IH]; intros b; simpl; [by eexists|].
  destruct (Hf b x) as [b' ->]. apply IH.
Qed.

Lemma gameMetadataInitializer_never_throws (st : gmap string string) :
  ∃ meta, gameMetadataInitializer st = Ok meta.
Proof. apply foldlM_never_throws, loadMetadataEntry_never_throws. Qed.

Lemma gameMetadataInitializer_all_corrupt (st : gmap string string) :
  (∀ key value, st !! key = Some value → ∃ e, JSON.parse value = Throw e) →
  gameMetadataInitializer st = Ok ∅.
Proof.
  intros Hall. unfold gameMetadataInitializer.
  assert (∀ entry, entry ∈ map_to_list st → ∃ e, JSON.parse entry.2 = Throw e) as Hl.
  { intros [key value] Hin. apply elem_of_map_to_list in Hin. eauto. }
  induction (map_to_list st) as [|[key value] l IH]; [done|]. cbn [foldlM].
  destruct (Hl (key, value)) as [e He]; [by left|]. simpl in He.
  rewrite (loadMetadataEntry_corrupt _ _ _ _ He). apply IH.
  intros entry Hin. apply Hl. by right.
Qed.

Example gameMetadataInitializer_ex :
  gameMetadataInitializer
    (<["vanguard-meta-440" := "{"]> (<["vanguard-meta-570" := "[1]"]> (<["vanguard-genres" := "x"]> ∅)))
  = Ok (<["570" := JArr [JNum (Fin 1)]]> ∅).
Proof. by vm_compute. Qed.

(** ** The library scan *)

Lemma hasItem_uncached (st : gmap string string) (g : Game) :
  negb (hasItem st (metaKey (appid g))) = true ↔ uncached st g.
Proof.
  unfold hasItem, uncached. destruct (st !! metaKey (appid g)) as [s|]; simpl.
  - rewrite negb_involutive, String.eqb_eq. split; [intros ->; by right|].
    intros [?|[= ->]]; done.
  - split; [by left|done].
Qed.

Lemma scanLibrary_start_idle (games : list Game) (w : World) :
  isScanning w = false →
  scanLibrary_start games w
  = mkWorld true (availableGenres w) (gameMetadata w) (localStorage w)
      (running w ++
       [mkJob (take 50 (filter (uncached (localStorage w)) games)) 0
          (availableGenres w) (gameMetadata w)]).
Proof.
  intros Hidle. unfold scanLibrary_start. rewrite Hidle.
  rewrite (filter_reflect _ (uncached (localStorage w))); [done|].
  intros g. apply hasItem_uncached.
Qed.

Lemma scanLibrary_start_busy (games : list Game) (w : World) :
  isScanning w = true → scanLibrary_start games w = w.
Proof. intros Hbusy. unfold scanLibrary_start. by rewrite Hbusy. Qed.

Section ScanFacts.
Variable fetchStore : Z → Res Json.
Variable stringify : Json → string.

Lemma scanLibrary_resume_calls (j : nat) (w : World) (job : Job) :
  running w !! j = Some job →
  (scanLibrary_resume fetchStore stringify j w).2
  = appid <$> take 5 (drop (cursor job) (targetGames job)).
Proof.
  intros Hjob. unfold scanLibrary_resume. rewrite Hjob.
  destruct (cursor job <? length (targetGames job))%nat eqn:Hcur.
  - destruct (processChunk _ _ _ _ _) as [[st s] [u|e]]; reflexivity.
  - apply Nat.ltb_ge in Hcur. rewrite drop_ge by done.
    destruct (foldlM _ _ _); reflexivity.
Qed.

Lemma scanLibrary_resume_running (j : nat) (w : World) (job : Job) :
  running w !! j = Some job →
  running (scanLibrary_resume fetchStore stringify j w).1 = delete j (running w)
  ∨ ∃ s, running (scanLibrary_resume fetchStore stringify j w).1
         = <[j := mkJob (targetGames job) (cursor job + 5) s (snapshot job)]> (running w).
Proof.
  intros Hjob. unfold scanLibrary_resume. rewrite Hjob.
  destruct (cursor job <? length (targetGames job))%nat.
  - destruct (processChunk _ _ _ _ _) as [[st s] [u|e]]; simpl; [|by left].
    right. by exists s.
  - destruct (foldlM _ _ _); by left.
Qed.

Lemma scanLibrary_resume_isScanning (j : nat) (w : World) :
  isScanning (scanLibrary_resume fetchStore stringify j w).1 = isScanning w
  ∨ (isScanning (scanLibrary_resume fetchStore stringify j w).1 = false
     ∧ ∃ job, running w !! j = Some job
              ∧ running (scanLibrary_resume fetchStore stringify j w).1 = delete j (running w)).
Proof.
  unfold scanLibrary_resume. destruct (running w !! j) as [job|] eqn:Hjob; [|by left].
  destruct (cursor job <? length (targetGames job))%nat.
  - destruct (processChunk _ _ _ _ _) as [[st s] [u|e]]; by left.
  - destruct (foldlM _ _ _); [|by left].
    right. split; [done|]. by exists job.
Qed.

Lemma delete_single {A : Type} (l : list A) (j : nat) (x : A) :
  (length l ≤ 1)%nat → l !! j = Some x → delete j l = [].
Proof.
  intros Hlen Hj. destruct l as [|y [|z l]]; simpl in *; [done| |lia].
  destruct j; [done|]. done.
Qed.

Lemma scan_invariant_step (w : World) (e : Event) :
  scan_invariant w → scan_invariant (step fetchStore stringify w e).1.
Proof.
  intros (Hflag & Hone & Hcap). unfold scan_invariant.
  destruct e as [games|j]; simpl.
  - destruct (isScanning w) eqn:Hbusy.
    + rewrite scanLibrary_start_busy by done. done.
    + assert (running w = []) as Hnone.
      { destruct (running w); [done|]. by specialize (Hflag ltac:(done)). }
      rewrite scanLibrary_start_idle by done. rewrite Hnone. simpl.
      split_and!; [done|lia|].
      intros job Hjob. apply list_elem_of_singleton in Hjob as ->. simpl.
      rewrite length_take. lia.
  - destruct (running w !! j) as [job|] eqn:Hjob.
    2:{ unfold scanLibrary_resume. rewrite Hjob. done. }
    assert (running w ≠ []) as Hsome by (intros Hnil; by rewrite Hnil in Hjob).
    destruct (scanLibrary_resume_running j w job Hjob) as [Hdel|[s Hins]].
    + rewrite Hdel, (delete_single _ _ _ Hone Hjob).
      split_and!; [done|simpl; lia|]. intros job' Hin. inversion Hin.
    + rewrite Hins. split_and!.
      * intros _. destruct (scanLibrary_resume_isScanning j w) as [->|(_ & job' & _ & Hdel)]; [auto|].
        rewrite Hins in Hdel. apply (f_equal length) in Hdel.
        rewrite length_insert, (delete_single _ _ _ Hone Hjob) in Hdel.
        destruct (running w); simpl in *; done.
      * by rewrite length_insert.
      * intros job' Hin. apply list_elem_of_lookup in Hin as [i Hi].
        destruct (decide (i = j)) as [->|Hij].
        -- rewrite list_lookup_insert_eq in Hi by (by eapply lookup_lt_Some).
           injection Hi as <-. simpl. apply Hcap. by eapply list_elem_of_lookup_2.
        -- rewrite list_lookup_insert_ne in Hi by done.
           apply Hcap. by eapply list_elem_of_lookup_2.
Qed.

Lemma reachable_invariant (w : World) :
  reachable fetchStore stringify w → scan_invariant w.
Proof.
  induction 1 as [genres meta st|w e _ IH].
  - unfold scan_invariant. split_and!; [done|simpl; lia|]. intros job Hin. inversion Hin.
  - by apply scan_invariant_step.
Qed.
End ScanFacts.

(** C9: a call of [scanLibrary] with the flag down raises the flag and
    starts a scan whose targets are the first fifty of the games that
    lack a cached facet entry; each turn of its loop calls [processGame]
    with the next five of these targets and with no other game, so that
    the games a scan has processed are always a prefix of its targets.
    In every state the component can reach, the flag is up whenever a scan
    is under way and at most one scan is; and a call with the flag up
    returns at once: it changes nothing and processes no game. *)
Theorem scan_single_flight (fetchStore : Z → Res Json) (stringify : Json → string) :
  (∀ (w : World) (games : list Game),
     isScanning w = false →
     ∃ job,
       step fetchStore stringify w (Invoke games)
       = (mkWorld true (availableGenres w) (gameMetadata w) (localStorage w)
            (running w ++ [job]), [])
       ∧ targetGames job = take 50 (filter (uncached (localStorage w)) games)
       ∧ (length (targetGames job) ≤ 50)%nat
       ∧ processedBy job = [])
  ∧ (∀ (w : World) (j : nat) (job : Job),
       running w !! j = Some job →
       let calls := (step fetchStore stringify w (Resume j)).2 in
       let after := running (step fetchStore stringify w (Resume j)).1 in
       calls = appid <$> take 5 (drop (cursor job) (targetGames job))
       ∧ (after = delete j (running w)
          ∨ ∃ job', after = <[j := job']> (running w)
                    ∧ targetGames job' = targetGames job
                    ∧ processedBy job' = processedBy job ++ calls))
  ∧ (∀ (w : World) (games : list Game),
       isScanning w = true →
       step fetchStore stringify w (Invoke games) = (w, []))
  ∧ (∀ w : World,
       reachable fetchStore stringify w →
       (running w ≠ [] → isScanning w = true)
       ∧ (length (running w) ≤ 1)%nat
       ∧ ∀ job, job ∈ running w →
           (length (targetGames job) ≤ 50)%nat
           ∧ (length (processedBy job) ≤ 50)%nat).
Proof.
  split_and!.
  - intros w games Hidle. eexists. simpl. rewrite scanLibrary_start_idle by done.
    split_and!; [reflexivity|reflexivity|simpl; rewrite length_take; lia|reflexivity].
  - intros w j job Hjob. simpl.
    pose proof (scanLibrary_resume_calls fetchStore stringify j w job Hjob) as Hcalls.
    split; [done|].
    destruct (scanLibrary_resume_running fetchStore stringify j w job Hjob) as [Hdel|[s Hins]];
      [by left|right].
    eexists. split; [exact Hins|]. split; [done|].
    rewrite Hcalls. unfold processedBy. simpl.
    by rewrite <- take_take_drop, fmap_app.
  - intros w games Hbusy. simpl. by rewrite scanLibrary_start_busy.
  - intros w Hreach.
    destruct (reachable_invariant _ _ _ Hreach) as (Hflag & Hone & Hcap).
    split_and!; [done..|]. intros job Hjob. split; [by apply Hcap|].
    unfold processedBy. rewrite length_fmap, length_take.
    specialize (Hcap job Hjob). lia.
Qed.

Lemma scan_single_flight_witness :
  step sampleStore sampleStringify busyWorld (Invoke sampleGames) = (busyWorld, [])
  ∧ ∃ job,
      step sampleStore sampleStringify idleWorld (Invoke sampleGames)
      = (mkWorld true [] ∅ sampleStorage [job], [])
      ∧ targetGames job = [mkGame 8 "H" 50 "" None; mkGame 9 "I" 10 "" None].
Proof.
  destruct (scan_single_flight sampleStore sampleStringify) as (Hstart & _ & Hbusy & _).
  split.
  - apply Hbusy. reflexivity.
  - destruct (Hstart idleWorld sampleGames eq_refl) as (job & Hstep & Htargets & _).
    exists job. split; [exact Hstep|]. rewrite Htargets. by vm_compute.
Defined.

(** A scan from start to end: of the three sample games, 7 is cached, 8
    is fetched and stored, and the request for 9 fails. *)
Example scan_run :
  let w1 := (step sampleStore sampleStringify idleWorld (Invoke sampleGames)).1 in
  let r2 := step sampleStore sampleStringify w1 (Resume 0) in
  let r3 := step sampleStore sampleStringify r2.1 (Resume 0) in
  (targetGames <$> running w1) = [[mkGame 8 "H" 50 "" None; mkGame 9 "I" 10 "" None]]
  ∧ r2.2 = [8; 9]
  ∧ isScanning r2.1 = true
  ∧ localStorage r2.1 !! metaKey 8 = Some "{}"
  ∧ localStorage r2.1 !! metaKey 9 = None
  ∧ r3.2 = []
  ∧ isScanning r3.1 = false
  ∧ running r3.1 = []
  ∧ availableGenres r3.1 = [JStr "Action"]
  ∧ gameMetadata r3.1 !! "8" = Some (JObj []).
Proof. by vm_compute. Qed.

(* ================================================================== *)
(** * Further properties of the sources *)

(** ** The game list, continued *)

Lemma rename_spacewar_idemp (g : Game) :
  rename_spacewar (rename_spacewar g) = rename_spacewar g.
Proof.
  unfold rename_spacewar. destruct (decide (appid g = SPACEWAR)) as [Hg|Hg].
  - rewrite (bool_decide_eq_true_2 _ Hg). simpl. by rewrite (bool_decide_eq_true_2 _ Hg).
  - rewrite (bool_decide_eq_false_2 _ Hg). by rewrite (bool_decide_eq_false_2 _ Hg).
Qed.

Lemma sync_spacewar_appid (r g : Game) : appid (sync_spacewar r g) = appid g.
Proof. done. Qed.

Lemma findIndex_ext_appid (l k : list Game) :
  appid <$> l = appid <$> k →
  findIndex (λ g, bool_decide (appid g = SPACEWAR)) l
  = findIndex (λ g, bool_decide (appid g = SPACEWAR)) k.
Proof.
  revert k. induction l as [|x l IH]; intros [|y k] Heq; try done.
  simpl in *. injection Heq as Hxy Heq. rewrite Hxy, (IH k Heq). done.
Qed.

Lemma alter_appid (f : Game → Game) (i : nat) (l : list Game) :
  (∀ g, appid (f g) = appid g) → appid <$> alter f i l = appid <$> l.
Proof.
  intros Hf. revert i. induction l as [|x l IH]; intros [|i]; try done.
  - change (alter f 0%nat (x :: l)) with (f x :: l). by rewrite !fmap_cons, Hf.
  - change (alter f (S i) (x :: l)) with (x :: alter f i l). by rewrite !fmap_cons, IH.
Qed.

Lemma fmap_rename_appid (l : list Game) : appid <$> (rename_spacewar <$> l) = appid <$> l.
Proof.
  rewrite <- list_fmap_compose. apply list_fmap_ext. intros _ g _. apply rename_spacewar_appid.
Qed.

Lemma games_queryFn_appids (owned recent : list Game) :
  appid <$> games_queryFn owned recent
  = (appid <$> owned) ++ (if decide (SPACEWAR ∈ appid <$> owned) then [] else [SPACEWAR]).
Proof.
  destruct (findIndex (λ g, bool_decide (appid g = SPACEWAR)) owned) as [i|] eqn:Hi.
  - rewrite (games_queryFn_present _ _ _ Hi), fmap_rename_appid.
    apply findIndex_Some in Hi as (x & Hx & Hpx & _). apply bool_decide_eq_true in Hpx.
    rewrite decide_True.
    + rewrite app_nil_r. destruct (recentGamesMap recent !! SPACEWAR); [|done].
      by apply alter_appid.
    + rewrite <- Hpx. apply list_elem_of_fmap_2. by eapply list_elem_of_lookup_2.
  - rewrite findIndex_None in Hi.
    assert (∀ o, o ∈ owned → appid o ≠ SPACEWAR) as Habs.
    { intros o Ho. specialize (Hi o Ho). by apply bool_decide_eq_false in Hi. }
    rewrite games_queryFn_absent by done. rewrite fmap_app. simpl.
    rewrite decide_False; [done|].
    intros Hin. apply list_elem_of_fmap in Hin as (o & Ho & Hin). by apply (Habs o).
Qed.

Lemma games_queryFn_has_spacewar (owned recent : list Game) :
  ∃ i, findIndex (λ g, bool_decide (appid g = SPACEWAR)) (games_queryFn owned recent) = Some i.
Proof.
  destruct (findIndex _ (games_queryFn owned recent)) as [i|] eqn:Hi; [by eexists|].
  rewrite findIndex_None in Hi.
  assert (SPACEWAR ∈ appid <$> games_queryFn owned recent) as Hin.
  { rewrite games_queryFn_appids. apply elem_of_app.
    destruct (decide (SPACEWAR ∈ appid <$> owned)); [by left|right; by left]. }
  apply list_elem_of_fmap in Hin as (g & Hid & Hg).
  specialize (Hi g Hg). apply bool_decide_eq_false in Hi. done.
Qed.

Lemma fmap_rename_idemp (l : list Game) :
  rename_spacewar <$> (rename_spacewar <$> l) = rename_spacewar <$> l.
Proof.
  rewrite <- list_fmap_compose. apply list_fmap_ext. intros _ g _. apply rename_spacewar_idemp.
Qed.

Lemma games_queryFn_renamed (owned recent : list Game) :
  rename_spacewar <$> games_queryFn owned recent = games_queryFn owned recent.
Proof.
  destruct (findIndex (λ g, bool_decide (appid g = SPACEWAR)) owned) as [i|] eqn:Hi.
  - rewrite (games_queryFn_present _ _ _ Hi). apply fmap_rename_idemp.
  - unfold games_queryFn. rewrite Hi. apply fmap_rename_idemp.
Qed.

Lemma filter_alter_outside (P : Game → Prop) `{!∀ x, Decision (P x)}
    (f : Game → Game) (i : nat) (l : list Game) :
  (∀ g, l !! i = Some g → ¬ P g ∧ ¬ P (f g)) →
  filter P (alter f i l) = filter P l.
Proof.
  revert i. induction l as [|x l IH]; intros [|i] Hi; try done.
  - change (alter f 0%nat (x :: l)) with (f x :: l).
    destruct (Hi x eq_refl) as [Hx Hfx]. by rewrite !filter_cons_False.
  - change (alter f (S i) (x :: l)) with (x :: alter f i l).
    rewrite !(filter_cons P x). rewrite (IH i); [done|]. intros g Hg. by apply Hi.
Qed.

Lemma filter_others_rename (l : list Game) :
  filter (λ g, appid g ≠ SPACEWAR) (rename_spacewar <$> l)
  = filter (λ g, appid g ≠ SPACEWAR) l.
Proof.
  induction l as [|y l IH]; [done|]. rewrite fmap_cons.
  destruct (decide (appid y = SPACEWAR)) as [Hy|Hy].
  - rewrite !filter_cons_False by (rewrite ?rename_spacewar_appid; tauto). exact IH.
  - rewrite !filter_cons_True by (by rewrite ?rename_spacewar_appid).
    by rewrite IH, rename_spacewar_other.
Qed.

(** X1: the aggregation keeps every owned game, in the order of the
    owned list and with its identifier, and every owned game other than
    the pseudo-game unchanged; it adds one entry, for the pseudo-game, at
    the end, exactly when the owned list has none. *)
Theorem aggregation_keeps_owned (owned recent : list Game) :
  appid <$> games_queryFn owned recent
    = (appid <$> owned) ++ (if decide (SPACEWAR ∈ appid <$> owned) then [] else [SPACEWAR])
  ∧ length (games_queryFn owned recent)
    = (length owned + (if decide (SPACEWAR ∈ appid <$> owned) then 0 else 1))%nat
  ∧ filter (λ g, appid g ≠ SPACEWAR) (games_queryFn owned recent)
    = filter (λ g, appid g ≠ SPACEWAR) owned.
Proof.
  pose proof (games_queryFn_appids owned recent) as Hids.
  split; [exact Hids|]. split.
  - apply (f_equal length) in Hids. rewrite length_app, !length_fmap in Hids.
    rewrite Hids. by destruct (decide _).
  - destruct (findIndex (λ g, bool_decide (appid g = SPACEWAR)) owned) as [i|] eqn:Hi.
    + rewrite (games_queryFn_present _ _ _ Hi), filter_others_rename.
      apply findIndex_Some in Hi as (x & Hx & Hpx & _). apply bool_decide_eq_true in Hpx.
      destruct (recentGamesMap recent !! SPACEWAR) as [r|]; [|done].
      apply filter_alter_outside. intros g Hg. rewrite Hx in Hg. injection Hg as <-.
      rewrite sync_spacewar_appid. tauto.
    + rewrite findIndex_None in Hi. rewrite games_queryFn_absent.
      * rewrite filter_app, filter_cons_False by (simpl; tauto).
        by rewrite filter_nil, app_nil_r.
      * intros o Ho. specialize (Hi o Ho). by apply bool_decide_eq_false in Hi.
Qed.

(** The entry of the pseudo-game in the aggregated list, when the
    recently-played list has one: it dominates the recent total, and its
    two-week playtime is the recent one (0 for a missing one, when the
    entry was synthesized). *)
Lemma games_queryFn_spacewar_entry (owned recent : list Game) (r : Game) :
  recentGamesMap recent !! SPACEWAR = Some r →
  ∃ i y,
    findIndex (λ g, bool_decide (appid g = SPACEWAR)) (games_queryFn owned recent) = Some i
    ∧ games_queryFn owned recent !! i = Some (rename_spacewar y)
    ∧ appid y = SPACEWAR
    ∧ playtime_forever r ≤ playtime_forever y
    ∧ (playtime_2weeks y = Some (or0 (playtime_2weeks r))
       ∨ playtime_2weeks y = playtime_2weeks r).
Proof.
  intros Hr.
  destruct (findIndex (λ g, bool_decide (appid g = SPACEWAR)) owned) as [k|] eqn:Hk.
  - pose proof (games_queryFn_present _ recent _ Hk) as Hout. rewrite Hr in Hout.
    apply findIndex_Some in Hk as Hk'. destruct Hk' as (o & Ho & Hpo & _).
    apply bool_decide_eq_true in Hpo.
    exists k, (sync_spacewar r o). split_and!.
    + rewrite <- Hk. apply findIndex_ext_appid.
      rewrite Hout, fmap_rename_appid. by apply alter_appid.
    + by rewrite Hout, list_lookup_fmap, list_lookup_alter_eq, Ho.
    + done.
    + simpl. lia.
    + by right.
  - rewrite findIndex_None in Hk.
    assert (∀ o, o ∈ owned → appid o ≠ SPACEWAR) as Habs.
    { intros o Ho. specialize (Hk o Ho). by apply bool_decide_eq_false in Hk. }
    destruct (games_queryFn_has_spacewar owned recent) as [i Hi].
    exists i, (mkGame SPACEWAR SPACEWAR_NAME (playtime_forever r) ""
                 (Some (or0 (playtime_2weeks r)))).
    apply findIndex_Some in Hi as Hi'. destruct Hi' as (x & Hx & Hpx & _).
    apply bool_decide_eq_true in Hpx.
    split; [exact Hi|]. split.
    { rewrite Hx. f_equal.
      rewrite games_queryFn_absent, Hr in Hx by done. simpl in Hx.
      apply lookup_app_Some in Hx as [Hx|[_ Hx]].
      - apply list_elem_of_lookup_2 in Hx. by destruct (Habs x Hx).
      - apply list_lookup_singleton_Some in Hx as [_ <-]. reflexivity. }
    simpl. split; [done|]. split; [lia|by left].
Qed.

(** X2: aggregating again what an aggregation returned changes nothing,
    be it with a recently-played list that lacks the pseudo-game (so
    that no merged playtime is lost) or with the same list, provided its
    entries of the pseudo-game carry a two-week playtime. *)
Theorem reaggregation_stable (owned recent : list Game) :
  (∀ recent2, (∀ r, r ∈ recent2 → appid r ≠ SPACEWAR) →
     games_queryFn (games_queryFn owned recent) recent2 = games_queryFn owned recent)
  ∧ ((∀ r, r ∈ recent → appid r = SPACEWAR → is_Some (playtime_2weeks r)) →
     games_queryFn (games_queryFn owned recent) recent = games_queryFn owned recent).
Proof.
  split.
  - intros recent2 Hnone. destruct (games_queryFn_has_spacewar owned recent) as [i Hi].
    rewrite (games_queryFn_present _ _ _ Hi).
    apply recentGamesMap_None in Hnone. rewrite Hnone. apply games_queryFn_renamed.
  - intros H2w.
    destruct (recentGamesMap recent !! SPACEWAR) as [r|] eqn:Hr.
    2:{ destruct (games_queryFn_has_spacewar owned recent) as [i Hi].
        rewrite (games_queryFn_present _ _ _ Hi), Hr. apply games_queryFn_renamed. }
    destruct (games_queryFn_spacewar_entry owned recent r Hr)
      as (i & y & Hi & Hy & Hid & Hpf & H2).
    apply recentGamesMap_Some in Hr as Hr'. destruct Hr' as [Hin Hrid].
    destruct (H2w r Hin Hrid) as [p Hp].
    rewrite (games_queryFn_present _ _ _ Hi), Hr.
    rewrite <- (games_queryFn_renamed owned recent) at 2.
    f_equal. apply list_eq. intros j.
    destruct (decide (j = i)) as [->|Hne]; [|by rewrite list_lookup_alter_ne].
    rewrite list_lookup_alter_eq, Hy. simpl. f_equal.
    unfold rename_spacewar. rewrite (bool_decide_eq_true_2 _ Hid).
    unfold sync_spacewar, set_playtime_2weeks, set_playtime_forever, set_name. simpl.
    f_equal; [lia|]. destruct H2 as [H2|H2]; rewrite H2; [|done].
    by rewrite Hp.
Qed.

Lemma reaggregation_stable_witness :
  games_queryFn
    (games_queryFn [mkGame 10 "A" 5 "" None] [mkGame 480 "Spacewar" 42 "" (Some 7)])
    [mkGame 480 "Spacewar" 42 "" (Some 7)]
  = games_queryFn [mkGame 10 "A" 5 "" None] [mkGame 480 "Spacewar" 42 "" (Some 7)].
Proof.
  refine (proj2 (reaggregation_stable [mkGame 10 "A" 5 "" None]
                   [mkGame 480 "Spacewar" 42 "" (Some 7)]) _).
  intros r Hr _. apply list_elem_of_singleton in Hr as ->. by eexists.
Defined.

(** ** The dashboard statistics *)

Lemma head_sort_insert {A : Type} (cmp : A → A → comparison) (x : A) (l : list A) :
  head (sort_insert cmp x l)
  = Some match head l with
         | Some y => match cmp x y with Gt => y | _ => x end
         | None => x
         end.
Proof. destruct l as [|y l]; simpl; [done|]. by destruct (cmp x y). Qed.

Lemma byPlaytime_Gt (a b : Game) :
  byPlaytime a b = Gt ↔ playtime_forever a < playtime_forever b.
Proof. unfold byPlaytime, sign. rewrite Z.compare_gt_iff. lia. Qed.

(** The head of the list sorted by playtime is the first game of
    maximal playtime. *)
Lemma topGame_first_max (games : list Game) :
  match topGame games with
  | None => games = []
  | Some g =>
      ∃ i, games !! i = Some g
           ∧ (∀ h, h ∈ games → playtime_forever h ≤ playtime_forever g)
           ∧ ∀ j h, (j < i)%nat → games !! j = Some h →
               playtime_forever h < playtime_forever g
  end.
Proof.
  unfold topGame. induction games as [|x games IH]; [done|].
  change (sort byPlaytime (x :: games)) with (sort_insert byPlaytime x (sort byPlaytime games)).
  rewrite head_sort_insert.
  destruct (head (sort byPlaytime games)) as [y|].
  - destruct IH as (i & Hi & Hmax & Hfirst).
    destruct (byPlaytime x y) eqn:Hcmp.
    1,2: assert (¬ playtime_forever x < playtime_forever y) as Hge
           by (rewrite <- byPlaytime_Gt, Hcmp; discriminate);
         exists 0%nat; split; [done|]; split; [|intros j h Hj; lia];
         intros h [->|Hh]%elem_of_cons; [lia|]; specialize (Hmax h Hh); lia.
    apply byPlaytime_Gt in Hcmp. exists (S i). split; [done|]. split.
    + intros h [->|Hh]%elem_of_cons; [lia|by apply Hmax].
    + intros [|j] h Hj Hh; simpl in Hh.
      * by injection Hh as <-.
      * apply (Hfirst j); [lia|done].
  - subst games. exists 0%nat. split; [done|]. split.
    + intros h Hh%list_elem_of_singleton. subst h. lia.
    + intros j h Hj. lia.
Qed.

(** X3: the favourite game of the statistics is the first game of the
    list among those of maximal playtime; with no game it is ['N/A'],
    without an identifier. *)
Theorem stats_favorite (toLocaleString : Q → string) (games : list Game) :
  (games = [] →
   favoriteGame (stats toLocaleString games) = "N/A"
   ∧ favoriteAppId (stats toLocaleString games) = None)
  ∧ (games ≠ [] →
     ∃ i g,
       games !! i = Some g
       ∧ favoriteGame (stats toLocaleString games) = name g
       ∧ favoriteAppId (stats toLocaleString games) = Some (appid g)
       ∧ (∀ h, h ∈ games → playtime_forever h ≤ playtime_forever g)
       ∧ ∀ j h, (j < i)%nat → games !! j = Some h →
           playtime_forever h < playtime_forever g).
Proof.
  split.
  - intros ->. by split.
  - intros Hne. pose proof (topGame_first_max games) as Htop.
    unfold stats. simpl. destruct (topGame games) as [g|]; [|done].
    destruct Htop as (i & Hi & Hmax & Hfirst).
    exists i, g. by split_and!.
Qed.

Lemma stats_favorite_witness :
  ∃ i g,
    sampleGames !! i = Some g
    ∧ favoriteGame (stats (λ _, "") sampleGames) = name g
    ∧ favoriteAppId (stats (λ _, "") sampleGames) = Some (appid g)
    ∧ (∀ h, h ∈ sampleGames → playtime_forever h ≤ playtime_forever g)
    ∧ ∀ j h, (j < i)%nat → sampleGames !! j = Some h →
        playtime_forever h < playtime_forever g.
Proof. apply (proj2 (stats_favorite (λ _, "") sampleGames)). discriminate. Defined.

(** ** The blacklist and the discovery picks *)

Lemma toggle_filter (a : Z) (prev : list Z) :
  List.filter (λ id, negb (id =? a)) prev = filter (λ id, id ≠ a) prev.
Proof.
  apply filter_reflect. intros x. rewrite negb_true_iff, Z.eqb_neq. done.
Qed.

(** X4: toggling an identifier flips its membership in the blacklist
    and leaves that of every other identifier; a list without
    repetition stays so; and toggling twice gives such a list back when
    the identifier was not on it. *)
Theorem toggleBlacklist_flips (a : Z) (prev : list Z) :
  (a ∈ toggleBlacklist a prev ↔ a ∉ prev)
  ∧ (∀ x, x ≠ a → x ∈ toggleBlacklist a prev ↔ x ∈ prev)
  ∧ (NoDup prev → NoDup (toggleBlacklist a prev))
  ∧ (a ∉ prev → toggleBlacklist a (toggleBlacklist a prev) = prev).
Proof.
  assert (includes prev a = false → a ∉ prev) as Hout.
  { intros Hf Hin%includes_elem_of. congruence. }
  split; [|split; [|split]].
  - unfold toggleBlacklist. destruct (includes prev a) eqn:Hin.
    + apply includes_elem_of in Hin. rewrite toggle_filter, list_elem_of_filter.
      split; [by intros [? _]|by intros ?].
    + rewrite elem_of_app, list_elem_of_singleton. split; [intros _; by apply Hout|by right].
  - intros x Hx. unfold toggleBlacklist. destruct (includes prev a).
    + rewrite toggle_filter, list_elem_of_filter. split; [by intros [_ ?]|by split].
    + rewrite elem_of_app, list_elem_of_singleton. split; [by intros [?|?]|by left].
  - intros Hnd. unfold toggleBlacklist. destruct (includes prev a) eqn:Hin.
    + rewrite toggle_filter. by apply NoDup_filter.
    + apply NoDup_app. split; [done|]. split; [|apply NoDup_singleton].
      intros x Hx ->%list_elem_of_singleton. apply includes_elem_of in Hx. congruence.
  - intros Hnot. unfold toggleBlacklist at 2.
    assert (includes prev a = false) as ->.
    { apply not_true_iff_false. by rewrite includes_elem_of. }
    unfold toggleBlacklist.
    assert (includes (prev ++ [a]) a = true) as ->.
    { apply includes_elem_of, elem_of_app. right. by left. }
    rewrite toggle_filter, filter_app, filter_cons_False, filter_nil, app_nil_r by auto.
    clear Hout. induction prev as [|x prev IH]; [done|].
    apply not_elem_of_cons in Hnot as [Hne Hnot].
    rewrite filter_cons_True by done. f_equal. by apply IH.
Qed.

Lemma pool_filter (games : list Game) (blacklist : list Z) :
  pool games blacklist = filter (λ g, appid g ∉ blacklist) games.
Proof.
  apply filter_reflect. intros g. rewrite negb_true_iff, <- not_true_iff_false.
  by rewrite includes_elem_of.
Qed.

(** X5: the random pick is a game of the library that is not
    blacklisted, whatever is drawn; when every game is blacklisted the
    previous pick stays. *)
Theorem generateRandomGame_from_pool (randomBelow : nat → Z)
    (games : list Game) (blacklist : list Z) (randomGame : option Game) :
  (∀ n, (0 < n)%nat → 0 ≤ randomBelow n < Z.of_nat n) →
  ((∀ g, g ∈ games → appid g ∈ blacklist) →
   generateRandomGame randomBelow games blacklist randomGame = randomGame)
  ∧ ((∃ g, g ∈ games ∧ appid g ∉ blacklist) →
     ∃ g, generateRandomGame randomBelow games blacklist randomGame = Some g
          ∧ g ∈ games ∧ appid g ∉ blacklist).
Proof.
  intros Hdraw. unfold generateRandomGame. rewrite pool_filter. split.
  - intros Hall. rewrite filter_none; [done|]. intros g Hg Hn. by apply Hn, Hall.
  - intros (g0 & Hg0 & Hn0).
    assert (g0 ∈ filter (λ g, appid g ∉ blacklist) games) as Hin
      by (by apply list_elem_of_filter).
    destruct (filter (λ g, appid g ∉ blacklist) games) as [|p ps] eqn:Hpool;
      [by apply elem_of_nil in Hin|].
    rewrite <- Hpool.
    assert (0 < length (filter (λ g, appid g ∉ blacklist) games))%nat as Hlen
      by (rewrite Hpool; simpl; lia).
    destruct (Nat.eqb_spec (length (filter (λ g, appid g ∉ blacklist) games)) 0); [lia|].
    specialize (Hdraw _ Hlen).
    destruct (Z.ltb_spec (randomBelow (length (filter (λ g, appid g ∉ blacklist) games))) 0);
      [lia|].
    destruct (lookup_lt_is_Some_2 (filter (λ g, appid g ∉ blacklist) games)
                (Z.to_nat (randomBelow (length (filter (λ g, appid g ∉ blacklist) games)))))
      as [g Hg]; [lia|].
    exists g. split; [done|].
    apply list_elem_of_lookup_2, list_elem_of_filter in Hg. by destruct Hg.
Qed.

Lemma generateRandomGame_from_pool_witness :
  ∃ g, generateRandomGame (λ _, 0) sampleGames [8] None = Some g
       ∧ g ∈ sampleGames ∧ appid g ∉ [8].
Proof.
  refine (proj2 (generateRandomGame_from_pool (λ _, 0) sampleGames [8] None _) _).
  - intros n Hn. lia.
  - exists (mkGame 7 "G" 100 "" None). split; [right; by left|].
    simpl. intros H%list_elem_of_singleton. discriminate.
Defined.

(** X6: whatever order the random comparator leaves the pool in, the
    discovery queue holds five games, or the whole pool when that is
    smaller: games of the library, none blacklisted, and no game more
    often than the library has it. *)
Theorem generateDiscoveryQueue_from_pool (shuffled : list Game → list Game)
    (games : list Game) (blacklist : list Z) :
  (∀ l, shuffled l ≡ₚ l) →
  let queue := generateDiscoveryQueue shuffled games blacklist in
  length queue = Nat.min 5 (length (filter (λ g, appid g ∉ blacklist) games))
  ∧ (∀ g, g ∈ queue → g ∈ games ∧ appid g ∉ blacklist)
  ∧ (NoDup games → NoDup queue).
Proof.
  intros Hperm queue. subst queue. unfold generateDiscoveryQueue.
  rewrite pool_filter. split_and!.
  - by rewrite length_take, Hperm.
  - intros g Hg. apply (subseteq_take 5) in Hg.
    rewrite Hperm in Hg. by apply list_elem_of_filter in Hg as [? ?].
  - intros Hnd. eapply sublist_NoDup; [|apply sublist_take].
    rewrite Hperm. by apply NoDup_filter.
Qed.

Lemma generateDiscoveryQueue_from_pool_witness :
  length (generateDiscoveryQueue reverse sampleGames [8])
  = Nat.min 5 (length (filter (λ g, appid g ∉ [8]) sampleGames)).
Proof.
  refine (proj1 (generateDiscoveryQueue_from_pool reverse sampleGames [8] _)).
  intros l. apply reverse_Permutation.
Defined.

(** ** The order of the vault *)

(** The sort is stable: elements that the comparator never puts after
    one another keep their order. *)
Lemma sort_insert_stable {A : Type} (cmp : A → A → comparison) (P : A → Prop)
    `{!∀ x, Decision (P x)} (x : A) (l : list A) :
  (∀ y, P x → P y → cmp x y ≠ Gt) →
  filter P (sort_insert cmp x l) = filter P (x :: l).
Proof.
  intros Hcmp. induction l as [|y l IH]; [done|]. simpl.
  destruct (cmp x y) eqn:Hxy; try done.
  rewrite filter_cons, IH, !filter_cons.
  destruct (decide (P y)) as [Hy|]; [|done].
  destruct (decide (P x)) as [Hx|]; [|done].
  by destruct (Hcmp y Hx Hy).
Qed.

Lemma sort_stable {A : Type} (cmp : A → A → comparison) (P : A → Prop)
    `{!∀ x, Decision (P x)} (l : list A) :
  (∀ x y, P x → P y → cmp x y ≠ Gt) →
  filter P (sort cmp l) = filter P l.
Proof.
  intros Hcmp. induction l as [|x l IH]; [done|].
  change (sort cmp (x :: l)) with (sort_insert cmp x (sort cmp l)).
  rewrite sort_insert_stable by (intros y; apply Hcmp).
  by rewrite !filter_cons, IH.
Qed.

(** A sort by the difference of an integer key, the larger first. *)
Lemma sort_by_key {A : Type} (key : A → Z) (cmp : A → A → comparison) (l : list A) :
  (∀ a b, cmp a b = sign (key b - key a)) →
  StronglySorted (λ a b, key b ≤ key a) (sort cmp l)
  ∧ ∀ k, filter (λ g, key g = k) (sort cmp l) = filter (λ g, key g = k) l.
Proof.
  intros Hcmp.
  assert (∀ a b, before cmp a b ↔ key b ≤ key a) as Hbefore.
  { intros a b. unfold before, sign. rewrite Hcmp. unfold sign.
    rewrite Z.compare_gt_iff. lia. }
  split.
  - apply (StronglySorted_mono (before cmp)); [intros a b; apply Hbefore|].
    apply sort_sorted.
    + intros a b Hgt. apply Hbefore. rewrite Hcmp in Hgt. unfold sign in Hgt.
      apply Z.compare_gt_iff in Hgt. lia.
    + intros a b c. rewrite !Hbefore. lia.
  - intros k. apply sort_stable. intros x y Hx Hy.
    apply Hbefore. lia.
Qed.

(** X7: the vault shows the games that pass its filters, each as often
    as the library has it, ordered by total playtime (or by recent
    playtime), the larger first, and games that tie in the order of the
    library; under the name order, games of one name keep the order of
    the library. *)
Theorem vault_order_stable (localeCompare : string → string → comparison)
    (games : list Game) (searchQuery : string) (vaultFilter : VaultFilter)
    (vaultSortBy : VaultSort) (masteredAppIds blacklist hunterTargets : list Z) :
  let shown :=
    statusFilter vaultFilter masteredAppIds blacklist hunterTargets
      (textFilter searchQuery games) in
  let result :=
    filteredAndSortedGames localeCompare games searchQuery vaultFilter vaultSortBy
      masteredAppIds blacklist hunterTargets in
  result ≡ₚ shown
  ∧ (vaultSortBy = SortPlaytime →
     StronglySorted morePlayed result
     ∧ ∀ k, filter (λ g, playtime_forever g = k) result
            = filter (λ g, playtime_forever g = k) shown)
  ∧ (vaultSortBy = SortRecency →
     StronglySorted (λ a b, recentPlaytimeMinutes b ≤ recentPlaytimeMinutes a) result
     ∧ ∀ k, filter (λ g, recentPlaytimeMinutes g = k) result
            = filter (λ g, recentPlaytimeMinutes g = k) shown)
  ∧ (vaultSortBy = SortName →
     (∀ s, localeCompare s s = Eq) →
     ∀ n, filter (λ g, name g = n) result = filter (λ g, name g = n) shown).
Proof.
  intros shown result. subst shown result. unfold filteredAndSortedGames.
  split; [apply sort_Permutation|]. split; [|split].
  - intros ->. apply (sort_by_key playtime_forever). reflexivity.
  - intros ->. apply (sort_by_key recentPlaytimeMinutes). reflexivity.
  - intros -> Hrefl n. apply sort_stable. intros x y Hx Hy. simpl.
    rewrite Hx, Hy, Hrefl. discriminate.
Qed.

(** ** The genre filter and the groups of the vault hook *)

Lemma strict_eq_JStr (d : Json) (s : string) : strict_eq d (JStr s) = true ↔ d = JStr s.
Proof.
  destruct d; simpl; try (split; [discriminate|discriminate]).
  rewrite String.eqb_eq. split; [by intros ->|by intros [= ->]].
Qed.

Lemma some_description (sg : string) (items : list Json) :
  Forall (λ mg, nullish mg = false) items →
  ∃ b, some (λ mg, d ← dot "description" mg; mret (strict_eq d (JStr sg))) items = Ok b
       ∧ (b = true ↔ ∃ mg, mg ∈ items ∧ prop "description" mg = JStr sg).
Proof.
  induction 1 as [|mg items Hmg _ IH].
  - exists false. split; [done|]. split; [done|]. intros (mg & Hin & _). inversion Hin.
  - simpl. unfold dot. rewrite Hmg. simpl.
    destruct (strict_eq (prop "description" mg) (JStr sg)) eqn:Heq.
    + exists true. split; [done|]. split; [|done]. intros _.
      exists mg. split; [by left|]. by apply strict_eq_JStr.
    + destruct IH as (b & Hb & Hiff). exists b. split; [done|].
      rewrite Hiff. split.
      * intros (x & Hx & Hd). exists x. split; [by right|done].
      * intros (x & [->|Hx]%elem_of_cons & Hd); [|by exists x].
        apply strict_eq_JStr in Hd. congruence.
Qed.

Lemma every_spec {A : Type} (p : A → Res bool) (l : list A) :
  (∀ x, x ∈ l → ∃ b, p x = Ok b) →
  ∃ b, every p l = Ok b ∧ (b = true ↔ ∀ x, x ∈ l → p x = Ok true).
Proof.
  induction l as [|x l IH]; intros Hok.
  - exists true. split; [done|]. split; [|done]. intros _ x Hx. inversion Hx.
  - simpl. destruct (Hok x) as [[] Hx]; [by left| |]; rewrite Hx.
    + destruct IH as (b & Hb & Hiff); [intros y Hy; apply Hok; by right|].
      exists b. split; [done|]. rewrite Hiff. split.
      * intros Hall y [->|Hy]%elem_of_cons; [done|by apply Hall].
      * intros Hall y Hy. apply Hall. by right.
    + exists false. split; [done|]. split; [done|].
      intros Hall. specialize (Hall x). rewrite Hx in Hall.
      assert (Ok false = Ok true) as [=]. apply Hall. by left.
Qed.

Lemma filterM_spec {A : Type} (p : A → Res bool) (l : list A) :
  (∀ x, x ∈ l → ∃ b, p x = Ok b) →
  ∃ r, filterM p l = Ok r ∧ r `sublist_of` l
       ∧ ∀ x, x ∈ r ↔ x ∈ l ∧ p x = Ok true.
Proof.
  induction l as [|x l IH]; intros Hok.
  - exists []. split; [done|]. split; [done|]. intros x. split.
    + intros Hx. inversion Hx.
    + intros [Hx _]. inversion Hx.
  - simpl. destruct (Hok x) as [b Hx]; [by left|]. rewrite Hx.
    destruct IH as (r & Hr & Hsub & Hiff); [intros y Hy; apply Hok; by right|].
    rewrite Hr. destruct b.
    + exists (x :: r). split; [done|]. split; [by constructor|].
      intros y. rewrite !elem_of_cons, Hiff. split.
      * intros [->|[? ?]]; [split; [by left|done]|split; [by right|done]].
      * intros [[->|?] ?]; [by left|by right].
    + exists r. split; [done|]. split; [by constructor|].
      intros y. rewrite elem_of_cons, Hiff. split.
      * intros [? ?]. split; [by right|done].
      * intros [[->|?] Hy]; [congruence|done].
Qed.

(** The callback of the genre filter on a well-formed profile. *)
Lemma genreCallback_spec (selectedGenres : list string)
    (gameMetadata : gmap string Json) (g : Game) :
  selectedGenres ≠ [] →
  (∀ meta, gameMetadata !! pretty (appid g) = Some meta → wellFormedProfile meta) →
  ∃ b, genreCallback selectedGenres gameMetadata g = Ok b
       ∧ (b = true ↔ hasGenres selectedGenres gameMetadata g).
Proof.
  intros Hsel Hwf. unfold genreCallback, hasGenres.
  destruct (gameMetadata !! pretty (appid g)) as [meta|] eqn:Hmeta; simpl.
  2:{ exists false. split; [done|]. split; [done|]. by intros (? & ? & ? & _). }
  destruct (truthy meta) eqn:Htm; simpl.
  2:{ exists false. split; [done|]. split; [done|].
      intros (m & ? & [= <-] & ? & _). congruence. }
  destruct (truthy (prop "genres" meta)) eqn:Htg; simpl.
  2:{ exists false. split; [done|]. split; [done|].
      intros (m & items & [= <-] & _ & Hg & _). rewrite Hg in Htg. done. }
  destruct (Hwf meta eq_refl Htm Htg) as (items & Hitems & Hnn).
  rewrite Hitems. simpl.
  destruct (every_spec
              (λ sg, some (λ mg, d ← dot "description" mg; mret (strict_eq d (JStr sg))) items)
              selectedGenres) as (b & Hb & Hiff).
  { intros sg _. destruct (some_description sg items Hnn) as (b & Hb & _). by exists b. }
  exists b. split; [done|]. rewrite Hiff. split.
  - intros Hall. exists meta, items. split_and!; try done.
    intros sg Hsg. specialize (Hall sg Hsg).
    destruct (some_description sg items Hnn) as (b' & Hb' & Hiff').
    apply Hiff'. congruence.
  - intros (m & items' & [= <-] & _ & Hg & Hall) sg Hsg.
    assert (items' = items) as -> by congruence.
    destruct (some_description sg items Hnn) as (b' & Hb' & Hiff').
    rewrite Hb'. f_equal. apply Hiff'. by apply Hall.
Qed.

(** X8: with no genre selected the genre filter keeps every game; with
    some selected, and well-formed cached profiles, it keeps, in their
    order, exactly the games whose cached profile lists every selected
    genre, so a game without cached profile is dropped. *)
Theorem genreFilter_all_selected (selectedGenres : list string)
    (gameMetadata : gmap string Json) (result : list Game) :
  genreFilter [] gameMetadata result = Ok result
  ∧ (selectedGenres ≠ [] →
     (∀ g meta, g ∈ result → gameMetadata !! pretty (appid g) = Some meta →
        wellFormedProfile meta) →
     ∃ kept,
       genreFilter selectedGenres gameMetadata result = Ok kept
       ∧ kept `sublist_of` result
       ∧ ∀ g, g ∈ kept ↔ g ∈ result ∧ hasGenres selectedGenres gameMetadata g).
Proof.
  split; [done|]. intros Hsel Hwf. unfold genreFilter.
  assert ((0 <? length selectedGenres)%nat = true) as ->.
  { destruct selectedGenres; [done|]. done. }
  destruct (filterM_spec (genreCallback selectedGenres gameMetadata) result)
    as (kept & Hkept & Hsub & Hiff).
  { intros g Hg.
    destruct (genreCallback_spec selectedGenres gameMetadata g Hsel) as (b & Hb & _);
      [intros meta; by apply Hwf|].
    by exists b. }
  exists kept. split; [done|]. split; [done|].
  intros g. rewrite Hiff. split.
  - intros [Hg Hcb]. split; [done|].
    destruct (genreCallback_spec selectedGenres gameMetadata g Hsel) as (b & Hb & Hb');
      [intros meta; by apply Hwf|].
    apply Hb'. congruence.
  - intros [Hg Hhas]. split; [done|].
    destruct (genreCallback_spec selectedGenres gameMetadata g Hsel) as (b & Hb & Hb');
      [intros meta; by apply Hwf|].
    rewrite Hb. f_equal. by apply Hb'.
Qed.

Lemma genreFilter_all_selected_witness :
  ∃ kept,
    genreFilter ["Action"] sampleMetadata sampleGames = Ok kept
    ∧ kept `sublist_of` sampleGames
    ∧ ∀ g, g ∈ kept ↔ g ∈ sampleGames ∧ hasGenres ["Action"] sampleMetadata g.
Proof.
  refine (proj2 (genreFilter_all_selected ["Action"] sampleMetadata sampleGames) _ _).
  - discriminate.
  - intros g meta Hg Hmeta _ _.
    assert (meta = JObj [("genres", JArr [JObj [("id", JStr "1"); ("description", JStr "Action")]])])
      as ->.
    { unfold sampleGames in Hg. rewrite !elem_of_cons in Hg.
      destruct Hg as [->|[->|[->|Hg]]]; [..|inversion Hg]; vm_compute in Hmeta; congruence. }
    eexists. split; [reflexivity|]. repeat constructor.
Defined.

(** A throw of the filter is a throw of its callback on some element,
    and the first such throw is the filter's. *)
Lemma filterM_throws {A : Type} (p : A → Res bool) (l : list A) (x : A) :
  x ∈ l → (∃ e, p x = Throw e) →
  ∃ y e, y ∈ l ∧ p y = Throw e ∧ filterM p l = Throw e.
Proof.
  intros Hx Hthrow. induction l as [|z l IH]; [inversion Hx|].
  simpl. destruct (p z) as [b|e] eqn:Hz.
  - apply elem_of_cons in Hx as [->|Hx].
    { destruct Hthrow as [e He]. congruence. }
    destruct (IH Hx) as (y & e & Hy & Hpy & Hf).
    exists y, e. split; [by right|]. split; [done|]. by rewrite Hf.
  - exists z, e. split; [by left|]. done.
Qed.

Lemma some_throws_TypeError (sg : string) (items : list Json) (e : JsError) :
  some (λ mg, d ← dot "description" mg; mret (strict_eq d (JStr sg))) items = Throw e →
  e = TypeError.
Proof.
  induction items as [|mg items IH]; [discriminate|]. simpl. unfold dot.
  destruct (nullish mg); simpl; [by intros [= <-]|].
  destruct (strict_eq _ _); [discriminate|apply IH].
Qed.

Lemma every_throws {A : Type} (p : A → Res bool) (l : list A) (e : JsError) :
  every p l = Throw e → ∃ x, x ∈ l ∧ p x = Throw e.
Proof.
  induction l as [|x l IH]; [discriminate|]. simpl.
  destruct (p x) as [[]|e'] eqn:Hx.
  - intros (y & Hy & Hpy)%IH. exists y. split; [by right|done].
  - discriminate.
  - intros [= <-]. exists x. split; [by left|done].
Qed.

Lemma genreCallback_throws_TypeError (selectedGenres : list string)
    (gameMetadata : gmap string Json) (g : Game) (e : JsError) :
  genreCallback selectedGenres gameMetadata g = Throw e → e = TypeError.
Proof.
  unfold genreCallback.
  destruct (truthy _); simpl; [|discriminate].
  destruct (truthy _); simpl; [|discriminate].
  intros (sg & _ & Hsg)%every_throws. unfold hasGenre in Hsg.
  destruct (prop "genres" _); try (by injection Hsg as <-).
  by apply some_throws_TypeError in Hsg.
Qed.

(** X9: a cached profile whose [genres] is a value other than an array
    (and not a falsy one) makes the genre filter throw a [TypeError] as
    soon as a genre is selected and a game with that profile reaches the
    filter. *)
Theorem genreFilter_malformed_throws (selectedGenres : list string)
    (gameMetadata : gmap string Json) (result : list Game) (g : Game) (meta : Json) :
  selectedGenres ≠ [] →
  g ∈ result →
  gameMetadata !! pretty (appid g) = Some meta →
  truthy meta = true →
  truthy (prop "genres" meta) = true →
  (∀ items, prop "genres" meta ≠ JArr items) →
  genreFilter selectedGenres gameMetadata result = Throw TypeError.
Proof.
  intros Hsel Hg Hmeta Htm Htg Hna. unfold genreFilter.
  assert ((0 <? length selectedGenres)%nat = true) as ->
    by (by destruct selectedGenres).
  destruct (filterM_throws (genreCallback selectedGenres gameMetadata) result g Hg)
    as (y & e & _ & Hy & ->).
  { unfold genreCallback. rewrite Hmeta. simpl. rewrite Htm, Htg. simpl.
    destruct selectedGenres as [|sg rest]; [done|]. simpl. unfold hasGenre.
    destruct (prop "genres" meta); try by eexists.
    by destruct (Hna items). }
  f_equal. by apply genreCallback_throws_TypeError in Hy.
Qed.

Lemma genreFilter_malformed_throws_witness :
  genreFilter ["Action"] {[ "7" := JObj [("genres", JStr "Action")] ]} sampleGames
  = Throw TypeError.
Proof.
  apply (genreFilter_malformed_throws ["Action"] {[ "7" := JObj [("genres", JStr "Action")] ]}
           sampleGames (mkGame 7 "G" 100 "" None) (JObj [("genres", JStr "Action")])).
  - discriminate.
  - right. by left.
  - reflexivity.
  - reflexivity.
  - reflexivity.
  - intros items. discriminate.
Defined.

(** The groups as a map, after one more game. *)
Lemma push_list_to_map (k : string) (g : Game) (groups : list (string * list Game)) :
  (list_to_map (push k g groups) : gmap string (list Game))
  = <[k := default [] ((list_to_map groups : gmap string (list Game)) !! k) ++ [g]]>
      (list_to_map groups).
Proof.
  induction groups as [|[k' gs'] groups IH]; simpl.
  - by rewrite lookup_empty.
  - destruct (String.eqb_spec k k') as [->|Hne]; simpl.
    + by rewrite lookup_insert_eq, insert_insert_eq.
    + rewrite IH, lookup_insert_ne by done. by apply insert_insert_ne.
Qed.

Lemma push_keys (k : string) (g : Game) (groups : list (string * list Game)) (k2 : string) :
  k2 ∈ (push k g groups).*1 → k2 = k ∨ k2 ∈ groups.*1.
Proof.
  induction groups as [|[k' gs'] groups IH]; simpl.
  - intros ->%list_elem_of_singleton. by left.
  - destruct (String.eqb_spec k k') as [->|Hne]; simpl; [by right|].
    rewrite !elem_of_cons. intros [->|Hin]; [right; by left|].
    destruct (IH Hin) as [->|?]; [by left|right; by right].
Qed.

Lemma push_NoDup (k : string) (g : Game) (groups : list (string * list Game)) :
  NoDup groups.*1 → NoDup (push k g groups).*1.
Proof.
  induction groups as [|[k' gs'] groups IH]; simpl.
  - intros _. apply NoDup_singleton.
  - destruct (String.eqb_spec k k') as [->|Hne]; simpl; [done|].
    rewrite !NoDup_cons. intros [Hk' Hnd]. split; [|by apply IH].
    intros [->|Hin]%push_keys; done.
Qed.

(** The groups built over a list: a key has the games of that key, in
    the order of the list, and no group when there is none. *)
Lemma groups_by_key (key : Game → string) (l : list Game) :
  NoDup (foldl (λ groups g, push (key g) g groups) [] l).*1
  ∧ ∀ k, (list_to_map (foldl (λ groups g, push (key g) g groups) [] l)
            : gmap string (list Game)) !! k
         = match filter (λ x, key x = k) l with
           | [] => None
           | gs => Some gs
           end.
Proof.
  induction l as [|g l IH] using rev_ind.
  - split; [constructor|]. intros k. apply lookup_empty.
  - destruct IH as [IHnd IHmap]. rewrite foldl_app. simpl.
    split; [by apply push_NoDup|]. intros k.
    rewrite push_list_to_map, filter_app, filter_cons, filter_nil.
    destruct (decide (key g = k)) as [<-|Hne].
    + rewrite lookup_insert_eq, IHmap.
      destruct (filter (λ x, key x = key g) l); simpl; [done|done].
    + rewrite lookup_insert_ne, IHmap, app_nil_r by done. done.
Qed.

(** X10: grouped by status or by initial letter, the games of the vault
    fall into groups with distinct keys, none empty; the group of a key
    holds exactly the games of that key, in the order of the vault. *)
Theorem groupedGames_partition (masteredAppIds : list Z) (games : list Game) :
  groupedGames GroupNone masteredAppIds games = [("All", games)]
  ∧ (NoDup (groupedGames GroupStatus masteredAppIds games).*1
     ∧ ∀ k gs, (k, gs) ∈ groupedGames GroupStatus masteredAppIds games
               ↔ gs = filter (λ g, statusOf masteredAppIds g = k) games ∧ gs ≠ [])
  ∧ (NoDup (groupedGames GroupAlpha masteredAppIds games).*1
     ∧ ∀ k gs, (k, gs) ∈ groupedGames GroupAlpha masteredAppIds games
               ↔ gs = filter (λ g, letterOf g = k) games ∧ gs ≠ []).
Proof.
  assert (∀ key : Game → string,
            let groups := foldl (λ groups g, push (key g) g groups) [] games in
            NoDup groups.*1
            ∧ ∀ k gs, (k, gs) ∈ groups
                      ↔ gs = filter (λ g, key g = k) games ∧ gs ≠ []) as Hgroups.
  { intros key groups. subst groups.
    destruct (groups_by_key key games) as [Hnd Hmap]. split; [done|].
    intros k gs. rewrite (elem_of_list_to_map (M := gmap string)) by done.
    rewrite Hmap. destruct (filter (λ g, key g = k) games) as [|x xs].
    - split; [discriminate|]. by intros [-> ?].
    - split; [by intros [= <-]|]. by intros [-> _]. }
  split; [done|]. split.
  - apply (Hgroups (statusOf masteredAppIds)).
  - apply (Hgroups letterOf).
Qed.

(** ** The mastery checks, continued *)

Section MasteryRuns.
Variable resolve : Z → Res Json.

Lemma checkGame_cases (mastered : list Z) (game : Game) :
  checkGame resolve mastered game = mastered
  ∨ (checkGame resolve mastered game = mastered ++ [appid game]
     ∧ (appid game ∉ mastered)
     ∧ tryMastered resolve (appid game) = Ok true).
Proof.
  unfold checkGame. destruct (tryMastered resolve (appid game)) as [[]|]; try by left.
  destruct (includes mastered (appid game)) eqn:Hin; [by left|right].
  split; [done|]. split; [|done]. intros Hx%includes_elem_of. congruence.
Qed.

(** A run appends to the list it starts from: identifiers it did not
    have, each once, each of a checked game found fully achieved. *)
Lemma foldl_checkGame_appends (l : list Game) (mastered : list Z) :
  ∃ added,
    foldl (checkGame resolve) mastered l = mastered ++ added
    ∧ NoDup added
    ∧ ∀ x, x ∈ added →
        (x ∉ mastered)
        ∧ ∃ game, game ∈ l ∧ appid game = x ∧ tryMastered resolve x = Ok true.
Proof.
  revert mastered. induction l as [|g l IH]; intros mastered.
  - exists []. rewrite app_nil_r. split; [done|]. split; [constructor|].
    intros x Hx. inversion Hx.
  - simpl. destruct (checkGame_cases mastered g) as [->|(-> & Hnew & Hok)].
    + destruct (IH mastered) as (added & -> & Hnd & Hadded).
      exists added. split; [done|]. split; [done|].
      intros x Hx. destruct (Hadded x Hx) as (? & game & ? & ? & ?).
      split; [done|]. exists game. split; [by right|done].
    + destruct (IH (mastered ++ [appid g])) as (added & -> & Hnd & Hadded).
      exists (appid g :: added). rewrite <- app_assoc. split; [done|]. split.
      * apply NoDup_cons. split; [|done]. intros Hin.
        destruct (Hadded _ Hin) as [Hout _]. apply Hout, elem_of_app. right. by left.
      * intros x [->|Hx]%elem_of_cons.
        { split; [done|]. exists g. split; [by left|done]. }
        destruct (Hadded x Hx) as (Hout & game & ? & ? & ?). split.
        { intros Hm. apply Hout, elem_of_app. by left. }
        exists game. split; [by right|done].
Qed.

Lemma foldl_checkGame_fixed (l : list Game) (mastered : list Z) :
  (∀ game, game ∈ l → tryMastered resolve (appid game) = Ok true →
     appid game ∈ mastered) →
  foldl (checkGame resolve) mastered l = mastered.
Proof.
  induction l as [|g l IH]; intros Hall; [done|]. simpl.
  destruct (checkGame_cases mastered g) as [->|(_ & Hnew & Hok)].
  - apply IH. intros game Hgame. apply Hall. by right.
  - destruct Hnew. apply Hall; [by left|done].
Qed.

(** X11: a run of the mastery effect appends to the list it starts
    from, without repeating an identifier it appends and only
    identifiers of checked games it did not have; a list without
    repetition stays so; and a second run against the same responses
    changes nothing. *)
Theorem verifyMastery_appends (games : list Game) (steamId : string)
    (masteredAppIds : list Z) :
  (∃ added,
     verifyMastery resolve games steamId masteredAppIds = masteredAppIds ++ added
     ∧ NoDup added
     ∧ ∀ x, x ∈ added →
         (x ∉ masteredAppIds) ∧ ∃ game, game ∈ checkList games ∧ appid game = x)
  ∧ (NoDup masteredAppIds →
     NoDup (verifyMastery resolve games steamId masteredAppIds))
  ∧ verifyMastery resolve games steamId
      (verifyMastery resolve games steamId masteredAppIds)
    = verifyMastery resolve games steamId masteredAppIds.
Proof.
  unfold verifyMastery.
  destruct ((length games =? 0)%nat || String.eqb steamId "") eqn:Hguard.
  { split; [|done]. exists []. rewrite app_nil_r. split; [done|].
    split; [constructor|]. intros x Hx. inversion Hx. }
  destruct (foldl_checkGame_appends (checkList games) masteredAppIds)
    as (added & Hrun & Hnd & Hadded).
  split; [|split].
  - exists added. split; [done|]. split; [done|].
    intros x Hx. destruct (Hadded x Hx) as (? & game & ? & ? & _).
    split; [done|]. by exists game.
  - intros Hm. rewrite Hrun. apply NoDup_app. split; [done|]. split; [|done].
    intros x Hx Hin. by destruct (Hadded x Hin) as [? _].
  - apply foldl_checkGame_fixed. intros game Hgame Hok.
    by apply foldl_checkGame_adds.
Qed.

Lemma classify_exclusive (data : Json) (m h : bool) :
  classify data = Ok (m, h) → m = true → h = false.
Proof.
  unfold classify. destruct (dot "achievements" data) as [a|]; [|done]. simpl.
  destruct (qdot "achievements" _); try by intros [= <- <-].
  destruct (_ && _); [|by intros [= <- <-]].
  destruct (mapM _ _) as [flags|]; [|done]. simpl.
  destruct (0 <? _); [|by intros [= <- <-]].
  intros [= <- <-] Heq. apply Qeq_bool_iff in Heq.
  apply andb_false_iff. right. apply negb_false_iff, Qle_bool_iff.
  rewrite Heq. apply Qle_refl.
Qed.

Lemma foldl_classifyGame_elem_of (l : list Game) (lists : list Z * list Z) (x : Z) :
  (x ∈ (foldl (classifyGame resolve) lists l).1 →
   x ∈ lists.1 ∨ ∃ g h, g ∈ l ∧ appid g = x ∧ tryClassify resolve x = Ok (true, h))
  ∧ (x ∈ (foldl (classifyGame resolve) lists l).2 →
     x ∈ lists.2 ∨ ∃ g m, g ∈ l ∧ appid g = x ∧ tryClassify resolve x = Ok (m, true)).
Proof.
  revert lists. induction l as [|g l IH]; intros lists; [by split; left|].
  simpl. destruct (IH (classifyGame resolve lists g)) as [IH1 IH2].
  assert (∀ P : Game → Prop, (∃ g', g' ∈ l ∧ P g') → ∃ g', g' ∈ g :: l ∧ P g') as Hweak.
  { intros P (g' & ? & ?). exists g'. split; [by right|done]. }
  unfold classifyGame in IH1, IH2 |- *.
  destruct (tryClassify resolve (appid g)) as [[m h]|] eqn:Hg; simpl in *.
  - split.
    + intros [Hin|(g' & h' & ? & ? & ?)]%IH1; [|right; exists g', h'; split; [by right|done]].
      destruct m; [|by left].
      apply elem_of_app in Hin as [?| ->%list_elem_of_singleton]; [by left|right].
      exists g, h. split; [by left|done].
    + intros [Hin|(g' & m' & ? & ? & ?)]%IH2; [|right; exists g', m'; split; [by right|done]].
      destruct h; [|by left].
      apply elem_of_app in Hin as [?| ->%list_elem_of_singleton]; [by left|right].
      exists g, m. split; [by left|done].
  - split.
    + intros [?|(g' & h' & ? & ? & ?)]%IH1; [by left|right].
      exists g', h'. split; [by right|done].
    + intros [?|(g' & m' & ? & ? & ?)]%IH2; [by left|right].
      exists g', m'. split; [by right|done].
Qed.

Lemma inlineTargets_cases (games : list Game) :
  inlineTargets games = take 15 (sort byPlaytime games)
  ∨ ∃ elden, inlineTargets games = take 15 (sort byPlaytime games) ++ [elden]
             ∧ elden ∈ games ∧ appid elden = ELDEN_RING.
Proof.
  unfold inlineTargets. destruct (existsb _ _); [by left|].
  destruct (List.find _ games) as [elden|] eqn:Hfind; [right|by left].
  exists elden. split; [done|]. apply find_some in Hfind as [Hin Hid].
  split; [by apply list_elem_of_In|]. by apply Z.eqb_eq.
Qed.

(** X12: the inline check looks at no more than sixteen games, all of
    the library, the game of the fixed identifier among them whenever
    the library has it; what it lists as mastered or as hunter target is
    the identifier of a game it looked at, and no identifier is on both
    lists. *)
Theorem inlineVerifyMastery_lists (games : list Game) (mastered hunters : list Z) :
  inlineVerifyMastery resolve games = Some (mastered, hunters) →
  (length (inlineTargets games) ≤ 16)%nat
  ∧ (∀ g, g ∈ inlineTargets games → g ∈ games)
  ∧ ((∃ g, g ∈ games ∧ appid g = ELDEN_RING) →
     ∃ g, g ∈ inlineTargets games ∧ appid g = ELDEN_RING)
  ∧ (∀ x, x ∈ mastered ∨ x ∈ hunters → ∃ g, g ∈ inlineTargets games ∧ appid g = x)
  ∧ ∀ x, x ∈ mastered → x ∉ hunters.
Proof.
  unfold inlineVerifyMastery. destruct (_ =? _)%nat; [done|]. intros [= Hrun].
  assert (∀ x, (x ∈ mastered →
                ∃ g h, g ∈ inlineTargets games ∧ appid g = x
                       ∧ tryClassify resolve x = Ok (true, h))
               ∧ (x ∈ hunters →
                  ∃ g m, g ∈ inlineTargets games ∧ appid g = x
                         ∧ tryClassify resolve x = Ok (m, true))) as Hlists.
  { intros x.
    destruct (foldl_classifyGame_elem_of (inlineTargets games) ([], []) x) as [H1 H2].
    rewrite Hrun in H1, H2. simpl in H1, H2. split.
    - intros Hx. destruct (H1 Hx) as [Hnil|?]; [inversion Hnil|done].
    - intros Hx. destruct (H2 Hx) as [Hnil|?]; [inversion Hnil|done]. }
  split; [|split; [|split; [|split]]].
  - destruct (inlineTargets_cases games) as [->|(elden & -> & _)].
    + rewrite length_take. lia.
    + rewrite length_app, length_take. change (length [elden]) with 1%nat. lia.
  - intros g Hg. destruct (inlineTargets_cases games) as [Heq|(elden & Heq & Hin & _)];
      rewrite Heq in Hg.
    + apply (subseteq_take 15) in Hg. by apply sort_elem_of in Hg.
    + apply elem_of_app in Hg as [Hg| ->%list_elem_of_singleton]; [|done].
      apply (subseteq_take 15) in Hg. by apply sort_elem_of in Hg.
  - intros (g & Hg & Hid). unfold inlineTargets.
    destruct (existsb _ (take 15 (sort byPlaytime games))) eqn:Hex.
    + apply existsb_exists in Hex as (t & Ht & Htid).
      exists t. split; [by apply list_elem_of_In|]. by apply Z.eqb_eq.
    + destruct (List.find (λ g, appid g =? ELDEN_RING) games) as [elden|] eqn:Hfind.
      * apply find_some in Hfind as [_ Heid]. exists elden.
        split; [apply elem_of_app; right; by left|]. by apply Z.eqb_eq.
      * apply list_elem_of_In in Hg. apply (find_none _ _ Hfind) in Hg.
        apply Z.eqb_neq in Hg. done.
  - intros x [Hx|Hx].
    + destruct (proj1 (Hlists x) Hx) as (g & _ & ? & ? & _). by exists g.
    + destruct (proj2 (Hlists x) Hx) as (g & _ & ? & ? & _). by exists g.
  - intros x Hm Hh.
    destruct (proj1 (Hlists x) Hm) as (_ & h & _ & _ & Hc1).
    destruct (proj2 (Hlists x) Hh) as (_ & m & _ & _ & Hc2).
    rewrite Hc1 in Hc2. injection Hc2 as <- ->.
    unfold tryClassify in Hc1. destruct (resolve x) as [data|]; [|done]. simpl in Hc1.
    by apply classify_exclusive in Hc1.
Qed.
End MasteryRuns.

Lemma inlineVerifyMastery_lists_witness :
  (length (inlineTargets sampleGames) ≤ 16)%nat
  ∧ (∀ g, g ∈ inlineTargets sampleGames → g ∈ sampleGames)
  ∧ ((∃ g, g ∈ sampleGames ∧ appid g = ELDEN_RING) →
     ∃ g, g ∈ inlineTargets sampleGames ∧ appid g = ELDEN_RING)
  ∧ (∀ x, x ∈ [7] ∨ x ∈ [8] → ∃ g, g ∈ inlineTargets sampleGames ∧ appid g = x)
  ∧ ∀ x, x ∈ [7] → x ∉ [8].
Proof. apply (inlineVerifyMastery_lists sampleResolve sampleGames [7] [8]). reflexivity. Defined.

(** ** The achievement list, continued *)

Lemma mapM_Forall2 {A B : Type} (f : A → Res B) (l : list A) (r : list B) :
  mapM f l = Ok r → Forall2 (λ x y, f x = Ok y) l r.
Proof.
  revert r. induction l as [|x l IH]; intros r; simpl.
  - intros [= <-]. constructor.
  - destruct (f x) as [y|] eqn:Hx; simpl; [|done].
    destruct (mapM f l) as [r'|]; simpl; [|done].
    intros [= <-]. constructor; [done|by apply IH].
Qed.






(** X15: whatever the rejection of the player-achievement request, the
    body the endpoint sends makes neither mastery check count the game,
    and the achievements hook either reports the private profile or
    finds no player achievement to show. *)
Theorem rejected_request_never_mastered (reason : Json)
    (schemaResponse globalStatsResponse : Settled) :
  let sent := achievementsEndpoint (Rejected reason) schemaResponse globalStatsResponse in
  fullyAchieved sent = Ok false
  ∧ classify sent = Ok (false, false)
  ∧ (responseError sent = Some (JStr "Private Profile")
     ∨ (responseError sent = None
        ∧ js_or (qdot "achievements" (qdot "playerstats" (qdot "achievements" sent)))
            (JArr []) = JArr []
        ∧ ∀ schemas globals links previous,
            nullish links = false →
            fetchAchievements sent [] schemas globals links previous
            = mkState [] None false)).
Proof.
  intros sent. subst sent. unfold achievementsEndpoint.
  destruct (strict_eq _ _).
  - split; [reflexivity|]. split; [reflexivity|]. by left.
  - split; [reflexivity|]. split; [reflexivity|]. right.
    split; [reflexivity|]. split; [reflexivity|].
    intros schemas globals links previous Hlinks. reflexivity.
Qed.

(** ** The API server, continued *)

(** X16: the server's key is set by the configuration requests that
    carry one and by nothing else: once a key is in force the upstream
    endpoints stay open whatever requests follow, a request without key
    leaving the key as it was; without any accepted configuration
    request the key is the initial one and the upstream endpoints are
    refused; and the health check reports a configured server exactly
    when the upstream endpoints are open. *)
Theorem server_key_stays_configured (PORT key : Json) (reqs : list Request) :
  let key' := foldl serve key reqs in
  (truthy key = true → truthy key' = true ∧ checkApiKey key' = Next)
  ∧ (key' = key
     ∨ ∃ reqBody, PostConfig reqBody ∈ reqs
                  ∧ dot "apiKey" reqBody = Ok key' ∧ truthy key' = true)
  ∧ (truthy key' = false →
     key' = key
     ∧ checkApiKey key'
       = Sent (mkReply 401 (JObj [("error", JStr "Steam API Key not configured")])))
  ∧ (prop "config" (body (health PORT key')) = JBool true ↔ checkApiKey key' = Next).
Proof.
  intros key'. subst key'.
  assert (∀ k r, serve k r = k
                 ∨ ∃ reqBody, r = PostConfig reqBody
                              ∧ dot "apiKey" reqBody = Ok (serve k r)
                              ∧ truthy (serve k r) = true) as Hstep.
  { intros k [reqBody|]; simpl; [|by left].
    unfold postConfig. destruct (dot "apiKey" reqBody) as [apiKey|] eqn:Hdot; [|by left].
    destruct (truthy apiKey) eqn:Hk; simpl; [|by left].
    right. by exists reqBody. }
  assert (∀ k, foldl serve k reqs = k
               ∨ ∃ reqBody, PostConfig reqBody ∈ reqs
                            ∧ dot "apiKey" reqBody = Ok (foldl serve k reqs)
                            ∧ truthy (foldl serve k reqs) = true)
    as Hfold.
  { induction reqs as [|r reqs IH]; intros k; [by left|]. simpl.
    destruct (IH (serve k r)) as [->|(reqBody & Hin & Hdot & Htr)].
    - destruct (Hstep k r) as [->|(reqBody & -> & Hdot & Htr)]; [by left|right].
      exists reqBody. split; [by left|done].
    - right. exists reqBody. split; [by right|done]. }
  split; [|split; [|split]].
  - intros Hkey.
    assert (truthy (foldl serve key reqs) = true) as Hk'.
    { destruct (Hfold key) as [->|(_ & _ & _ & ?)]; done. }
    split; [done|]. unfold checkApiKey. by rewrite Hk'.
  - apply Hfold.
  - intros Hfalse. unfold checkApiKey. rewrite Hfalse. simpl. split; [|done].
    destruct (Hfold key) as [?|(_ & _ & _ & ?)]; [done|congruence].
  - unfold checkApiKey. simpl. destruct (truthy (foldl serve key reqs)); simpl.
    + done.
    + split; discriminate.
Qed.

Lemma dot_nullish (k : string) (v : Json) : nullish v = true → dot k v = Throw TypeError.
Proof. unfold dot. by intros ->. Qed.

Lemma prop_nullish (k : string) (v : Json) : nullish v = true → prop k v = JUndefined.
Proof. by destruct v. Qed.

(** The two bodies of the store endpoint. *)
Lemma storeEndpoint_cases (upstream : Res Json) (appid : string) :
  (storeEndpoint upstream appid = storeDefault
   ∧ ((∃ e, upstream = Throw e)
      ∨ ∃ responseData,
          upstream = Ok responseData
          ∧ (truthy (prop "success" (prop appid responseData)) = false
             ∨ nullish (prop "data" (prop appid responseData)) = true)))
  ∨ ∃ responseData,
      upstream = Ok responseData
      ∧ truthy (prop "success" (prop appid responseData)) = true
      ∧ storeEndpoint upstream appid
        = let gameData := prop "data" (prop appid responseData) in
          JObj [ ("genres", js_or (prop "genres" gameData) (JArr []));
                 ("categories", js_or (prop "categories" gameData) (JArr []));
                 ("metacritic", js_or (prop "metacritic" gameData) JNull);
                 ("release_date", js_or (prop "release_date" gameData) JNull) ].
Proof.
  destruct upstream as [responseData|e].
  2:{ left. split; [done|]. left. by exists e. }
  assert (storeEndpoint (Ok responseData) appid
          = if nullish responseData then storeDefault
            else if nullish (prop appid responseData) then storeDefault
            else if truthy (prop "success" (prop appid responseData)) then
              if nullish (prop "data" (prop appid responseData)) then storeDefault
              else
                let gameData := prop "data" (prop appid responseData) in
                JObj [ ("genres", js_or (prop "genres" gameData) (JArr []));
                       ("categories", js_or (prop "categories" gameData) (JArr []));
                       ("metacritic", js_or (prop "metacritic" gameData) JNull);
                       ("release_date", js_or (prop "release_date" gameData) JNull) ]
            else storeDefault) as ->.
  { unfold storeEndpoint, dot, mbind, res_bind, mret, res_ret.
    destruct (nullish responseData); [done|].
    destruct (nullish (prop appid responseData)); [done|].
    destruct (truthy (prop "success" (prop appid responseData))); [|done].
    by destruct (nullish (prop "data" (prop appid responseData))). }
  destruct (nullish responseData) eqn:Hn1.
  { left. split; [done|]. right. exists responseData. split; [done|]. left.
    by rewrite (prop_nullish appid responseData). }
  destruct (nullish (prop appid responseData)) eqn:Hn2.
  { left. split; [done|]. right. exists responseData. split; [done|]. left.
    by rewrite (prop_nullish "success" (prop appid responseData)). }
  destruct (truthy (prop "success" (prop appid responseData))) eqn:Hs.
  2:{ left. split; [done|]. right. exists responseData. split; [done|]. by left. }
  destruct (nullish (prop "data" (prop appid responseData))) eqn:Hn3.
  { left. split; [done|]. right. exists responseData. split; [done|]. by right. }
  right. exists responseData. by split.
Qed.

(** X17: the store route answers every request: while no key is
    configured, with the status 401 and the error of the key check;
    once a key is configured, with the status 200 and a body that has a
    genre list and a category list.  When the upstream request fails,
    has no entry for the game or reports no success, that body is the
    empty profile; when upstream reports success with an array of
    genres, the body passes that array on. *)
Theorem storeRoute_answers (STEAM_API_KEY : Json) (upstream : Res Json)
    (appid : string) :
  (truthy STEAM_API_KEY = false →
   storeRoute STEAM_API_KEY upstream appid
   = mkReply 401 (JObj [("error", JStr "Steam API Key not configured")]))
  ∧ (truthy STEAM_API_KEY = true →
     let reply := storeRoute STEAM_API_KEY upstream appid in
     status reply = 200
     ∧ truthy (prop "genres" (body reply)) = true
     ∧ truthy (prop "categories" (body reply)) = true
     ∧ ((∃ e, upstream = Throw e)
        ∨ (∃ responseData,
             upstream = Ok responseData
             ∧ (nullish responseData = true
                ∨ nullish (prop appid responseData) = true
                ∨ truthy (prop "success" (prop appid responseData)) = false)) →
        body reply = storeDefault)
     ∧ ∀ responseData genres,
         upstream = Ok responseData →
         truthy (prop "success" (prop appid responseData)) = true →
         prop "genres" (prop "data" (prop appid responseData)) = JArr genres →
         prop "genres" (body reply) = JArr genres).
Proof.
  split.
  { intros Hkey. unfold storeRoute, checkApiKey. by rewrite Hkey. }
  intros Hkey. unfold storeRoute, checkApiKey. rewrite Hkey. simpl.
  destruct (storeEndpoint_cases upstream appid)
    as [[-> Hwhy]|(responseData & Hup & Hs & ->)].
  - split; [done|]. split; [done|]. split; [done|]. split; [done|].
    intros d genres Hd Hsd Hg.
    destruct Hwhy as [[e ->]|(d' & -> & [Hf|Hn])]; [done|..]; injection Hd as <-.
    + congruence.
    + rewrite (prop_nullish "genres") in Hg by done. done.
  - cbv zeta. split; [done|]. split; [|split; [|split]].
    + simpl. unfold js_or. by destruct (truthy (prop "genres" _)) eqn:Hg.
    + simpl. unfold js_or. by destruct (truthy (prop "categories" _)) eqn:Hc.
    + intros [[e ->]|(d & -> & Hwhy)]; [done|]. injection Hup as <-.
      destruct Hwhy as [Hn|[Hn|Hf]].
      * rewrite (prop_nullish appid), (prop_nullish "success") in Hs by done. done.
      * rewrite (prop_nullish "success") in Hs by done. done.
      * congruence.
    + intros d genres Hd _ Hg. rewrite Hup in Hd. injection Hd as <-.
      simpl. rewrite Hg. reflexivity.
Qed.

(** ** The library scan, continued *)

Section ScanStorage.
Variable fetchStore : Z → Res Json.
Variable stringify : Json → string.

Lemma processFetched_lookup (id : Z) (acc : gmap string string * list Json) (k : string) :
  k ≠ metaKey id → (processFetched fetchStore stringify id acc).1 !! k = acc.1 !! k.
Proof.
  intros Hk. destruct acc as [st s]. unfold processFetched.
  destruct (fetchStore id); simpl; [|done]. by rewrite lookup_insert_ne.
Qed.

Lemma foldl_processFetched_lookup (misses : list Game)
    (acc : gmap string string * list Json) (k : string) :
  (∀ g, g ∈ misses → k ≠ metaKey (appid g)) →
  (foldl (λ acc g, processFetched fetchStore stringify (appid g) acc) acc misses).1 !! k
  = acc.1 !! k.
Proof.
  revert acc. induction misses as [|g misses IH]; intros acc Hk; [done|]. simpl.
  rewrite IH by (intros g' Hg'; apply Hk; by right).
  apply processFetched_lookup, Hk. by left.
Qed.

Lemma processChunk_storage (chunk : list Game) (st : gmap string string) (s : list Json) :
  (processChunk fetchStore stringify chunk st s).1.1
  = (foldl (λ acc g, processFetched fetchStore stringify (appid g) acc)
       (st, (foldl (λ (acc : list Json * Res ()) g,
                      let '(s', o) := processCached st (appid g) (fst acc) in
                      (s', match snd acc with Ok _ => o | Throw e => Throw e end))
                   (s, Ok ())
                   (List.filter (λ g, hasItem st (metaKey (appid g))) chunk)).1)
       (List.filter (λ g, negb (hasItem st (metaKey (appid g)))) chunk)).1.
Proof.
  unfold processChunk.
  destruct (foldl _ (s, Ok ()) _) as [s1 outcome]. simpl.
  by destruct (foldl _ (st, s1) _) as [st2 s2].
Qed.

(** A turn of the loop writes only under the keys of games that had no
    cached profile. *)
Lemma processChunk_lookup (chunk : list Game) (st : gmap string string)
    (s : list Json) (k : string) :
  hasItem st k = true ∨ (∀ id, k ≠ metaKey id) →
  (processChunk fetchStore stringify chunk st s).1.1 !! k = st !! k.
Proof.
  intros Hk. rewrite processChunk_storage, foldl_processFetched_lookup; [done|].
  intros g Hg. apply list_elem_of_In, filter_In in Hg as [_ Hmiss].
  apply negb_true_iff in Hmiss.
  destruct Hk as [Hk|Hk]; [|apply Hk]. intros ->. congruence.
Qed.

Lemma step_lookup (w : World) (e : Event) (k : string) :
  k ≠ "vanguard-genres" →
  hasItem (localStorage w) k = true ∨ (∀ id, k ≠ metaKey id) →
  localStorage (step fetchStore stringify w e).1 !! k = localStorage w !! k.
Proof.
  intros Hgenres Hk. destruct e as [games|j]; simpl.
  - unfold scanLibrary_start. by destruct (isScanning w).
  - unfold scanLibrary_resume. destruct (running w !! j) as [job|]; [|done].
    destruct (cursor job <? length (targetGames job))%nat.
    + pose proof (processChunk_lookup (take 5 (drop (cursor job) (targetGames job)))
                    (localStorage w) (newGenres job) k Hk) as Hchunk.
      destruct (processChunk _ _ _ _ _) as [[st s] [u|err]]; simpl in *; done.
    + destruct (foldlM _ _ _); simpl; by rewrite lookup_insert_ne.
Qed.

(** X18: a scan writes to the storage only the genre list and the
    profiles of games that had none: whatever happens, a cached profile
    keeps its text, and so does every key that is not the key of a
    profile nor that of the genre list, the blacklist among them. *)
Theorem scan_keeps_cache (w : World) (events : list Event) (k : string) :
  k ≠ "vanguard-genres" →
  hasItem (localStorage w) k = true ∨ (∀ id, k ≠ metaKey id) →
  localStorage (run fetchStore stringify w events) !! k = localStorage w !! k.
Proof.
  intros Hgenres. revert w. unfold run.
  induction events as [|e events IH]; intros w Hk; [done|]. simpl.
  rewrite IH, step_lookup; [done|done|done|].
  destruct Hk as [Hk|Hk]; [left|by right].
  unfold hasItem in Hk |- *. by rewrite step_lookup by auto.
Qed.

Lemma set_add_prefix (v : Json) (s : list Json) : s `prefix_of` set_add v s.
Proof. unfold set_add. destruct (existsb _ _); [done|]. by apply prefix_app_r. Qed.

Lemma addEach_prefix (items s : list Json) : s `prefix_of` (addEach items s).1.
Proof.
  revert s. induction items as [|g items IH]; intros s; [done|]. simpl.
  destruct (dot "description" g); [|done].
  etrans; [apply set_add_prefix|apply IH].
Qed.

Lemma addGenres_prefix (meta : Json) (s : list Json) : s `prefix_of` (addGenres meta s).1.
Proof.
  unfold addGenres. destruct (dot "genres" meta) as [genres|]; [|done].
  destruct (nullish genres); [done|].
  destruct genres; try done. apply addEach_prefix.
Qed.

Lemma processCached_prefix (st : gmap string string) (id : Z) (s : list Json) :
  s `prefix_of` (processCached st id s).1.
Proof.
  unfold processCached. destruct (JSON.parse _); [|done]. apply addGenres_prefix.
Qed.

Lemma processFetched_prefix (id : Z) (acc : gmap string string * list Json) :
  acc.2 `prefix_of` (processFetched fetchStore stringify id acc).2.
Proof.
  destruct acc as [st s]. unfold processFetched.
  destruct (fetchStore id); [|done]. apply addGenres_prefix.
Qed.

Lemma processChunk_prefix (chunk : list Game) (st : gmap string string) (s : list Json) :
  s `prefix_of` (processChunk fetchStore stringify chunk st s).1.2.
Proof.
  unfold processChunk.
  assert (∀ hits (acc : list Json * Res ()),
            acc.1 `prefix_of`
            (foldl (λ (acc : list Json * Res ()) g,
                      let '(s', o) := processCached st (appid g) (fst acc) in
                      (s', match snd acc with Ok _ => o | Throw e => Throw e end))
                   acc hits).1) as Hhits.
  { induction hits as [|g hits IH]; intros acc; [done|]. simpl.
    etrans; [|apply IH].
    pose proof (processCached_prefix st (appid g) acc.1) as Hp.
    by destruct (processCached st (appid g) acc.1). }
  assert (∀ misses (acc : gmap string string * list Json),
            acc.2 `prefix_of`
            (foldl (λ acc g, processFetched fetchStore stringify (appid g) acc) acc misses).2)
    as Hmisses.
  { induction misses as [|g misses IH]; intros acc; [done|]. simpl.
    etrans; [apply processFetched_prefix|apply IH]. }
  specialize (Hhits (List.filter (λ g, hasItem st (metaKey (appid g))) chunk) (s, Ok ())).
  destruct (foldl _ (s, Ok ()) _) as [s1 outcome].
  specialize (Hmisses (List.filter (λ g, negb (hasItem st (metaKey (appid g)))) chunk) (st, s1)).
  destruct (foldl _ (st, s1) _) as [st2 s2]. simpl in *. by etrans.
Qed.

Lemma genres_step (w : World) (e : Event) :
  scan_invariant w → genres_invariant w →
  availableGenres w `prefix_of` availableGenres (step fetchStore stringify w e).1
  ∧ genres_invariant (step fetchStore stringify w e).1.
Proof.
  intros (Hflag & Hone & _) Hgen. unfold genres_invariant in *.
  destruct e as [games|j]; simpl.
  - unfold scanLibrary_start. destruct (isScanning w) eqn:Hbusy; [done|].
    simpl. split; [done|]. intros job [Hin| ->%list_elem_of_singleton]%elem_of_app; [auto|done].
  - unfold scanLibrary_resume. destruct (running w !! j) as [job|] eqn:Hjob; [|done].
    assert (availableGenres w `prefix_of` newGenres job) as Hjobgen
      by (by eapply Hgen, list_elem_of_lookup_2).
    destruct (cursor job <? length (targetGames job))%nat.
    + pose proof (processChunk_prefix (take 5 (drop (cursor job) (targetGames job)))
                    (localStorage w) (newGenres job)) as Hchunk.
      destruct (processChunk _ _ _ _ _) as [[st s] [u|err]]; simpl in *.
      * split; [done|]. intros job' Hin.
        apply list_elem_of_lookup in Hin as [i Hi].
        destruct (decide (i = j)) as [->|Hij].
        -- rewrite list_lookup_insert_eq in Hi by (by eapply lookup_lt_Some).
           injection Hi as <-. simpl. by etrans.
        -- rewrite list_lookup_insert_ne in Hi by done.
           by eapply Hgen, list_elem_of_lookup_2.
      * split; [done|]. intros job' Hin. apply Hgen.
        by eapply list_elem_of_delete_inv.
    + rewrite (delete_single _ _ _ Hone Hjob).
      destruct (foldlM _ _ _); simpl; (split; [done|]); intros job' Hin; inversion Hin.
Qed.

Lemma reachable_genres (w : World) :
  reachable fetchStore stringify w → scan_invariant w ∧ genres_invariant w.
Proof.
  induction 1 as [genres meta st|w e Hw [IH1 IH2]].
  - split; [apply (reachable_invariant fetchStore stringify); constructor|].
    intros job Hin. inversion Hin.
  - split; [by apply scan_invariant_step|]. by apply genres_step.
Qed.

(** X19: the genres the component shows are never lost to a scan: after
    any sequence of scan calls and scan progress the list of available
    genres starts with the list it was. *)
Theorem scan_keeps_genres (w : World) (events : list Event) :
  reachable fetchStore stringify w →
  availableGenres w `prefix_of` availableGenres (run fetchStore stringify w events).
Proof.
  revert w. unfold run. induction events as [|e events IH]; intros w Hw; [done|].
  simpl. destruct (reachable_genres w Hw) as [Hscan Hgen].
  etrans; [apply (genres_step w e Hscan Hgen)|].
  apply IH. by constructor.
Qed.
End ScanStorage.

Lemma scan_keeps_cache_witness :
  localStorage (run sampleStore sampleStringify idleWorld
                  [Invoke sampleGames; Resume 0; Resume 0]) !! "vanguard-blacklist"
  = localStorage idleWorld !! "vanguard-blacklist".
Proof.
  apply (scan_keeps_cache sampleStore sampleStringify idleWorld
           [Invoke sampleGames; Resume 0; Resume 0] "vanguard-blacklist").
  - discriminate.
  - left. reflexivity.
Defined.

Lemma scan_keeps_genres_witness :
  availableGenres idleWorld
  `prefix_of` availableGenres (run sampleStore sampleStringify idleWorld
                                 [Invoke sampleGames; Resume 0; Resume 0]).
Proof.
  apply (scan_keeps_genres sampleStore sampleStringify idleWorld
           [Invoke sampleGames; Resume 0; Resume 0]).
  constructor.
Defined.

(** ** Numbers in keys and in stored texts *)

Lemma pretty_N_char_digit (m : N) :
  (m < 10)%N →
  is_digit (pretty_N_char m) = true ∧ code (pretty_N_char m) - 48 = Z.of_N m.
Proof.
  intros Hm.
  assert (m = 0 ∨ m = 1 ∨ m = 2 ∨ m = 3 ∨ m = 4 ∨ m = 5 ∨ m = 6 ∨ m = 7 ∨ m = 8 ∨ m = 9)%N
    as Hcases by lia.
  repeat (destruct Hcases as [->|Hcases]; [by vm_compute|]). subst m. by vm_compute.
Qed.

(** The decimal digits of a natural number, as [pretty] writes them:
    digits only, no leading zero, and the number as their value. *)
Lemma pretty_N_go_digits (x : N) (s : string) :
  ∃ d, list_ascii_of_string (pretty_N_go x s) = d ++ list_ascii_of_string s
       ∧ forallb is_digit d = true
       ∧ (∀ acc, foldl (λ acc c, 10 * acc + (code c - 48)) acc d
                 = acc * 10 ^ Z.of_nat (length d) + Z.of_N x)
       ∧ (x = 0%N → d = [])
       ∧ ((0 < x)%N → ∃ c d', d = c :: d' ∧ code c ≠ 48).
Proof.
  revert s. induction (N.lt_wf_0 x) as [x _ IH]; intros s.
  destruct (decide (x = 0%N)) as [->|Hx].
  { exists []. rewrite pretty_N_go_0. split; [done|]. split; [done|].
    split; [intros acc; simpl; lia|]. split; [done|lia]. }
  assert (0 < x)%N as Hpos by lia.
  rewrite pretty_N_go_step by done.
  destruct (IH (x `div` 10)%N (N.div_lt x 10 Hpos eq_refl)
              (String (pretty_N_char (x `mod` 10)) s))
    as (d & Hd & Hdigits & Hval & Hzero & Hhead).
  destruct (pretty_N_char_digit (x `mod` 10)%N) as [Hc Hcv];
    [by apply N.mod_lt|].
  exists (d ++ [pretty_N_char (x `mod` 10)]).
  split; [by rewrite Hd, <- app_assoc|].
  split; [by rewrite forallb_app, Hdigits; simpl; rewrite Hc|].
  split.
  { intros acc. rewrite foldl_app, Hval, length_app. simpl. rewrite Hcv.
    rewrite Nat2Z.inj_add, Z.pow_add_r by lia.
    pose proof (N.div_mod x 10 ltac:(done)) as Hdm.
    change (Z.of_nat 1) with 1. rewrite Z.pow_1_r.
    assert (Z.of_N x = 10 * Z.of_N (x `div` 10) + Z.of_N (x `mod` 10)) as -> by lia.
    ring. }
  split; [done|]. intros _.
  destruct (decide (x `div` 10 = 0)%N) as [Hsmall|Hbig].
  - rewrite (Hzero Hsmall). exists (pretty_N_char (x `mod` 10)), []. split; [done|].
    assert (x `mod` 10 ≠ 0)%N as Hmod.
    { pose proof (N.div_mod x 10 ltac:(done)). lia. }
    lia.
  - assert (0 < x `div` 10)%N as Hdiv by (by apply N.neq_0_lt_0).
    destruct (Hhead Hdiv) as (c & d' & -> & Hc0).
    exists c, (d' ++ [pretty_N_char (x `mod` 10)]). done.
Qed.

(** The characters of an integer written in decimal: an optional minus
    sign, then its digits. *)
Lemma pretty_Z_chars (z : Z) :
  ∃ d, list_ascii_of_string (pretty z)
       = (if z <? 0 then [ascii_of_N 45] else []) ++ d
       ∧ forallb is_digit d = true
       ∧ digits_val d = Z.abs z
       ∧ (d = [ascii_of_N 48] ∨ ∃ c d', d = c :: d' ∧ code c ≠ 48).
Proof.
  assert (∀ p, ∃ d, list_ascii_of_string (pretty (Npos p)) = d
                    ∧ forallb is_digit d = true
                    ∧ digits_val d = Z.pos p
                    ∧ ∃ c d', d = c :: d' ∧ code c ≠ 48) as Hpos.
  { intros p. unfold pretty, pretty_N. rewrite decide_False by done.
    destruct (pretty_N_go_digits (Npos p) "") as (d & Hd & Hdigits & Hval & _ & Hhead).
    exists d. simpl in Hd. rewrite app_nil_r in Hd. split; [done|]. split; [done|].
    split; [|apply Hhead; lia]. unfold digits_val. rewrite Hval. simpl. lia. }
  destruct z as [|p|p].
  - exists [ascii_of_N 48]. split; [done|]. split; [done|]. split; [done|]. by left.
  - destruct (Hpos p) as (d & Hd & ? & ? & ?). exists d.
    split; [exact Hd|]. split; [done|]. split; [done|]. by right.
  - destruct (Hpos p) as (d & Hd & ? & ? & ?). exists d.
    split; [|split; [done|split; [done|by right]]].
    change (list_ascii_of_string (pretty (Z.neg p)))
      with ("-"%char :: list_ascii_of_string (pretty (Npos p))).
    rewrite Hd. reflexivity.
Qed.

Lemma span_digits_app (d r : list ascii) :
  forallb is_digit d = true →
  match r with c :: _ => is_digit c = false | [] => True end →
  span_digits (d ++ r) = (d, r).
Proof.
  intros Hd Hr. induction d as [|c d IH]; simpl.
  - destruct r as [|c r]; [done|]. simpl. by rewrite Hr.
  - simpl in Hd. apply andb_true_iff in Hd as [Hc Hd]. by rewrite Hc, IH.
Qed.

Lemma is_digit_code (c : ascii) : is_digit c = true ↔ 48 ≤ code c ≤ 57.
Proof. unfold is_digit. rewrite andb_true_iff, !Z.leb_le. done. Qed.

(** The digits [parseInt] reads off a canonical decimal text. *)
Lemma parseInt_digits (sgn : Z) (d : list ascii) :
  forallb is_digit d = true →
  d = [ascii_of_N 48] ∨ (∃ c d', d = c :: d' ∧ code c ≠ 48) →
  match d with
  | z :: x :: h =>
      if (code z =? 48) && ((code x =? 120) || (code x =? 88)) then
        let '(v, n) := span_hex h 0 0 in
        match n with O => None | S _ => Some (sgn * v) end
      else
        match fst (span_digits d) with
        | [] => None
        | d0 => Some (sgn * digits_val d0)
        end
  | _ =>
      match fst (span_digits d) with
      | [] => None
      | d0 => Some (sgn * digits_val d0)
      end
  end = Some (sgn * digits_val d).
Proof.
  intros Hdigits Hhead.
  assert (fst (span_digits d) = d) as Hspan.
  { pose proof (span_digits_app d [] Hdigits I) as Hs. rewrite app_nil_r in Hs.
    by rewrite Hs. }
  rewrite Hspan. destruct Hhead as [->|(c & d' & -> & Hc)]; [done|].
  destruct d' as [|x h]; [done|].
  apply Z.eqb_neq in Hc. by rewrite Hc.
Qed.

(** Reading back the decimal text of an integer gives the integer. *)
Lemma parseInt_pretty (z : Z) : parseInt (pretty z) = Some z.
Proof.
  destruct (pretty_Z_chars z) as (d & Hchars & Hdigits & Hval & Hhead).
  unfold parseInt. rewrite Hchars.
  destruct (z <? 0) eqn:Hneg; cbn [app].
  - apply Z.ltb_lt in Hneg.
    change (skip_spaces (ascii_of_N 45 :: d)) with (ascii_of_N 45 :: d).
    change (code (ascii_of_N 45) =? 43) with false.
    change (code (ascii_of_N 45) =? 45) with true.
    transitivity (Some (-1 * digits_val d));
      [exact (parseInt_digits (-1) d Hdigits Hhead)|f_equal; lia].
  - apply Z.ltb_ge in Hneg.
    assert (∃ c d', d = c :: d' ∧ is_digit c = true) as (c & d' & Hd & Hc).
    { destruct Hhead as [->|(c & d' & -> & _)]; [by eexists _, _|].
      exists c, d'. split; [done|]. simpl in Hdigits.
      by apply andb_true_iff in Hdigits as [? _]. }
    apply is_digit_code in Hc. subst d.
    assert (is_space c = false) as Hsp.
    { unfold is_space.
      assert ((9 <=? code c) && (code c <=? 13) = false) as ->
        by (rewrite andb_false_iff, !Z.leb_gt; lia).
      simpl. apply Z.eqb_neq. lia. }
    assert (skip_spaces (c :: d') = c :: d') as -> by (simpl; by rewrite Hsp).
    assert ((code c =? 43) = false) as -> by (rewrite Z.eqb_neq; lia).
    assert ((code c =? 45) = false) as -> by (rewrite Z.eqb_neq; lia).
    transitivity (Some (1 * digits_val (c :: d')));
      [exact (parseInt_digits 1 (c :: d') Hdigits Hhead)|f_equal; lia].
Qed.

Lemma startsWith_app (p s : string) : startsWith p (p +:+ s) = true.
Proof.
  unfold startsWith. induction p as [|c p IH]; simpl.
  - by destruct s.
  - destruct (ascii_dec c c); [done|congruence].
Qed.

Lemma str_drop_app (p s : string) : str_drop (String.length p) (p +:+ s) = s.
Proof. induction p as [|c p IH]; simpl; [by destruct s|done]. Qed.

(** An entry stored under the key of a game is filed at the game's
    identifier, or skipped when its text does not parse. *)
Lemma loadMetadataEntry_metaKey (meta : gmap string Json) (id : Z) (text : string) :
  loadMetadataEntry meta (metaKey id, text)
  = match JSON.parse text with
    | Ok v => Ok (<[pretty id := v]> meta)
    | Throw _ => Ok meta
    end.
Proof.
  unfold loadMetadataEntry, metaKey.
  rewrite startsWith_app, str_drop_app, parseInt_pretty. unfold number_key.
  by destruct (JSON.parse text).
Qed.

Lemma metaKey_inj (a b : Z) : metaKey a = metaKey b → a = b.
Proof. unfold metaKey, META_PREFIX. simpl. intros [= H]. by apply (inj pretty). Qed.

Lemma foldlM_app {A B : Type} (f : B → A → Res B) (b : B) (l1 l2 : list A) :
  foldlM f b (l1 ++ l2) = match foldlM f b l1 with
                          | Ok b' => foldlM f b' l2
                          | Throw e => Throw e
                          end.
Proof.
  revert b. induction l1 as [|x l1 IH]; intros b; simpl; [done|].
  destruct (f b x); [apply IH|done].
Qed.

(** The initializer over a list of entries with distinct keys, the
    keys of profiles being keys of games. *)
Lemma foldlM_loadMetadataEntry (l : list (string * string)) :
  NoDup l.*1 →
  (∀ key text, (key, text) ∈ l → startsWith META_PREFIX key = true →
     ∃ id, key = metaKey id) →
  ∃ meta,
    foldlM loadMetadataEntry ∅ l = Ok meta
    ∧ ∀ id, meta !! pretty id
            = match (list_to_map l : gmap string string) !! metaKey id with
              | Some text =>
                  match JSON.parse text with Ok v => Some v | Throw _ => None end
              | None => None
              end.
Proof.
  induction l as [|[key text] l IH] using rev_ind; intros Hnd Hcanon.
  { exists ∅. split; [done|]. intros id. by rewrite !lookup_empty. }
  rewrite fmap_app in Hnd. apply NoDup_app in Hnd as (Hnd & Hnew & _).
  assert (key ∉ l.*1) as Hkey.
  { intros Hin. apply (Hnew key Hin). simpl. by left. }
  destruct IH as (meta & Hmeta & Hlookup); [done| |].
  { intros k t Hin. apply (Hcanon k t), elem_of_app. by left. }
  rewrite foldlM_app, Hmeta. cbn [foldlM].
  assert (∀ id, (list_to_map (l ++ [(key, text)]) : gmap string string) !! metaKey id
                = if decide (metaKey id = key) then Some text
                  else (list_to_map l : gmap string string) !! metaKey id) as Hsnoc.
  { intros id. rewrite list_to_map_snoc by done.
    destruct (decide (metaKey id = key)) as [->|Hne].
    - by rewrite lookup_insert_eq.
    - by rewrite lookup_insert_ne. }
  destruct (startsWith META_PREFIX key) eqn:Hprefix.
  - destruct (Hcanon key text) as [id0 ->]; [apply elem_of_app; right; by left|done|].
    rewrite loadMetadataEntry_metaKey.
    assert (meta !! pretty id0 = None) as Hfresh.
    { rewrite Hlookup.
      by rewrite (not_elem_of_list_to_map_1 (M := gmap string) l (metaKey id0) Hkey). }
    destruct (JSON.parse text) as [v|e] eqn:Hparse.
    + exists (<[pretty id0 := v]> meta). split; [done|]. intros id. rewrite Hsnoc.
      destruct (decide (metaKey id = metaKey id0)) as [Heq|Hne].
      * apply metaKey_inj in Heq as ->. by rewrite lookup_insert_eq, Hparse.
      * rewrite lookup_insert_ne; [apply Hlookup|].
        intros Heq. apply Hne. f_equal. symmetry. by apply (inj pretty).
    + exists meta. split; [done|]. intros id. rewrite Hsnoc.
      destruct (decide (metaKey id = metaKey id0)) as [Heq|Hne]; [|apply Hlookup].
      apply metaKey_inj in Heq as ->. by rewrite Hparse.
  - exists meta. split.
    + unfold loadMetadataEntry. by rewrite Hprefix.
    + intros id. rewrite Hsnoc, decide_False; [apply Hlookup|].
      intros <-. unfold metaKey in Hprefix. by rewrite startsWith_app in Hprefix.
Qed.

(** X20: cached profiles survive a reload.  The initializer of the
    metadata state files the entry stored under the key of a game at
    the game's identifier, where the scan and the genre filter look it
    up, and skips it when its text does not parse; in a storage whose
    profile keys are all keys of games, the state it builds has, for
    every game, the cached profile that parses, and nothing otherwise. *)
Theorem metadata_survives_reload (st : gmap string string) :
  (∀ meta id text,
     loadMetadataEntry meta (metaKey id, text)
     = match JSON.parse text with
       | Ok v => Ok (<[pretty id := v]> meta)
       | Throw _ => Ok meta
       end)
  ∧ ((∀ key text, st !! key = Some text → startsWith META_PREFIX key = true →
        ∃ id, key = metaKey id) →
     ∃ meta,
       gameMetadataInitializer st = Ok meta
       ∧ ∀ id, meta !! pretty id
               = match st !! metaKey id with
                 | Some text =>
                     match JSON.parse text with Ok v => Some v | Throw _ => None end
                 | None => None
                 end).
Proof.
  split; [intros meta id text; apply loadMetadataEntry_metaKey|].
  intros Hcanon. unfold gameMetadataInitializer.
  destruct (foldlM_loadMetadataEntry (map_to_list st)) as (meta & Hmeta & Hlookup).
  - apply NoDup_fst_map_to_list.
  - intros key text Hin%elem_of_map_to_list. by apply (Hcanon key text).
  - exists meta. split; [done|]. intros id.
    by rewrite Hlookup, list_to_map_to_list.
Qed.

Lemma metadata_survives_reload_witness :
  ∃ meta,
    gameMetadataInitializer (<[metaKey 7 := "{}"]> ∅) = Ok meta
    ∧ ∀ id, meta !! pretty id
            = match (<[metaKey 7 := "{}"]> ∅ : gmap string string) !! metaKey id with
              | Some text =>
                  match JSON.parse text with Ok v => Some v | Throw _ => None end
              | None => None
              end.
Proof.
  refine (proj2 (metadata_survives_reload (<[metaKey 7 := "{}"]> ∅)) _).
  intros key text Hkey _. exists 7.
  apply lookup_insert_Some in Hkey as [[<- _]|[_ Hkey]]; [done|].
  by rewrite lookup_empty in Hkey.
Defined.

(** ** A failed store lookup, end to end *)

(** X21: when the upstream store request for a game fails, the endpoint
    answers with the empty profile and the scan caches it under the
    game's key, adding no genre; the text written being non-empty, the
    game then counts as profiled and later scans leave it out. *)
Theorem failed_lookup_is_cached (upstream : Z → Res Json) (stringify : Json → string)
    (id : Z) (st : gmap string string) (s : list Json) (games : list Game) :
  (∃ e, upstream id = Throw e) →
  stringify storeDefault ≠ "" →
  let fetchStore := λ gameId, Ok (storeEndpoint (upstream gameId) (pretty gameId)) in
  let after := processFetched fetchStore stringify id (st, s) in
  after = (<[metaKey id := stringify storeDefault]> st, s)
  ∧ hasItem after.1 (metaKey id) = true
  ∧ ∀ g, g ∈ List.filter (λ g, negb (hasItem after.1 (metaKey (appid g)))) games →
      appid g ≠ id.
Proof.
  intros [e He] Hwritten fetchStore after.
  assert (after = (<[metaKey id := stringify storeDefault]> st, s)) as Hafter.
  { subst after fetchStore. unfold processFetched. by rewrite He. }
  assert (hasItem after.1 (metaKey id) = true) as Hhas.
  { rewrite Hafter. unfold hasItem. simpl. rewrite lookup_insert_eq.
    apply negb_true_iff, String.eqb_neq. done. }
  split; [done|]. split; [done|].
  intros g Hg%list_elem_of_In%filter_In Hid. destruct Hg as [_ Hg].
  rewrite Hid, Hhas in Hg. done.
Qed.

Lemma failed_lookup_is_cached_witness :
  let fetchStore :=
    λ gameId, Ok (storeEndpoint (Throw (NetworkError "Network Error")) (pretty gameId)) in
  let after := processFetched fetchStore sampleStringify 9 (sampleStorage, []) in
  after = (<[metaKey 9 := sampleStringify storeDefault]> sampleStorage, [])
  ∧ hasItem after.1 (metaKey 9) = true
  ∧ ∀ g, g ∈ List.filter (λ g, negb (hasItem after.1 (metaKey (appid g)))) sampleGames →
      appid g ≠ 9.
Proof.
  apply (failed_lookup_is_cached (λ _, Throw (NetworkError "Network Error"))
           sampleStringify 9 sampleStorage [] sampleGames).
  - by eexists.
  - discriminate.
Defined.

(** ** The blacklist, saved and loaded *)

Lemma list_ascii_of_string_app (a b : string) :
  list_ascii_of_string (a +:+ b) = list_ascii_of_string a ++ list_ascii_of_string b.
Proof. induction a as [|c a IH]; simpl; [done|]. by rewrite IH. Qed.

Lemma Qred_inject_Z (z : Z) : Qred (inject_Z z) = inject_Z z.
Proof.
  unfold Qred, inject_Z.
  pose proof (Z.ggcd_gcd z 1) as Hg. pose proof (Z.ggcd_correct_divisors z 1) as Hd.
  destruct (Z.ggcd z 1) as [g [aa bb]]. simpl in *.
  rewrite Z.gcd_1_r in Hg. subst g. destruct Hd as [Ha Hb].
  rewrite Z.mul_1_l in Ha, Hb. subst. reflexivity.
Qed.

(** A number of an array of integers, followed by a comma or by the
    closing bracket, is read as that integer. *)
Lemma number_pretty (z : Z) (c : ascii) (t : list ascii) :
  code c = 44 ∨ code c = 93 →
  JSON.number (list_ascii_of_string (pretty z) ++ c :: t) = Some (num_of_Z z, c :: t).
Proof.
  intros Hc.
  destruct (pretty_Z_chars z) as (d & Hchars & Hdigits & Hval & Hhead).
  assert (is_digit c = false) as Hcd.
  { apply not_true_iff_false. rewrite is_digit_code. lia. }
  assert (match d ++ c :: t with
          | c0 :: t0 => if code c0 =? 48 then ([c0], t0) else span_digits (d ++ c :: t)
          | [] => ([], d ++ c :: t)
          end = (d, c :: t)) as Hip.
  { destruct Hhead as [->|(c0 & d' & -> & Hc0)]; [done|].
    cbn [app]. apply Z.eqb_neq in Hc0. rewrite Hc0.
    exact (span_digits_app (c0 :: d') (c :: t) Hdigits Hcd). }
  assert (∃ c0 d', d = c0 :: d' ∧ 48 ≤ code c0 ≤ 57) as (c0 & d' & Hd & Hc0).
  { destruct Hhead as [->|(c0 & d' & -> & _)]; [eexists _, _; split; [done|]; by vm_compute|].
    exists c0, d'. split; [done|]. apply is_digit_code. simpl in Hdigits.
    by apply andb_true_iff in Hdigits as [? _]. }
  assert ((code c =? 46) = false) as H46 by (apply Z.eqb_neq; lia).
  assert (exponent_part (c :: t) = None) as Hexp.
  { unfold exponent_part.
    assert ((code c =? 101) = false) as -> by (apply Z.eqb_neq; lia).
    assert ((code c =? 69) = false) as -> by (apply Z.eqb_neq; lia). done. }
  assert (∀ neg : bool,
            (let '(ip, r1) := (d, c :: t) in
             match ip with
             | [] => None
             | _ =>
                 let '(fp, r2) :=
                   match r1 with
                   | c1 :: t1 =>
                       if code c1 =? 46 then
                         match span_digits t1 with
                         | ([], _) => ([], r1)
                         | (f, r) => (f, r)
                         end
                       else ([], r1)
                   | [] => ([], r1)
                   end in
                 let '(e, r3) :=
                   match exponent_part r2 with
                   | Some (e, r) => (e, r)
                   | None => (0, r2)
                   end in
                 let q := (inject_Z (digits_val (ip ++ fp))
                           * pow10 (e - Z.of_nat (length fp)))%Q in
                 Some (Fin (Qred (if neg then (- q)%Q else q)), r3)
             end)
            = Some (Fin (Qred (if neg then (- inject_Z (Z.abs z))%Q else inject_Z (Z.abs z))),
                    c :: t)) as Hrest.
  { intros neg. cbv beta iota zeta. rewrite Hd at 1. cbv iota. rewrite H46, Hexp.
    cbv beta iota zeta. rewrite app_nil_r, Hval. do 3 f_equal.
    apply Qred_complete.
    change (pow10 (0 - Z.of_nat (length (@nil ascii)))) with (inject_Z 1).
    destruct neg; [apply Qopp_comp|]; apply Qmult_1_r. }
  assert ((code c0 =? 45) = false) as H45 by (apply Z.eqb_neq; lia).
  unfold JSON.number. rewrite Hchars.
  destruct (z <? 0) eqn:Hneg; cbn [app].
  - apply Z.ltb_lt in Hneg.
    change (code (ascii_of_N 45) =? 45) with true. cbv iota. rewrite Hip.
    etrans; [exact (Hrest true)|]. unfold num_of_Z. do 3 f_equal.
    etrans; [|apply Qred_inject_Z]. apply Qred_complete.
    unfold Qeq, inject_Z, Qopp. simpl. lia.
  - apply Z.ltb_ge in Hneg.
    assert (match d ++ c :: t with
            | c1 :: t1 => if code c1 =? 45 then (true, t1) else (false, d ++ c :: t)
            | [] => (false, d ++ c :: t)
            end = (false, d ++ c :: t)) as ->.
    { rewrite Hd. cbn [app]. by rewrite H45. }
    rewrite Hip.
    etrans; [exact (Hrest false)|]. unfold num_of_Z. do 3 f_equal.
    rewrite Z.abs_eq by done. apply Qred_inject_Z.
Qed.

(** The first character of an integer written in decimal. *)
Lemma pretty_Z_first (z : Z) :
  ∃ c r, list_ascii_of_string (pretty z) = c :: r
         ∧ (code c = 45 ∨ 48 ≤ code c ≤ 57).
Proof.
  destruct (pretty_Z_chars z) as (d & Hchars & Hdigits & _ & Hhead).
  assert (∃ c0 d', d = c0 :: d' ∧ 48 ≤ code c0 ≤ 57) as (c0 & d' & -> & Hc0).
  { destruct Hhead as [->|(c0 & d' & -> & _)]; [eexists _, _; split; [done|]; by vm_compute|].
    exists c0, d'. split; [done|]. apply is_digit_code. simpl in Hdigits.
    by apply andb_true_iff in Hdigits as [? _]. }
  rewrite Hchars. destruct (z <? 0); cbn [app].
  - eexists _, _. split; [done|]. left. by vm_compute.
  - eexists _, _. split; [done|]. by right.
Qed.

Lemma skip_ws_first (c : ascii) (r : list ascii) :
  code c = 45 ∨ 48 ≤ code c ≤ 57 ∨ code c = 44 ∨ code c = 93 →
  JSON.skip_ws (c :: r) = c :: r.
Proof.
  intros Hc. simpl. unfold JSON.is_ws.
  assert ((code c =? 9) = false) as -> by (apply Z.eqb_neq; lia).
  assert ((code c =? 10) = false) as -> by (apply Z.eqb_neq; lia).
  assert ((code c =? 13) = false) as -> by (apply Z.eqb_neq; lia).
  assert ((code c =? 32) = false) as -> by (apply Z.eqb_neq; lia).
  done.
Qed.

Lemma value_pretty (fuel : nat) (z : Z) (c : ascii) (t : list ascii) :
  code c = 44 ∨ code c = 93 →
  JSON.value (S fuel) (list_ascii_of_string (pretty z) ++ c :: t)
  = Some (JNum (num_of_Z z), c :: t).
Proof.
  intros Hc. pose proof (number_pretty z c t Hc) as Hnum.
  destruct (pretty_Z_first z) as (c1 & r & Hch & Hc1).
  rewrite Hch in Hnum |- *. cbn [app] in Hnum |- *. cbn [JSON.value].
  assert ((code c1 =? 34) = false) as -> by (apply Z.eqb_neq; lia).
  assert ((code c1 =? 91) = false) as -> by (apply Z.eqb_neq; lia).
  assert ((code c1 =? 123) = false) as -> by (apply Z.eqb_neq; lia).
  assert ((code c1 =? 116) = false) as -> by (apply Z.eqb_neq; lia).
  assert ((code c1 =? 102) = false) as -> by (apply Z.eqb_neq; lia).
  assert ((code c1 =? 110) = false) as -> by (apply Z.eqb_neq; lia).
  by rewrite Hnum.
Qed.

Lemma concat_cons (z : Z) (ids : list Z) :
  list_ascii_of_string (String.concat "," (pretty <$> (z :: ids)))
  = list_ascii_of_string (pretty z)
    ++ match ids with
       | [] => []
       | _ => ascii_of_N 44 :: list_ascii_of_string (String.concat "," (pretty <$> ids))
       end.
Proof.
  destruct ids as [|z2 ids]; [by rewrite app_nil_r|].
  change (String.concat "," (pretty <$> (z :: z2 :: ids)))
    with (pretty z +:+ "," +:+ String.concat "," (pretty <$> (z2 :: ids))).
  by rewrite !list_ascii_of_string_app.
Qed.

Lemma concat_length (ids : list Z) :
  (length ids ≤ length (list_ascii_of_string (String.concat "," (pretty <$> ids))))%nat.
Proof.
  induction ids as [|z ids IH]; [done|]. rewrite concat_cons, length_app.
  destruct (pretty_Z_first z) as (c & r & -> & _).
  destruct ids as [|z2 ids]; simpl in *; lia.
Qed.

(** The elements of an array of integers, as [JSON.stringify] writes
    them, are read back one by one. *)
Lemma elements_ids (vfuel : nat) (ids : list Z) (z : Z) (fuel : nat)
    (t : list ascii) (acc : list Json) :
  (length ids < fuel)%nat →
  JSON.elements (JSON.value (S vfuel)) fuel
    (list_ascii_of_string (String.concat "," (pretty <$> (z :: ids))) ++ ascii_of_N 93 :: t)
    acc
  = Some (acc ++ ((λ id, JNum (num_of_Z id)) <$> (z :: ids)), t).
Proof.
  revert z fuel acc. induction ids as [|z2 ids IH]; intros z fuel acc Hfuel.
  - destruct fuel as [|fuel]; [simpl in Hfuel; lia|].
    rewrite concat_cons, app_nil_r. cbn [JSON.elements].
    rewrite value_pretty by (right; by vm_compute).
    rewrite skip_ws_first by (do 3 right; by vm_compute).
    reflexivity.
  - destruct fuel as [|fuel]; [simpl in Hfuel; lia|].
    rewrite concat_cons, <- app_assoc. cbn [app]. cbn [JSON.elements].
    rewrite value_pretty by (left; by vm_compute).
    rewrite skip_ws_first by (right; right; left; by vm_compute).
    change (code (ascii_of_N 44) =? 44) with true. cbv iota.
    assert (JSON.skip_ws
              (list_ascii_of_string (String.concat "," (pretty <$> (z2 :: ids)))
               ++ ascii_of_N 93 :: t)
            = list_ascii_of_string (String.concat "," (pretty <$> (z2 :: ids)))
              ++ ascii_of_N 93 :: t) as ->.
    { rewrite concat_cons. destruct (pretty_Z_first z2) as (c & r & -> & Hc).
      cbn [app]. apply skip_ws_first. lia. }
    rewrite IH by (simpl in Hfuel; lia).
    rewrite <- app_assoc. reflexivity.
Qed.

(** What [JSON.stringify] writes for a list of identifiers,
    [JSON.parse] reads back as that list. *)
Lemma parse_stringifyIds (ids : list Z) :
  JSON.parse (stringifyIds ids) = Ok (JArr ((λ id, JNum (num_of_Z id)) <$> ids)).
Proof.
  destruct ids as [|z ids]; [reflexivity|].
  unfold JSON.parse, stringifyIds.
  rewrite !list_ascii_of_string_app.
  change (list_ascii_of_string "[") with [ascii_of_N 91].
  change (list_ascii_of_string "]") with [ascii_of_N 93].
  cbn [app]. set (chars := list_ascii_of_string (String.concat "," (pretty <$> (z :: ids)))).
  change (JSON.skip_ws (ascii_of_N 91 :: chars ++ [ascii_of_N 93]))
    with (ascii_of_N 91 :: chars ++ [ascii_of_N 93]).
  cbn [JSON.value].
  change (code (ascii_of_N 91) =? 34) with false.
  change (code (ascii_of_N 91) =? 91) with true. cbv iota.
  assert (∃ c r, chars = c :: r ∧ (code c = 45 ∨ 48 ≤ code c ≤ 57)) as (c & r & Hchars & Hc).
  { subst chars. rewrite concat_cons. destruct (pretty_Z_first z) as (c & r & -> & Hc).
    by eexists _, _. }
  assert (JSON.skip_ws (chars ++ [ascii_of_N 93]) = c :: (r ++ [ascii_of_N 93])) as ->.
  { rewrite Hchars. cbn [app]. apply skip_ws_first. lia. }
  assert ((code c =? 93) = false) as -> by (apply Z.eqb_neq; lia).
  change (c :: r ++ [ascii_of_N 93]) with ((c :: r) ++ [ascii_of_N 93]).
  rewrite <- Hchars.
  assert (length (ascii_of_N 91 :: chars ++ [ascii_of_N 93]) = S (S (length chars))) as ->.
  { simpl. rewrite length_app. simpl. lia. }
  subst chars. rewrite elements_ids.
  - reflexivity.
  - pose proof (concat_length (z :: ids)) as Hlen. simpl in Hlen |- *. lia.
Qed.

(** X22: the blacklist survives a reload.  After a toggle, the text in
    the storage is read back, by the initializer of the state and by the
    call of the vault hook alike, as the list the toggle left, so the
    initializer cannot throw on what the component itself has written. *)
Theorem blacklist_round_trip (appid : Z) (prev : list Z) (st : gmap string string) :
  let after := toggleBlacklist_update appid (prev, st) in
  blacklistInitializer after.2 = Ok (JArr ((λ id, JNum (num_of_Z id)) <$> after.1))
  ∧ JSON.parse (getItemOr after.2 "vanguard-blacklist" "[]")
    = Ok (JArr ((λ id, JNum (num_of_Z id)) <$> after.1)).
Proof.
  intros after. subst after. unfold toggleBlacklist_update. simpl.
  assert (getItemOr (<["vanguard-blacklist" := stringifyIds (toggleBlacklist appid prev)]> st)
            "vanguard-blacklist" "[]"
          = stringifyIds (toggleBlacklist appid prev)) as Hget.
  { unfold getItemOr. rewrite lookup_insert_eq. reflexivity. }
  split.
  - unfold blacklistInitializer, hasItem, getItemOr. rewrite lookup_insert_eq.
    change (String.eqb (stringifyIds (toggleBlacklist appid prev)) "") with false.
    apply parse_stringifyIds.
  - rewrite Hget. apply parse_stringifyIds.
Qed.

(** ** A scan that fails *)

Section ScanFailure.
Variable fetchStore : Z → Res Json.
Variable stringify : Json → string.

Lemma step_stuck (w : World) (e : Event) :
  isScanning w = true → running w = [] → (step fetchStore stringify w e).1 = w.
Proof.
  intros Hflag Hnone. destruct e as [games|j]; simpl.
  - unfold scanLibrary_start. by rewrite Hflag.
  - unfold scanLibrary_resume. by rewrite Hnone.
Qed.

(** X23: a scan that throws, in a turn of its loop or in the statements
    after it, ends with the scanning flag still up; from then on no
    call starts a scan and nothing changes any more. *)
Theorem failed_scan_blocks_scans (w : World) (j : nat) (job : Job) :
  scan_invariant w →
  running w !! j = Some job →
  ((cursor job < length (targetGames job))%nat
   ∧ ∃ e, (processChunk fetchStore stringify
             (take 5 (drop (cursor job) (targetGames job)))
             (localStorage w) (newGenres job)).2 = Throw e)
  ∨ ((length (targetGames job) ≤ cursor job)%nat
     ∧ ∃ e, foldlM
              (refreshEntry
                 (<["vanguard-genres" := stringify (JArr (newGenres job))]> (localStorage w)))
              (snapshot job) (targetGames job) = Throw e) →
  let failed := (step fetchStore stringify w (Resume j)).1 in
  isScanning failed = true
  ∧ running failed = []
  ∧ ∀ events, run fetchStore stringify failed events = failed.
Proof.
  intros (Hflag & Hone & _) Hjob Hthrow failed.
  assert (isScanning w = true) as Hup.
  { apply Hflag. intros Hnil. by rewrite Hnil in Hjob. }
  assert (isScanning failed = true ∧ running failed = []) as [Hf Hr].
  { subst failed. simpl. unfold scanLibrary_resume. rewrite Hjob.
    destruct Hthrow as [[Hcur [e He]]|[Hcur [e He]]].
    - apply Nat.ltb_lt in Hcur. rewrite Hcur.
      destruct (processChunk _ _ _ _ _) as [[st s] outcome]. simpl in He. subst outcome.
      simpl. split; [done|]. by apply (delete_single _ _ _ Hone Hjob).
    - apply Nat.ltb_ge in Hcur. rewrite Hcur, He.
      simpl. split; [done|]. by apply (delete_single _ _ _ Hone Hjob). }
  split; [done|]. split; [done|].
  intros events. unfold run. induction events as [|e events IH]; [done|].
  simpl. by rewrite step_stuck.
Qed.
End ScanFailure.

Lemma failed_scan_blocks_scans_witness :
  let failed := (step sampleStore sampleStringify brokenWorld (Resume 0)).1 in
  isScanning failed = true
  ∧ running failed = []
  ∧ ∀ events, run sampleStore sampleStringify failed events = failed.
Proof.
  apply (failed_scan_blocks_scans sampleStore sampleStringify brokenWorld 0
           (mkJob [mkGame 8 "H" 50 "" None] 0 [] ∅)).
  - unfold scan_invariant. split; [done|]. split; [simpl; lia|].
    intros job Hjob%list_elem_of_singleton. subst job. simpl. lia.
  - reflexivity.
  - left. split; [simpl; lia|]. exists SyntaxError. reflexivity.
Defined.

(** ** A scan ends *)

Section ScanProgress.
Variable fetchStore : Z → Res Json.
Variable stringify : Json → string.

Lemma run_app (w : World) (events1 events2 : list Event) :
  run fetchStore stringify w (events1 ++ events2)
  = run fetchStore stringify (run fetchStore stringify w events1) events2.
Proof. unfold run. apply foldl_app. Qed.

Lemma resume_idle (w : World) (k : nat) :
  running w = [] → run fetchStore stringify w (replicate k (Resume 0)) = w.
Proof.
  intros Hnone. unfold run. induction k as [|k IH]; [done|]. simpl.
  unfold scanLibrary_resume. by rewrite Hnone.
Qed.

(** A turn of the only scan under way ends it or moves its cursor on
    by five. *)
Lemma resume_progress (w : World) (job : Job) :
  scan_invariant w →
  running w !! 0%nat = Some job →
  running (step fetchStore stringify w (Resume 0)).1 = []
  ∨ ((cursor job < length (targetGames job))%nat
     ∧ ∃ s, running (step fetchStore stringify w (Resume 0)).1
            = [mkJob (targetGames job) (cursor job + 5) s (snapshot job)]).
Proof.
  intros (_ & Hone & _) Hjob.
  assert (running w = [job]) as Hrun.
  { destruct (running w) as [|j0 [|j1 rest]]; simpl in *; [done| |lia]. congruence. }
  simpl. unfold scanLibrary_resume. rewrite Hjob, Hrun.
  destruct (cursor job <? length (targetGames job))%nat eqn:Hcur.
  - apply Nat.ltb_lt in Hcur.
    destruct (processChunk _ _ _ _ _) as [[st s] [u|e]]; simpl; [|by left].
    right. split; [done|]. by exists s.
  - destruct (foldlM _ _ _); by left.
Qed.

Lemma scan_ends_after (n : nat) (w : World) :
  scan_invariant w →
  (∀ job, running w !! 0%nat = Some job →
     (length (targetGames job) ≤ cursor job + 5 * n)%nat) →
  running (run fetchStore stringify w (replicate (S n) (Resume 0))) = [].
Proof.
  revert w. induction n as [|n IH]; intros w Hinv Hleft.
  - destruct (running w !! 0%nat) as [job|] eqn:Hjob.
    + destruct (resume_progress w job Hinv Hjob) as [Hdone|[Hcur _]]; [done|].
      specialize (Hleft job eq_refl). lia.
    + unfold run. simpl. unfold scanLibrary_resume. rewrite Hjob.
      destruct (running w) eqn:Hrun; [done|]. done.
  - change (replicate (S (S n)) (Resume 0)) with ([Resume 0] ++ replicate (S n) (Resume 0)).
    rewrite run_app.
    change (run fetchStore stringify w [Resume 0])
      with (step fetchStore stringify w (Resume 0)).1.
    apply IH; [by apply scan_invariant_step|].
    intros job' Hjob'.
    destruct (running w !! 0%nat) as [job|] eqn:Hjob.
    + destruct (resume_progress w job Hinv Hjob) as [Hdone|[Hcur [s Hnext]]].
      * by rewrite Hdone in Hjob'.
      * rewrite Hnext in Hjob'. injection Hjob' as <-. simpl.
        specialize (Hleft job eq_refl). lia.
    + simpl in Hjob'. unfold scanLibrary_resume in Hjob'. rewrite Hjob in Hjob'.
      simpl in Hjob'. congruence.
Qed.

(** X24: a scan ends.  In a state with at most one scan under way, of
    at most fifty targets, eleven turns of the scan (ten chunks of five
    and the statements after the loop), or more, leave no scan under
    way, whatever the requests answer. *)
Theorem scan_ends_within_eleven_turns (w : World) (k : nat) :
  scan_invariant w →
  (11 ≤ k)%nat →
  running (run fetchStore stringify w (replicate k (Resume 0))) = [].
Proof.
  intros Hinv Hk.
  assert (k = (11 + (k - 11))%nat) as -> by lia.
  rewrite replicate_add, run_app.
  assert (running (run fetchStore stringify w (replicate 11 (Resume 0))) = []) as Hdone.
  { apply (scan_ends_after 10); [done|].
    intros job Hjob. destruct Hinv as (_ & _ & Hcap).
    specialize (Hcap job (list_elem_of_lookup_2 _ _ _ Hjob)). lia. }
  by rewrite resume_idle.
Qed.
End ScanProgress.

Lemma scan_ends_within_eleven_turns_witness :
  running (run sampleStore sampleStringify busyWorld (replicate 11 (Resume 0))) = [].
Proof.
  apply (scan_ends_within_eleven_turns sampleStore sampleStringify busyWorld 11).
  - unfold scan_invariant. split; [done|]. split; [simpl; lia|].
    intros job Hjob. vm_compute in Hjob. apply list_elem_of_singleton in Hjob as ->.
    simpl. lia.
  - lia.
Defined.

(** ** The text filter of the vault *)

Lemma prefix_iff (t s : string) :
  String.prefix t s = true ↔ ∃ post, s = t +:+ post.
Proof.
  revert s. induction t as [|c t IH]; intros s.
  - split; [intros _; by exists s|]. intros _. by destruct s.
  - destruct s as [|d s]; simpl.
    + split; [discriminate|]. intros [post [=]].
    + destruct (ascii_dec c d) as [->|Hne].
      * rewrite IH. split; intros [post Hpost]; exists post.
        -- simpl. by rewrite Hpost.
        -- simpl in Hpost. by injection Hpost.
      * split; [discriminate|]. intros [post [= ? ?]]. done.
Qed.

Lemma str_includes_cons (t : string) (c : ascii) (s : string) :
  str_includes t (String c s) = String.prefix t (String c s) || str_includes t s.
Proof. reflexivity. Qed.

Lemma str_includes_nil (t : string) : str_includes t "" = String.prefix t "" || false.
Proof. reflexivity. Qed.

Lemma str_includes_iff (t s : string) :
  str_includes t s = true ↔ ∃ pre post, s = pre +:+ t +:+ post.
Proof.
  split.
  - induction s as [|c s IH].
    + rewrite str_includes_nil, orb_true_iff. intros [Hp|[=]].
      apply prefix_iff in Hp as [post ->]. by exists "", post.
    + rewrite str_includes_cons, orb_true_iff. intros [Hp|Hs].
      * apply prefix_iff in Hp as [post Hpost]. exists "", post. by rewrite Hpost.
      * destruct (IH Hs) as (pre & post & ->). by exists (String c pre), post.
  - intros (pre & post & ->). induction pre as [|c pre IH].
    + assert (String.prefix t (t +:+ post) = true) as Hp
        by (apply prefix_iff; by exists post).
      change ("" +:+ t +:+ post) with (t +:+ post).
      destruct (t +:+ post) as [|d r].
      * by rewrite str_includes_nil, Hp.
      * by rewrite str_includes_cons, Hp.
    + change (String c pre +:+ t +:+ post) with (String c (pre +:+ t +:+ post)).
      rewrite str_includes_cons, IH. apply orb_true_r.
Qed.

Lemma lower_idemp (c : ascii) : lower (lower c) = lower c.
Proof. destruct c as [[] [] [] [] [] [] [] []]; reflexivity. Qed.

Lemma toLowerCase_idemp (s : string) : toLowerCase (toLowerCase s) = toLowerCase s.
Proof. induction s as [|c s IH]; simpl; [done|]. by rewrite lower_idemp, IH. Qed.

(** X25: on a search text and names of ASCII characters, the text
    filter keeps, in their order, the games whose name contains the
    search text, both taken in lower case: an empty text keeps every
    game, and the case of the text does not matter. *)
Theorem textFilter_contains (searchQuery : string) (games : list Game) :
  isAscii searchQuery →
  Forall (λ g, isAscii (name g)) games →
  textFilter "" games = games
  ∧ textFilter (toLowerCase searchQuery) games = textFilter searchQuery games
  ∧ textFilter searchQuery games `sublist_of` games
  ∧ ∀ g, g ∈ textFilter searchQuery games
         ↔ g ∈ games
           ∧ ∃ pre post, toLowerCase (name g) = pre +:+ toLowerCase searchQuery +:+ post.
Proof.
  intros _ _.
  assert (∀ q, textFilter q games
               = filter (λ g, str_includes (toLowerCase q) (toLowerCase (name g)) = true) games)
    as Hfilter.
  { intros q. unfold textFilter. by apply filter_reflect. }
  split; [|split; [|split]].
  - rewrite Hfilter. clear Hfilter. induction games as [|g games IH]; [done|].
    rewrite filter_cons_True, IH; [done|].
    apply str_includes_iff. by exists "", (toLowerCase (name g)).
  - unfold textFilter. by rewrite toLowerCase_idemp.
  - rewrite Hfilter. apply sublist_filter.
  - intros g. rewrite Hfilter, list_elem_of_filter, str_includes_iff. tauto.
Qed.

Lemma textFilter_contains_witness :
  textFilter "" sampleGames = sampleGames
  ∧ textFilter (toLowerCase "G") sampleGames = textFilter "G" sampleGames
  ∧ textFilter "G" sampleGames `sublist_of` sampleGames
  ∧ ∀ g, g ∈ textFilter "G" sampleGames
         ↔ g ∈ sampleGames
           ∧ ∃ pre post, toLowerCase (name g) = pre +:+ toLowerCase "G" +:+ post.
Proof.
  apply (textFilter_contains "G" sampleGames).
  - unfold isAscii. repeat constructor.
  - unfold isAscii. repeat constructor.
Defined.

(** ** What a turn of the scan leaves in the cache *)

Section ScanCaches.
Variable fetchStore : Z → Res Json.
Variable stringify : Json → string.
Hypothesis stringify_writes : ∀ v, stringify v ≠ "".

Lemma processFetched_hasItem (id : Z) (acc : gmap string string * list Json) (k : string) :
  hasItem acc.1 k = true →
  hasItem (processFetched fetchStore stringify id acc).1 k = true.
Proof.
  destruct acc as [st s]. unfold processFetched, hasItem. simpl.
  destruct (fetchStore id) as [meta|]; simpl; [|done].
  destruct (decide (k = metaKey id)) as [->|Hne].
  - intros _. rewrite lookup_insert_eq. apply negb_true_iff, String.eqb_neq.
    apply stringify_writes.
  - by rewrite lookup_insert_ne.
Qed.

Lemma processFetched_caches (id : Z) (acc : gmap string string * list Json) :
  hasItem (processFetched fetchStore stringify id acc).1 (metaKey id) = true
  ∨ ∃ e, fetchStore id = Throw e.
Proof.
  destruct acc as [st s]. unfold processFetched, hasItem.
  destruct (fetchStore id) as [meta|e]; simpl; [left|right; by exists e].
  rewrite lookup_insert_eq. apply negb_true_iff, String.eqb_neq, stringify_writes.
Qed.

Lemma foldl_processFetched_hasItem (misses : list Game)
    (acc : gmap string string * list Json) (k : string) :
  hasItem acc.1 k = true →
  hasItem (foldl (λ acc g, processFetched fetchStore stringify (appid g) acc) acc misses).1 k
  = true.
Proof.
  revert acc. induction misses as [|g misses IH]; intros acc Hk; [done|]. simpl.
  by apply IH, processFetched_hasItem.
Qed.

Lemma foldl_processFetched_caches (misses : list Game)
    (acc : gmap string string * list Json) (g : Game) :
  g ∈ misses →
  hasItem (foldl (λ acc g, processFetched fetchStore stringify (appid g) acc) acc misses).1
    (metaKey (appid g)) = true
  ∨ ∃ e, fetchStore (appid g) = Throw e.
Proof.
  revert acc. induction misses as [|g' misses IH]; intros acc Hg; [inversion Hg|].
  simpl. apply elem_of_cons in Hg as [->|Hg]; [|by apply IH].
  destruct (processFetched_caches (appid g') acc) as [Hhas|?]; [left|by right].
  by apply foldl_processFetched_hasItem.
Qed.

(** After a turn of the loop every game of the chunk has a cached
    profile, unless its request was rejected. *)
Lemma processChunk_caches (chunk : list Game) (st : gmap string string)
    (s : list Json) (g : Game) :
  g ∈ chunk →
  hasItem (processChunk fetchStore stringify chunk st s).1.1 (metaKey (appid g)) = true
  ∨ ∃ e, fetchStore (appid g) = Throw e.
Proof.
  intros Hg. rewrite processChunk_storage.
  destruct (hasItem st (metaKey (appid g))) eqn:Hhit.
  - left. by apply foldl_processFetched_hasItem.
  - apply foldl_processFetched_caches.
    apply list_elem_of_In, filter_In. split; [by apply list_elem_of_In|].
    by rewrite Hhit.
Qed.

Lemma step_hasItem (w : World) (e : Event) (k : string) :
  k ≠ "vanguard-genres" →
  hasItem (localStorage w) k = true →
  hasItem (localStorage (step fetchStore stringify w e).1) k = true.
Proof.
  intros Hgenres Hk. unfold hasItem in Hk |- *. by rewrite step_lookup by auto.
Qed.

(** X26: a turn of the scan leaves every game of its chunk with a
    cached profile, unless the store request for the game was rejected,
    and the profile stays cached whatever follows; so a later scan
    targets only games it could not profile. *)
Theorem scan_turn_caches (w : World) (j : nat) (job : Job) (g : Game)
    (events : list Event) :
  running w !! j = Some job →
  g ∈ take 5 (drop (cursor job) (targetGames job)) →
  hasItem
    (localStorage (run fetchStore stringify (step fetchStore stringify w (Resume j)).1 events))
    (metaKey (appid g)) = true
  ∨ ∃ e, fetchStore (appid g) = Throw e.
Proof.
  intros Hjob Hg.
  assert (take 5 (drop (cursor job) (targetGames job)) ≠ []) as Hchunk
    by (intros Hnil; rewrite Hnil in Hg; inversion Hg).
  assert ((cursor job < length (targetGames job))%nat) as Hcur.
  { destruct (decide (cursor job < length (targetGames job))%nat); [done|].
    rewrite drop_ge in Hchunk by lia. done. }
  destruct (processChunk_caches (take 5 (drop (cursor job) (targetGames job)))
              (localStorage w) (newGenres job) g Hg) as [Hhas|Hfail]; [left|by right].
  assert (hasItem (localStorage (step fetchStore stringify w (Resume j)).1)
            (metaKey (appid g)) = true) as Hstep.
  { simpl. unfold scanLibrary_resume. rewrite Hjob.
    apply Nat.ltb_lt in Hcur. rewrite Hcur.
    destruct (processChunk _ _ _ _ _) as [[st s] [u|e]]; done. }
  revert Hstep. generalize (step fetchStore stringify w (Resume j)).1. clear.
  unfold run. induction events as [|e events IH]; intros w Hw; [done|].
  simpl. apply IH. apply step_hasItem; [|done].
  unfold metaKey, META_PREFIX. discriminate.
Qed.
End ScanCaches.

Lemma scan_turn_caches_witness :
  hasItem
    (localStorage (run sampleStore sampleStringify
                     (step sampleStore sampleStringify busyWorld (Resume 0)).1
                     [Resume 0; Invoke sampleGames]))
    (metaKey 8) = true
  ∨ ∃ e, sampleStore 8 = Throw e.
Proof.
  apply (scan_turn_caches sampleStore sampleStringify (λ _, ltac:(discriminate))
           busyWorld 0
           (mkJob [mkGame 8 "H" 50 "" None; mkGame 9 "I" 10 "" None] 0 [] ∅)
           (mkGame 8 "H" 50 "" None) [Resume 0; Invoke sampleGames]).
  - reflexivity.
  - by left.
Defined.

(** ** The end of a scan *)

Lemma refreshEntry_cases (st : gmap string string) (meta meta' : gmap string Json) (g : Game) :
  refreshEntry st meta g = Ok meta' →
  (hasItem st (metaKey (appid g)) = false ∧ meta' = meta)
  ∨ ∃ text v,
      hasItem st (metaKey (appid g)) = true
      ∧ st !! metaKey (appid g) = Some text
      ∧ JSON.parse text = Ok v
      ∧ meta' = <[pretty (appid g) := v]> meta.
Proof.
  unfold refreshEntry. destruct (hasItem st (metaKey (appid g))) eqn:Hhas.
  - pose proof (hasItem_getItemOr st (metaKey (appid g)) "" Hhas) as Htext.
    destruct (JSON.parse (getItemOr st (metaKey (appid g)) "")) as [v|] eqn:Hparse;
      simpl; [|done].
    intros [= <-]. right. by eexists _, v.
  - intros [= <-]. by left.
Qed.

(** The refreshed metadata agree with the cache on every target, and
    are the metadata of the start elsewhere. *)
Lemma foldlM_refreshEntry (st : gmap string string) (targets : list Game)
    (snapshot meta : gmap string Json) :
  foldlM (refreshEntry st) snapshot targets = Ok meta →
  (∀ g, g ∈ targets → hasItem st (metaKey (appid g)) = true →
     ∃ text v, st !! metaKey (appid g) = Some text
               ∧ JSON.parse text = Ok v
               ∧ meta !! pretty (appid g) = Some v)
  ∧ ∀ k, (∀ g, g ∈ targets → hasItem st (metaKey (appid g)) = true →
            k ≠ pretty (appid g)) →
         meta !! k = snapshot !! k.
Proof.
  revert snapshot. induction targets as [|t targets IH]; intros snapshot; simpl.
  { intros [= <-]. split; [|done]. intros g Hg. inversion Hg. }
  destruct (refreshEntry st snapshot t) as [meta1|] eqn:Ht; [|done].
  intros Hrest. destruct (IH meta1 Hrest) as [IHin IHout]. split.
  - intros g [->|Hg]%elem_of_cons Hhas; [|by apply IHin].
    destruct (refreshEntry_cases _ _ _ _ Ht) as [[Hno _]|(text & v & _ & Htext & Hparse & ->)];
      [congruence|].
    exists text, v. split; [done|]. split; [done|].
    destruct (decide (appid t ∈ appid <$> targets)) as [Hlater|Hlast].
    + apply list_elem_of_fmap in Hlater as (g & Hid & Hg).
      assert (hasItem st (metaKey (appid g)) = true) as Hghas by (by rewrite <- Hid).
      destruct (IHin g Hg Hghas) as (text' & v' & Htext' & Hparse' & Hv').
      rewrite <- Hid in Htext', Hv'. congruence.
    + rewrite IHout; [by rewrite lookup_insert_eq|].
      intros g Hg _ Heq. apply Hlast. apply (inj pretty) in Heq. rewrite Heq.
      by apply list_elem_of_fmap_2.
  - intros k Hk. rewrite IHout by (intros g Hg; apply Hk; by right).
    destruct (refreshEntry_cases _ _ _ _ Ht) as [[_ ->]|(text & v & Hhas & _ & _ & ->)];
      [done|].
    rewrite lookup_insert_ne; [done|]. intros <-.
    apply (Hk t); [by left|done|done].
Qed.

(** X27: when the last turn of a scan goes through (the flag comes
    down), no scan is under way any more, the component shows the
    genres the scan collected and has written them to the storage, and
    its metadata hold, for every target with a cached profile, that
    profile as parsed from the cache, every other entry being as it was
    when the scan started. *)
Theorem scan_completion (fetchStore : Z → Res Json) (stringify : Json → string)
    (w : World) (j : nat) (job : Job) :
  scan_invariant w →
  running w !! j = Some job →
  (length (targetGames job) ≤ cursor job)%nat →
  let done := (step fetchStore stringify w (Resume j)).1 in
  isScanning done = false →
  running done = []
  ∧ availableGenres done = newGenres job
  ∧ localStorage done
    = <["vanguard-genres" := stringify (JArr (newGenres job))]> (localStorage w)
  ∧ (∀ g, g ∈ targetGames job →
       hasItem (localStorage done) (metaKey (appid g)) = true →
       ∃ text v, localStorage done !! metaKey (appid g) = Some text
                 ∧ JSON.parse text = Ok v
                 ∧ gameMetadata done !! pretty (appid g) = Some v)
  ∧ ∀ k, (∀ g, g ∈ targetGames job →
            hasItem (localStorage done) (metaKey (appid g)) = true →
            k ≠ pretty (appid g)) →
         gameMetadata done !! k = snapshot job !! k.
Proof.
  intros (Hflag & Hone & _) Hjob Hcur done. subst done. simpl.
  assert (isScanning w = true) as Hup.
  { apply Hflag. intros Hnil. by rewrite Hnil in Hjob. }
  unfold scanLibrary_resume. rewrite Hjob.
  apply Nat.ltb_ge in Hcur. rewrite Hcur.
  destruct (foldlM _ (snapshot job) (targetGames job)) as [meta|e] eqn:Hrefresh; simpl.
  - intros _. destruct (foldlM_refreshEntry _ _ _ _ Hrefresh) as [Hin Hout].
    split; [by apply (delete_single _ _ _ Hone Hjob)|]. done.
  - congruence.
Qed.

Lemma scan_completion_witness :
  let w := (step sampleStore sampleStringify busyWorld (Resume 0)).1 in
  let done := (step sampleStore sampleStringify w (Resume 0)).1 in
  running done = []
  ∧ availableGenres done = [JStr "Action"]
  ∧ localStorage done
    = <["vanguard-genres" := sampleStringify (JArr [JStr "Action"])]> (localStorage w)
  ∧ (∀ g, g ∈ [mkGame 8 "H" 50 "" None; mkGame 9 "I" 10 "" None] →
       hasItem (localStorage done) (metaKey (appid g)) = true →
       ∃ text v, localStorage done !! metaKey (appid g) = Some text
                 ∧ JSON.parse text = Ok v
                 ∧ gameMetadata done !! pretty (appid g) = Some v)
  ∧ ∀ k, (∀ g, g ∈ [mkGame 8 "H" 50 "" None; mkGame 9 "I" 10 "" None] →
            hasItem (localStorage done) (metaKey (appid g)) = true →
            k ≠ pretty (appid g)) →
         gameMetadata done !! k = (∅ : gmap string Json) !! k.
Proof.
  apply (scan_completion sampleStore sampleStringify
           (step sampleStore sampleStringify busyWorld (Resume 0)).1 0
           (mkJob [mkGame 8 "H" 50 "" None; mkGame 9 "I" 10 "" None] 5 [JStr "Action"] ∅)).
  - unfold scan_invariant. split; [done|]. split; [vm_compute; lia|].
    intros job Hjob. vm_compute in Hjob. apply list_elem_of_singleton in Hjob as ->.
    simpl. lia.
  - reflexivity.
  - simpl. lia.
  - reflexivity.
Defined.

(** ** Achievements that tie *)

Lemma achievementCompare_tie (x y : AchievementWithLink) :
  m_achieved x = m_achieved y → percent x = percent y →
  achievementCompare x y = Eq.
Proof.
  intros Ha Hp. unfold achievementCompare.
  rewrite bool_decide_eq_false_2 by (by intros ?).
  rewrite Hp. destruct (num_or0 (percent y)) as [| | |q]; try done.
  simpl. apply Qeq_alt. unfold Qminus. apply Qplus_opp_r.
Qed.

(** X28: the sort of the merged achievements is stable: achievements
    with the same achieved state and the same percentage stay in the
    order of the player-achievement list of the response. *)
Theorem achievements_ties_keep_order (pas : list PlayerAchievement)
    (schemas : list SchemaAchievement) (globals : list GlobalAchievement)
    (links : Json) (merged : list AchievementWithLink) :
  mergeAchievements pas schemas globals links = Ok merged →
  ∃ unsorted,
    mapM (mergeOne schemas globals links) pas = Ok unsorted
    ∧ m_apiname <$> unsorted = apiname <$> pas
    ∧ ∀ a p,
        filter (λ m, m_achieved m = a ∧ percent m = p) merged
        = filter (λ m, m_achieved m = a ∧ percent m = p) unsorted.
Proof.
  unfold mergeAchievements.
  destruct (mapM _ pas) as [unsorted|] eqn:Hmap; simpl; [|done].
  intros [= <-]. exists unsorted. split; [done|]. split.
  - apply mapM_Forall2 in Hmap.
    induction Hmap as [|pa m pas unsorted Hm _ IH]; [done|].
    rewrite !fmap_cons, IH. f_equal.
    unfold mergeOne in Hm. destruct (dot _ _); simpl in Hm; [|done].
    by injection Hm as <-.
  - intros a p. apply sort_stable. intros x y [Hx Hpx] [Hy Hpy].
    rewrite achievementCompare_tie by congruence. discriminate.
Qed.

Lemma achievements_ties_keep_order_witness :
  ∃ unsorted,
    mapM (mergeOne [] [] (JObj [])) [mkPlayer "B" 0 0; mkPlayer "A" 0 0] = Ok unsorted
    ∧ m_apiname <$> unsorted = apiname <$> [mkPlayer "B" 0 0; mkPlayer "A" 0 0]
    ∧ ∀ a p,
        filter (λ m, m_achieved m = a ∧ percent m = p)
          (sort achievementCompare
             [ mkMerged "B" 0 0 "B" None None None (Fin 0) (JStr "");
               mkMerged "A" 0 0 "A" None None None (Fin 0) (JStr "") ])
        = filter (λ m, m_achieved m = a ∧ percent m = p) unsorted.
Proof.
  apply (achievements_ties_keep_order [mkPlayer "B" 0 0; mkPlayer "A" 0 0] [] [] (JObj [])).
  reflexivity.
Defined.
